(** * Merkle trees in Go: a shallow embedding of [merkletree.go]

    The Go program keeps a binary Merkle tree as a graph of heap-allocated
    [Node]s linked by [left], [right] and [parent] pointers, and mutates
    node hashes in place.  The embedding keeps that shape:

    - the heap is an arena, a list of [Node] records; a pointer is
      [Some address] or [None] for Go's [nil]; [&Node{...}] allocates at the
      end of the arena; pointer comparison is comparison of addresses;
    - Go's [int] is the 64-bit signed integer of the usual targets
      (amd64, arm64) and [uint64] the 64-bit unsigned one; both are [Z] with
      the wrap-around written out;
    - a function that reads or writes nodes is a computation of the monad
      [M], which threads the heap and ends in a value, a Go [error], a
      run-time panic, or exhaustion of the fuel that bounds its loops;
    - a [*MerkleTree] receiver or argument, and the [*AggregatedMerkleProof]
      argument of [VerifyAggregatedProof], are the structs pointed to: the
      functions are modelled on pointers that are not [nil];
    - SHA-256 (Go's crypto/sha256, printed as lower-case hex) is not part of
      the repository and is a parameter of the development. *)

From Stdlib Require Import ZArith Lia ZifyNat String List.
From stdpp Require Import base numbers option list strings.

Local Open Scope Z_scope.

(** ** Machine integers *)

(** Two's-complement reduction to Go's 64-bit [int]. *)
Definition int_wrap (z : Z) : Z := (z + 2 ^ 63) `mod` 2 ^ 64 - 2 ^ 63.

(** The values of Go's [uint64]. *)
Definition is_uint64 (z : Z) : Prop := 0 ≤ z < 2 ^ 64.

(** The conversion [int(x)] of a [uint64] value [x]. *)
Definition int_of_uint64 (x : Z) : Z := int_wrap x.

(** The conversion [uint64(n)] of an [int] value [n]. *)
Definition uint64_of_int (n : Z) : Z := n `mod` 2 ^ 64.

(** Subtraction of [uint64] values. *)
Definition uint64_sub (a b : Z) : Z := (a - b) `mod` 2 ^ 64.

(** [len(s)] as an [int]. *)
Definition len {A} (s : list A) : Z := Z.of_nat (length s).

(** [getNextPowerOfTwo]: the bit-smearing of the source, on [int]. *)
Definition getNextPowerOfTwo (n : Z) : Z :=
  if n <=? 0 then 1
  else
    let n := int_wrap (n - 1) in
    let n := Z.lor n (Z.shiftr n 1) in
    let n := Z.lor n (Z.shiftr n 2) in
    let n := Z.lor n (Z.shiftr n 4) in
    let n := Z.lor n (Z.shiftr n 8) in
    let n := Z.lor n (Z.shiftr n 16) in
    int_wrap (n + 1).

(** The state of the bit-smearing after shifts totalling [w - 1]: bit [i]
    of [x] is set exactly when [m] has a set bit among the [w] positions
    from [i] upwards. *)
Definition smeared (m : Z) (w : Z) (x : Z) : Prop :=
  ∀ i, 0 ≤ i → Z.testbit x i = true ↔ ∃ j, i ≤ j < i + w ∧ Z.testbit m j = true.

(** A power of two, as the specification means it. *)
Definition is_power_of_two (z : Z) : Prop := ∃ k : nat, z = 2 ^ Z.of_nat k.

(** ** Data model (types.go) *)

(** A [*Node]: [None] is [nil]. *)
Abbreviation ptr := (option nat).

Record Node : Type := mkNode {
  hash : string;
  left : ptr;
  right : ptr;
  parent : ptr
}.

Record MerkleProof : Type := mkMerkleProof {
  hElement : string;
  siblings : list string;
  directions : list bool
}.

Record MerkleTree : Type := mkMerkleTree {
  root : ptr;
  leaves : list ptr
}.

(** The source's field names [end], [siblings] and [directions] are a
    keyword and two projections of [MerkleProof] here, hence [end_],
    [aggSiblings] and [aggDirections]. *)
Record AggregatedMerkleProof : Type := mkAggregatedMerkleProof {
  start : Z;
  end_ : Z;
  aggSiblings : list string;
  aggDirections : list bool
}.

(** The arena of allocated nodes. *)
Abbreviation Heap := (list Node).

(** ** Outcomes and the heap monad *)

(** The run-time panics the program can raise. *)
Inductive panic : Type :=
  | NilDereference
  | IndexOutOfRange
  | SliceBoundsOutOfRange
  | MakeCapOutOfRange.

Inductive outcome (A : Type) : Type :=
  | Ok (a : A)
  | Err (msg : string)
  | Panic (p : panic)
  | OutOfFuel.

Arguments Ok {A} a.
Arguments Err {A} msg.
Arguments Panic {A} p.
Arguments OutOfFuel {A}.

Definition M (A : Type) : Type := Heap → outcome A * Heap.

Definition ret {A} (a : A) : M A := λ H, (Ok a, H).

Definition bind {A B} (m : M A) (k : A → M B) : M B :=
  λ H, match m H with
       | (Ok a, H') => k a H'
       | (Err e, H') => (Err e, H')
       | (Panic p, H') => (Panic p, H')
       | (OutOfFuel, H') => (OutOfFuel, H')
       end.

Definition fail {A} (msg : string) : M A := λ H, (Err msg, H).
Definition raise {A} (p : panic) : M A := λ H, (Panic p, H).
Definition out_of_fuel {A} : M A := λ H, (OutOfFuel, H).

Declare Scope heap_scope.
Delimit Scope heap_scope with heap.
Notation "'let*' x ':=' m 'in' k" := (bind m (λ x, k))
  (at level 20, x pattern, m at level 100, k at level 200) : heap_scope.
Notation "m ';;' k" := (bind m (λ _, k))
  (at level 100, k at level 200, right associativity) : heap_scope.
Local Open Scope heap_scope.

(** [&Node{...}]: a fresh node at the end of the arena. *)
Definition alloc (n : Node) : M ptr :=
  λ H, (Ok (Some (length H)), H ++ [n]).

(** Reading through a pointer; [nil] panics. *)
Definition load (p : ptr) : M Node :=
  λ H, match p with
       | None => (Panic NilDereference, H)
       | Some a =>
           match H !! a with
           | Some n => (Ok n, H)
           | None => (Panic NilDereference, H)
           end
       end.

(** Writing through a pointer; [nil] panics. *)
Definition store (p : ptr) (n : Node) : M unit :=
  λ H, match p with
       | None => (Panic NilDereference, H)
       | Some a =>
           if decide (a < length H)%nat then (Ok tt, <[a:=n]> H)
           else (Panic NilDereference, H)
       end.

(** [p.hash = h] *)
Definition set_hash (p : ptr) (h : string) : M unit :=
  let* n := load p in
  store p {| hash := h; left := left n; right := right n; parent := parent n |}.

(** [p.parent = q] *)
Definition set_parent (p q : ptr) : M unit :=
  let* n := load p in
  store p {| hash := hash n; left := left n; right := right n; parent := q |}.

(** [s[i]] for an index [i] of an integer type: out of range panics. *)
Definition index {A} (s : list A) (i : Z) : M A :=
  if (0 <=? i) && (i <? len s) then
    match s !! Z.to_nat i with
    | Some x => ret x
    | None => raise IndexOutOfRange
    end
  else raise IndexOutOfRange.

(** Pointer comparison [p == q]. *)
Definition ptr_eqb (p q : ptr) : bool := bool_decide (p = q).

(** ** Error values: the messages of the source's [fmt.Errorf] calls *)

Definition EmptyInputError : string := "no elements to create a Merkle Tree".
Definition IndexOutOfBoundsError : string := "index out of bounds".
(** [GetAggregatedProof] reports an invalid range with the same message. *)
Definition InvalidRangeError : string := "index out of bounds".
Definition RangeTooSmallError : string :=
  "an aggregated proof must contain at least two elements".

Section Merkle.

(** Go's [fmt.Sprintf("%x", sha256(bytes))]: the hex text of the SHA-256
    digest of a byte string. *)
Variable sha256hex : string → string.

(** [hashLeaf]: one [Write] of the leaf's bytes. *)
Definition hashLeaf (leaf : string) : string := sha256hex leaf.

(** [hashNode]: [Write(a)] then [Write(b)] digests the concatenation. *)
Definition hashNode (a b : string) : string := sha256hex (a +:+ b).

(** *** VerifyProof *)

(** The loop shared by [VerifyProof] and [VerifyAggregatedProof]: position
    [i] of [siblings] is combined under [directions[i]], and reading
    [directions[i]] past its end panics. *)
Fixpoint replay (currentHash : string) (i : nat) (sibs : list string)
    (dirs : list bool) : outcome string :=
  match sibs with
  | [] => Ok currentHash
  | siblingHash :: rest =>
      match dirs !! i with
      | None => Panic IndexOutOfRange
      | Some true => replay (hashNode siblingHash currentHash) (S i) rest dirs
      | Some false => replay (hashNode currentHash siblingHash) (S i) rest dirs
      end
  end.

Definition VerifyProof (root : string) (proof : MerkleProof) : outcome bool :=
  match replay (hElement proof) 0 (siblings proof) (directions proof) with
  | Ok currentHash => Ok (String.eqb currentHash root)
  | Err e => Err e
  | Panic p => Panic p
  | OutOfFuel => OutOfFuel
  end.

(** *** The leaf-to-root walk of GetProof and GetAggregatedProof *)

(** [for node != t.root { ... node = parent }], appending to the two
    slices.  The fuel bounds the number of iterations. *)
Fixpoint collectPath (fuel : nat) (troot node : ptr)
    (sibs : list string) (dirs : list bool) : M (list string * list bool) :=
  if ptr_eqb node troot then ret (sibs, dirs)
  else
    match fuel with
    | O => out_of_fuel
    | S fuel' =>
        let* n := load node in
        let parent := parent n in
        let* pn := load parent in
        if ptr_eqb (left pn) node then
          let* rn := load (right pn) in
          collectPath fuel' troot parent (sibs ++ [hash rn]) (dirs ++ [false])
        else
          let* ln := load (left pn) in
          collectPath fuel' troot parent (sibs ++ [hash ln]) (dirs ++ [true])
    end.

(** The walk follows [parent] links, so it either ends within as many steps
    as there are nodes or never ends. *)
Definition walk_fuel : M nat := λ H, (Ok (length H), H).

Definition GetProof (t : MerkleTree) (idx : Z) : M MerkleProof :=
  if int_of_uint64 idx >=? len (leaves t) then fail IndexOutOfBoundsError
  else
    let* node := index (leaves t) idx in
    let* fuel := walk_fuel in
    let* (sibs, dirs) := collectPath fuel (root t) node [] [] in
    let* leaf := index (leaves t) idx in
    let* ln := load leaf in
    ret {| hElement := hash ln; siblings := sibs; directions := dirs |}.

(** *** NewMerkleTree *)

(** [for i, elem := range elements { leaves[i] = &Node{hash: hashLeaf(elem)} }] *)
Fixpoint allocLeaves (elements : list string) : M (list ptr) :=
  match elements with
  | [] => ret []
  | elem :: rest =>
      let* p := alloc {| hash := hashLeaf elem; left := None;
                         right := None; parent := None |} in
      let* ps := allocLeaves rest in
      ret (p :: ps)
  end.

(** [for len(leaves) < requiredLeaves { leaves = append(leaves, &Node{...}) }]:
    [missing] iterations. *)
Fixpoint padLeaves (missing : nat) (leaves : list ptr) : M (list ptr) :=
  match missing with
  | O => ret leaves
  | S missing' =>
      let* p := alloc {| hash := hashLeaf ""%string; left := None;
                         right := None; parent := None |} in
      padLeaves missing' (leaves ++ [p])
  end.

(** One pass of the inner loop [for i := 0; i < len(leaves); i += 2]. *)
Fixpoint buildLevel (leaves : list ptr) : M (list ptr) :=
  match leaves with
  | [] => ret []
  | [_] => raise IndexOutOfRange
  | left :: right :: rest =>
      let* ln := load left in
      let* rn := load right in
      let* parent := alloc {| hash := hashNode (hash ln) (hash rn);
                              left := left; right := right;
                              parent := None |} in
      set_parent left parent;;
      set_parent right parent;;
      let* nextLevel := buildLevel rest in
      ret (parent :: nextLevel)
  end.

(** The outer loop [for len(leaves) > 1]. *)
Fixpoint buildLevels (fuel : nat) (leaves allNodes : list ptr)
    : M (list ptr * list ptr) :=
  if 1 <? len leaves then
    match fuel with
    | O => out_of_fuel
    | S fuel' =>
        let* nextLevel := buildLevel leaves in
        buildLevels fuel' nextLevel (allNodes ++ nextLevel)
    end
  else ret (leaves, allNodes).

(** [make([]*Node, 0, len(leaves)*2)] panics on a negative capacity.  The
    final [allNodes[:requiredLeaves]] panics on a negative bound; the
    padding loop has made [allNodes] at least [requiredLeaves] long, so the
    slice is the prefix [take] computes. *)
Definition NewMerkleTree (elements : list string) : M MerkleTree :=
  if len elements =? 0 then fail EmptyInputError
  else
    let* leaves := allocLeaves elements in
    let requiredLeaves := getNextPowerOfTwo (len elements) in
    let* leaves := padLeaves (Z.to_nat (requiredLeaves - len leaves)) leaves in
    if int_wrap (len leaves * 2) <? 0 then raise MakeCapOutOfRange
    else
      let allNodes := leaves in
      let* (leaves, allNodes) :=
        buildLevels (length leaves) leaves allNodes in
      let* root := index leaves 0 in
      if requiredLeaves <? 0 then raise SliceBoundsOutOfRange
      else
        ret {| root := root;
               leaves := take (Z.to_nat requiredLeaves) allNodes |}.

(** *** getRoot *)

Definition getRoot (t : MerkleTree) : M string :=
  match root t with
  | None => ret ""%string
  | Some _ => let* n := load (root t) in ret (hash n)
  end.

(** *** getSibling and isLeftChild *)

Definition getSibling (n : ptr) : M ptr :=
  let* nd := load n in
  match parent nd with
  | None => ret None
  | Some _ =>
      let* pn := load (parent nd) in
      if ptr_eqb n (left pn) then ret (right pn) else ret (left pn)
  end.

Definition isLeftChild (n : ptr) : M bool :=
  let* nd := load n in
  match parent nd with
  | None => ret false
  | Some _ => let* pn := load (parent nd) in ret (ptr_eqb n (left pn))
  end.

(** *** UpdateElement *)

(** [for node != t.root { ... node = parent }], rewriting ancestor hashes. *)
Fixpoint rehashPath (fuel : nat) (troot node : ptr) : M unit :=
  if ptr_eqb node troot then ret tt
  else
    match fuel with
    | O => out_of_fuel
    | S fuel' =>
        let* n := load node in
        let parent := parent n in
        let* pn := load parent in
        (if ptr_eqb (left pn) node then
           let* rn := load (right pn) in
           set_hash parent (hashNode (hash n) (hash rn))
         else
           let* ln := load (left pn) in
           set_hash parent (hashNode (hash ln) (hash n)));;
        rehashPath fuel' troot parent
    end.

Definition UpdateElement (t : MerkleTree) (idx : Z) (element : string)
    : M unit :=
  if int_of_uint64 idx >=? len (leaves t) then fail IndexOutOfBoundsError
  else
    let* leaf := index (leaves t) idx in
    set_hash leaf (hashLeaf element);;
    let* node := index (leaves t) idx in
    let* fuel := walk_fuel in
    rehashPath fuel (root t) node.

(** *** GetAggregatedProof and VerifyAggregatedProof *)

Definition GetAggregatedProof (t : MerkleTree) (startIndex endIndex : Z)
    : M AggregatedMerkleProof :=
  if (startIndex >=? endIndex) || (int_of_uint64 endIndex >? len (leaves t))
  then fail InvalidRangeError
  else if uint64_sub endIndex startIndex <? 1 then fail RangeTooSmallError
  else
    let* node := index (leaves t) startIndex in
    let* fuel := walk_fuel in
    let* (sibs, dirs) := collectPath fuel (root t) node [] [] in
    ret {| start := startIndex; end_ := endIndex;
           aggSiblings := sibs; aggDirections := dirs |}.

Definition VerifyAggregatedProof (root : string)
    (aggProof : AggregatedMerkleProof) (tree : MerkleTree) : M bool :=
  if (start aggProof >=? end_ aggProof)
     || (end_ aggProof >? uint64_of_int (len (leaves tree)))
  then ret false
  else
    let* leaf := index (leaves tree) (start aggProof) in
    let* ln := load leaf in
    match replay (hash ln) 0 (aggSiblings aggProof) (aggDirections aggProof) with
    | Ok currentHash => ret (String.eqb currentHash root)
    | Err e => fail e
    | Panic p => raise p
    | OutOfFuel => out_of_fuel
    end.

End Merkle.


(** ** The shape of a built tree

    The nodes of a tree lie in levels: level 0 holds the leaves, each next
    level the parents of the pairs of the level below, and the last level
    the root alone.  A tree is described by the list of its levels, each a
    list of addresses. *)

(** Level [hi] holds the parents of the adjacent pairs of level [lo]. *)
Definition linked (H : Heap) (lo hi : list nat) : Prop :=
  length lo = (2 * length hi)%nat ∧
  ∀ i p, hi !! i = Some p →
    ∃ l r np nl nr,
      lo !! (2 * i)%nat = Some l ∧ lo !! (2 * i + 1)%nat = Some r ∧
      H !! p = Some np ∧ left np = Some l ∧ right np = Some r ∧
      H !! l = Some nl ∧ parent nl = Some p ∧
      H !! r = Some nr ∧ parent nr = Some p.

(** The levels above level [lo], up to the root [r] alone in the last. *)
Fixpoint tower (H : Heap) (r : nat) (lo : list nat) (above : list (list nat))
    : Prop :=
  match above with
  | [] => lo = [r] ∧ ∃ n, H !! r = Some n ∧ parent n = None
  | hi :: above' => linked H lo hi ∧ tower H r hi above'
  end.

(** Two heaps with the same pointer structure (hashes may differ). *)
Definition same_shape (H H' : Heap) : Prop :=
  ∀ a, match H !! a, H' !! a with
       | Some n, Some n' =>
           left n' = left n ∧ right n' = right n ∧ parent n' = parent n
       | None, None => True
       | _, _ => False
       end.

Section Invariants.

Variable sha256hex : string → string.

(** Every parent in [hi], except the one at position [skip], carries the
    hash of its two children in [lo]. *)
Definition hashed_but (skip : option nat) (H : Heap) (lo hi : list nat)
    : Prop :=
  ∀ i p l r np nl nr,
    Some i ≠ skip →
    hi !! i = Some p → lo !! (2 * i)%nat = Some l →
    lo !! (2 * i + 1)%nat = Some r →
    H !! p = Some np → H !! l = Some nl → H !! r = Some nr →
    hash np = hashNode sha256hex (hash nl) (hash nr).

(** All levels above [lo] carry the hashes of their children. *)
Fixpoint hashes_above (H : Heap) (lo : list nat) (above : list (list nat))
    : Prop :=
  match above with
  | [] => True
  | hi :: above' => hashed_but None H lo hi ∧ hashes_above H hi above'
  end.

(** The same, with position [skip] of the level next to [lo] exempt. *)
Definition hashes_above_but (skip : option nat) (H : Heap) (lo : list nat)
    (above : list (list nat)) : Prop :=
  match above with
  | [] => True
  | hi :: above' => hashed_but skip H lo hi ∧ hashes_above H hi above'
  end.

(** The invariant of a tree [t] in heap [H] whose leaves hold the hashes of
    the elements [els]: [lo] is the level of the leaves, [above] the levels
    over it, [r] the root. *)
Record tree_inv (els : list string) (H : Heap) (t : MerkleTree)
    (lo : list nat) (above : list (list nat)) (r : nat) : Prop := {
  inv_root : root t = Some r;
  inv_tower : tower H r lo above;
  inv_nodup : NoDup (concat (lo :: above));
  inv_cover : ∀ a, (a < length H)%nat → a ∈ concat (lo :: above);
  inv_leaves : leaves t = Some <$> take (length (leaves t)) lo;
  inv_childless : ∀ a n, a ∈ lo → H !! a = Some n →
                         left n = None ∧ right n = None;
  inv_hashes : hashes_above H lo above;
  inv_length : (length (leaves t) ≤ length els)%nat;
  inv_elements : ∀ i e a n, els !! i = Some e → lo !! i = Some a →
                            H !! a = Some n → hash n = hashLeaf sha256hex e
}.

(** What one pass of [buildLevel] over level [lo] leaves behind: the
    parents [hi] are the fresh addresses, linked to and hashed from their
    children; of the older nodes only those of [lo] changed, and only in
    their [parent] field. *)
Definition level_built (H H' : Heap) (lo hi : list nat) : Prop :=
  hi = seq (length H) (length hi) ∧
  length H' = (length H + length hi)%nat ∧
  linked H' lo hi ∧
  hashed_but None H' lo hi ∧
  (∀ b, (b < length H)%nat → b ∉ lo → H' !! b = H !! b) ∧
  (∀ b n, b ∈ lo → H !! b = Some n →
     ∃ q, H' !! b = Some {| hash := hash n; left := left n;
                            right := right n; parent := q |}) ∧
  (∀ b, b ∈ hi → ∃ n, H' !! b = Some n ∧ parent n = None).

(** The node of a leaf holding [e]. *)
Definition leafNode (e : string) : Node :=
  {| hash := hashLeaf sha256hex e; left := None; right := None;
     parent := None |}.

(** The property of internal nodes: a node with a child has both children
    and carries the node hash of their hashes. *)
Definition internal_nodes_hashed (H : Heap) : Prop :=
  ∀ a n, H !! a = Some n → left n ≠ None ∨ right n ≠ None →
    ∃ nl nr, load (left n) H = (Ok nl, H) ∧ load (right n) H = (Ok nr, H) ∧
             hash n = hashNode sha256hex (hash nl) (hash nr).

(** The elements a freshly built tree stands for: the input, padded with
    empty strings up to the number of leaves. *)
Definition padded (elements : list string) (t : MerkleTree) : list string :=
  elements ++ replicate (length (leaves t) - length elements) ""%string.

(** The states a program reaches: a tree built by [NewMerkleTree], then any
    number of [UpdateElement] calls with [uint64] indices, whatever their
    outcome.  The first index records the elements the leaves stand for. *)
Inductive reachable : list string → Heap → MerkleTree → Prop :=
  | reach_new elements H t :
      NewMerkleTree sha256hex elements [] = (Ok t, H) →
      reachable (padded elements t) H t
  | reach_update els H t idx element H' :
      reachable els H t → is_uint64 idx →
      UpdateElement sha256hex t idx element H = (Ok tt, H') →
      reachable (<[Z.to_nat idx := element]> els) H' t
  | reach_update_failed els H t idx element H' res :
      reachable els H t → is_uint64 idx →
      UpdateElement sha256hex t idx element H = (res, H') →
      res ≠ Ok tt →
      reachable els H' t.

(** A collision of the digest function. *)
Definition collision : Prop :=
  ∃ a b : string, a ≠ b ∧ sha256hex a = sha256hex b.

(** The hash a proof path yields from [cur]: the fold of [VerifyProof]. *)
Fixpoint fold_path (cur : string) (sibs : list string) (dirs : list bool)
    : string :=
  match sibs, dirs with
  | s :: sibs', true :: dirs' => fold_path (hashNode sha256hex s cur) sibs' dirs'
  | s :: sibs', false :: dirs' => fold_path (hashNode sha256hex cur s) sibs' dirs'
  | _, _ => cur
  end.

End Invariants.

(** ** Reference functions on lists of hashes

    What the pointer program computes, as functions of the list of leaf
    hashes alone. *)

Section Reference.

Variable sha256hex : string → string.

(** The next level: the node hashes of the adjacent pairs. *)
Fixpoint pairLevel (hs : list string) : list string :=
  match hs with
  | a :: b :: rest => hashNode sha256hex a b :: pairLevel rest
  | _ => []
  end.

(** The root over [2 ^ h] leaf hashes: the one hash of level [h]. *)
Definition referenceRoot (hs : list string) : string :=
  default ""%string (head (Nat.iter (Nat.log2 (length hs)) pairLevel hs)).

(** The position next to [j] in its pair. *)
Definition sibling_index (j : nat) : nat :=
  if Nat.even j then S j else pred j.

(** The sibling hashes and directions from position [j] through [h]
    levels: the direction is [true] when [j] is the right one of its
    pair. *)
Fixpoint referencePath (h : nat) (hs : list string) (j : nat)
    : list string * list bool :=
  match h with
  | O => ([], [])
  | S h' =>
      let (s, d) := referencePath h' (pairLevel hs) (j / 2) in
      (default ""%string (hs !! sibling_index j) :: s, Nat.odd j :: d)
  end.

Definition referenceProof (hs : list string) (j : nat) : MerkleProof :=
  let (s, d) := referencePath (Nat.log2 (length hs)) hs j in
  {| hElement := default ""%string (hs !! j); siblings := s;
     directions := d |}.

End Reference.

(** The hashes stored at the addresses [lo]. *)
Definition hashes (H : Heap) (lo : list nat) : list string :=
  (λ a, from_option hash ""%string (H !! a)) <$> lo.

(** ** A digest for running the definitions on concrete inputs *)

Definition toy_digest (s : string) : string := ("<" +:+ s +:+ ">")%string.

Definition demo_elements : list string := ["some"; "test"; "elements"]%string.

(** The tree [NewMerkleTree] builds from [demo_elements], and its heap. *)
Definition demo_tree : MerkleTree :=
  {| root := Some 6%nat;
     leaves := [Some 0%nat; Some 1%nat; Some 2%nat; Some 3%nat] |}.

Definition demo_heap : Heap :=
  Eval vm_compute in (NewMerkleTree toy_digest demo_elements []).2.

(** The elements the leaves of [demo_tree] stand for. *)
Definition demo_padded : list string :=
  Eval vm_compute in padded demo_elements demo_tree.

(** The heap after [UpdateElement(1, "delta")] on [demo_tree]. *)
Definition demo_heap_updated : Heap :=
  Eval vm_compute in
    (UpdateElement toy_digest demo_tree 1 "delta"%string demo_heap).2.

(** Two aggregated proofs for the path of leaf 1 that differ in [end]. *)
Definition demo_agg (e : Z) : AggregatedMerkleProof :=
  {| start := 1; end_ := e;
     aggSiblings := ["<some>"; "<<elements><>>"]%string;
     aggDirections := [true; false] |}.

(** The inputs of the repository's tests. *)
Definition seven_elements : list string :=
  ["some"; "test"; "elements"; "for"; "testing"; "aggregated";
   "proofs"]%string.

(** [NewMerkleTree], [GetAggregatedProof], then [VerifyAggregatedProof]
    against [getRoot], as the aggregated-proof tests run them. *)
Definition aggregated_round_trip (digest : string → string)
    (elements : list string) (startIndex endIndex : Z) : M bool :=
  let* mt := NewMerkleTree digest elements in
  let* proof := GetAggregatedProof mt startIndex endIndex in
  let* rootHash := getRoot mt in
  VerifyAggregatedProof digest rootHash proof mt.

(** [NewMerkleTree], [GetProof], then [VerifyProof] against [getRoot] and
    the comparison of [hElement] with the element's leaf hash, as
    [TestProof] runs them. *)
Definition proof_round_trip (digest : string → string)
    (elements : list string) (idx : Z) (elem : string)
    : M (outcome bool * bool) :=
  let* mt := NewMerkleTree digest elements in
  let* proof := GetProof mt idx in
  let* rootHash := getRoot mt in
  ret (VerifyProof digest rootHash proof,
       String.eqb (hashLeaf digest elem) (hElement proof)).

(** A proof with a sibling but no direction. *)
Definition short_proof : MerkleProof :=
  {| hElement := "h"%string; siblings := ["s"%string]; directions := [] |}.

Definition short_agg : AggregatedMerkleProof :=
  {| start := 0; end_ := 1; aggSiblings := ["s"%string];
     aggDirections := [] |}.

(** * Verification *)

Local Ltac Zify.zify_post_hook ::= Z.to_euclidean_division_equations.

(** ** The heap monad *)

Lemma bind_ret {A B} (a : A) (k : A → M B) H : bind (ret a) k H = k a H.
Proof. reflexivity. Qed.

Lemma bind_ok {A B} (m : M A) (k : A → M B) H a H' :
  m H = (Ok a, H') → bind m k H = k a H'.
Proof. unfold bind. intros ->. reflexivity. Qed.

Lemma bind_inv_ok {A B} (m : M A) (k : A → M B) H b H2 :
  bind m k H = (Ok b, H2) → ∃ a H1, m H = (Ok a, H1) ∧ k a H1 = (Ok b, H2).
Proof.
  unfold bind. destruct (m H) as [[a | e | p |] H1]; try discriminate.
  intros Hk. exists a, H1. split; [reflexivity | exact Hk].
Qed.

Lemma load_some H a n : H !! a = Some n → load (Some a) H = (Ok n, H).
Proof. unfold load. intros ->. reflexivity. Qed.

Lemma load_inv_ok p H n H' :
  load p H = (Ok n, H') → ∃ a, p = Some a ∧ H !! a = Some n ∧ H' = H.
Proof.
  unfold load. destruct p as [a |]; [| discriminate].
  destruct (H !! a) as [m |] eqn:E; [| discriminate].
  intros [= <- <-]. exists a. auto.
Qed.

Lemma store_some H a n :
  (a < length H)%nat → store (Some a) n H = (Ok tt, <[a:=n]> H).
Proof. unfold store. intros Hlt. rewrite decide_True by exact Hlt. reflexivity. Qed.

Lemma set_hash_some H a n h :
  H !! a = Some n →
  set_hash (Some a) h H =
    (Ok tt, <[a:={| hash := h; left := left n; right := right n;
                    parent := parent n |}]> H).
Proof.
  intros Ha. unfold set_hash. rewrite (bind_ok _ _ _ _ _ (load_some _ _ _ Ha)).
  apply store_some. eapply lookup_lt_Some, Ha.
Qed.

Lemma set_parent_some H a n q :
  H !! a = Some n →
  set_parent (Some a) q H =
    (Ok tt, <[a:={| hash := hash n; left := left n; right := right n;
                    parent := q |}]> H).
Proof.
  intros Ha. unfold set_parent. rewrite (bind_ok _ _ _ _ _ (load_some _ _ _ Ha)).
  apply store_some. eapply lookup_lt_Some, Ha.
Qed.

Lemma index_some {A} (s : list A) (i : nat) x H :
  s !! i = Some x → index s (Z.of_nat i) H = (Ok x, H).
Proof.
  intros Hi. unfold index, len. pose proof (lookup_lt_Some _ _ _ Hi) as Hlt.
  replace (0 <=? Z.of_nat i) with true by (symmetry; apply Z.leb_le; lia).
  replace (Z.of_nat i <? Z.of_nat (length s)) with true
    by (symmetry; apply Z.ltb_lt; lia).
  cbn [andb]. rewrite Nat2Z.id, Hi. reflexivity.
Qed.

Lemma index_out_of_range {A} (s : list A) (i : Z) H :
  len s ≤ i → index s i H = (Panic IndexOutOfRange, H).
Proof.
  intros Hge. unfold index.
  replace (i <? len s) with false by (symmetry; apply Z.ltb_ge; exact Hge).
  rewrite andb_false_r. reflexivity.
Qed.

Lemma ptr_eqb_refl p : ptr_eqb p p = true.
Proof. unfold ptr_eqb. apply bool_decide_eq_true. reflexivity. Qed.

Lemma ptr_eqb_ne p q : p ≠ q → ptr_eqb p q = false.
Proof. unfold ptr_eqb. apply bool_decide_eq_false. Qed.

(** ** Machine integers *)

Lemma int_wrap_small z : - 2 ^ 63 ≤ z < 2 ^ 63 → int_wrap z = z.
Proof. unfold int_wrap. intros Hz. lia. Qed.

Lemma int_wrap_range z : - 2 ^ 63 ≤ int_wrap z < 2 ^ 63.
Proof. unfold int_wrap. lia. Qed.

Lemma int_of_uint64_high x :
  2 ^ 63 ≤ x < 2 ^ 64 → int_of_uint64 x = x - 2 ^ 64.
Proof. unfold int_of_uint64, int_wrap. intros Hx. lia. Qed.

Lemma len_nonneg {A} (s : list A) : 0 ≤ len s.
Proof. unfold len. lia. Qed.

(** ** Replaying a proof path *)

Section Verification.

Variable sha : string → string.

Lemma replay_fold sibs : ∀ cur pre dirs,
  (length sibs ≤ length dirs)%nat →
  replay sha cur (length pre) sibs (pre ++ dirs)
  = Ok (fold_path sha cur sibs dirs).
Proof.
  induction sibs as [| s sibs IH]; intros cur pre dirs Hlen; [reflexivity |].
  destruct dirs as [| d dirs]; [simpl in Hlen; lia |].
  cbn [replay fold_path].
  rewrite lookup_app_r by lia. rewrite Nat.sub_diag. cbn [lookup list_lookup].
  specialize (IH (if d then hashNode sha s cur else hashNode sha cur s)
                 (pre ++ [d]) dirs).
  rewrite length_app, <- app_assoc in IH. cbn [length app] in IH.
  rewrite Nat.add_1_r in IH.
  destruct d; apply IH; simpl in Hlen; lia.
Qed.

Lemma replay_total sibs : ∀ cur i dirs,
  (i + length sibs ≤ length dirs)%nat → ∃ h, replay sha cur i sibs dirs = Ok h.
Proof.
  induction sibs as [| s sibs IH]; intros cur i dirs Hlen; [eexists; reflexivity |].
  cbn [replay length] in *.
  destruct (dirs !! i) as [d |] eqn:Hd.
  - destruct d; apply IH; lia.
  - apply lookup_ge_None in Hd. lia.
Qed.

Lemma replay_short sibs : ∀ cur i dirs,
  (length dirs < i + length sibs)%nat → (i ≤ length dirs)%nat →
  replay sha cur i sibs dirs = Panic IndexOutOfRange.
Proof.
  induction sibs as [| s sibs IH]; intros cur i dirs Hlen Hi;
    cbn [replay length] in *; [lia |].
  destruct (dirs !! i) as [d |] eqn:Hd; [| reflexivity].
  apply lookup_lt_Some in Hd. destruct d; apply IH; lia.
Qed.

Lemma fold_path_snoc sibs : ∀ cur dirs s d,
  length sibs = length dirs →
  fold_path sha cur (sibs ++ [s]) (dirs ++ [d])
  = (if d then hashNode sha s (fold_path sha cur sibs dirs)
     else hashNode sha (fold_path sha cur sibs dirs) s).
Proof.
  induction sibs as [| s0 sibs IH]; intros cur [| d0 dirs] s d Hlen;
    try discriminate.
  - destruct d; reflexivity.
  - cbn [app fold_path]. destruct d0; apply IH; simpl in Hlen; lia.
Qed.

(** ** Levels and towers *)

Lemma linked_lookup H lo hi j a :
  linked H lo hi → lo !! j = Some a →
  ∃ p l r np nl nr,
    hi !! (j / 2)%nat = Some p ∧
    lo !! (2 * (j / 2))%nat = Some l ∧ lo !! (2 * (j / 2) + 1)%nat = Some r ∧
    H !! p = Some np ∧ left np = Some l ∧ right np = Some r ∧
    H !! l = Some nl ∧ parent nl = Some p ∧
    H !! r = Some nr ∧ parent nr = Some p ∧
    (a = l ∧ j = (2 * (j / 2))%nat ∨ a = r ∧ j = (2 * (j / 2) + 1)%nat).
Proof.
  intros [Hlen Hl] Hj. pose proof (lookup_lt_Some _ _ _ Hj) as Hlt.
  destruct (lookup_lt_is_Some_2 hi (j / 2)%nat) as [p Hp]; [lia |].
  destruct (Hl _ _ Hp) as (l & r & np & nl & nr & H1 & H2 & H3 & H4 & H5 & H6 & H7 & H8 & H9).
  exists p, l, r, np, nl, nr. repeat split; try assumption.
  destruct (decide (j = 2 * (j / 2))%nat) as [E | E].
  - left. split; [| exact E]. rewrite <- E in H1. congruence.
  - right. assert (j = 2 * (j / 2) + 1)%nat as E' by lia.
    split; [| exact E']. rewrite <- E' in H2. congruence.
Qed.

Lemma tower_root_in H r above : ∀ lo, tower H r lo above → r ∈ concat (lo :: above).
Proof.
  induction above as [| hi above IH]; intros lo Ht; cbn [tower] in Ht.
  - destruct Ht as [-> _]. cbn. apply list_elem_of_here.
  - destruct Ht as [_ Ht]. apply IH in Ht. cbn [concat] in *.
    apply elem_of_app. right. exact Ht.
Qed.

Lemma tower_root_node H r above : ∀ lo,
  tower H r lo above → ∃ n, H !! r = Some n ∧ parent n = None.
Proof.
  induction above as [| hi above IH]; intros lo Ht; cbn [tower] in Ht.
  - apply Ht.
  - destruct Ht as [_ Ht]. eapply IH, Ht.
Qed.

Lemma tower_length H r above : ∀ lo,
  tower H r lo above → (length above < length lo)%nat.
Proof.
  induction above as [| hi above IH]; intros lo Ht; cbn [tower] in Ht.
  - destruct Ht as [-> _]. cbn. lia.
  - destruct Ht as [[Hlen _] Ht]. apply IH in Ht. cbn [length]. lia.
Qed.

Lemma tower_size H r above : ∀ lo,
  tower H r lo above → (length above < length (concat (lo :: above)))%nat.
Proof.
  intros lo Ht. apply tower_length in Ht. cbn [concat]. rewrite length_app. lia.
Qed.

Lemma same_shape_refl H : same_shape H H.
Proof. intros a. destruct (H !! a); auto. Qed.

Lemma same_shape_trans H1 H2 H3 :
  same_shape H1 H2 → same_shape H2 H3 → same_shape H1 H3.
Proof.
  intros S12 S23 a. specialize (S12 a). specialize (S23 a).
  destruct (H1 !! a), (H2 !! a), (H3 !! a); try tauto.
  destruct S12 as (? & ? & ?), S23 as (? & ? & ?). repeat split; congruence.
Qed.

Lemma same_shape_length H H' : same_shape H H' → length H = length H'.
Proof.
  intros Hs. apply Nat.le_antisymm; apply Nat.nlt_ge; intros Hlt.
  - specialize (Hs (length H')).
    rewrite (lookup_ge_None_2 H') in Hs by lia.
    destruct (lookup_lt_is_Some_2 H (length H')) as [n Hn]; [lia |].
    rewrite Hn in Hs. exact Hs.
  - specialize (Hs (length H)).
    rewrite (lookup_ge_None_2 H) in Hs by lia.
    destruct (lookup_lt_is_Some_2 H' (length H)) as [n Hn]; [lia |].
    rewrite Hn in Hs. exact Hs.
Qed.

Lemma same_shape_lookup H H' a n :
  same_shape H H' → H !! a = Some n →
  ∃ n', H' !! a = Some n' ∧ left n' = left n ∧ right n' = right n ∧
        parent n' = parent n.
Proof.
  intros Hs Ha. specialize (Hs a). rewrite Ha in Hs.
  destruct (H' !! a) as [n' |]; [| contradiction]. exists n'. tauto.
Qed.

Lemma same_shape_set_hash H a n h :
  H !! a = Some n →
  same_shape H (<[a:={| hash := h; left := left n; right := right n;
                        parent := parent n |}]> H).
Proof.
  intros Ha b. destruct (decide (a = b)) as [<- | Hne].
  - rewrite Ha, list_lookup_insert_eq by (eapply lookup_lt_Some, Ha). cbn. auto.
  - rewrite list_lookup_insert_ne by exact Hne. destruct (H !! b); auto.
Qed.

Lemma linked_same_shape H H' lo hi :
  same_shape H H' → linked H lo hi → linked H' lo hi.
Proof.
  intros Hs [Hlen Hl]. split; [exact Hlen |]. intros i p Hp.
  destruct (Hl _ _ Hp) as (l & r & np & nl & nr & H1 & H2 & H3 & H4 & H5 & H6 & H7 & H8 & H9).
  destruct (same_shape_lookup _ _ _ _ Hs H3) as (np' & ? & ? & ? & ?).
  destruct (same_shape_lookup _ _ _ _ Hs H6) as (nl' & ? & ? & ? & ?).
  destruct (same_shape_lookup _ _ _ _ Hs H8) as (nr' & ? & ? & ? & ?).
  exists l, r, np', nl', nr'. repeat split; congruence.
Qed.

Lemma tower_same_shape H H' r above : ∀ lo,
  same_shape H H' → tower H r lo above → tower H' r lo above.
Proof.
  induction above as [| hi above IH]; intros lo Hs Ht; cbn [tower] in *.
  - destruct Ht as [-> (n & Hn & Hp)]. split; [reflexivity |].
    destruct (same_shape_lookup _ _ _ _ Hs Hn) as (n' & ? & ? & ? & ?).
    exists n'. split; congruence.
  - destruct Ht as [Hl Ht]. split; [eapply linked_same_shape; eauto | eauto].
Qed.

(** ** The leaf-to-root walk *)

Lemma hashed_but_None H lo hi i p l r np nl nr :
  hashed_but sha None H lo hi →
  hi !! i = Some p → lo !! (2 * i)%nat = Some l →
  lo !! (2 * i + 1)%nat = Some r →
  H !! p = Some np → H !! l = Some nl → H !! r = Some nr →
  hash np = hashNode sha (hash nl) (hash nr).
Proof. intros Hh. apply Hh. discriminate. Qed.

(** From position [j] of level [lo] the walk reaches the root in one step
    per level above, leaves the heap as it is, and collects a path whose
    replay from the node's hash gives the root's hash. *)
Lemma collectPath_tower above : ∀ H r lo j a sibs dirs fuel,
  tower H r lo above → NoDup (concat (lo :: above)) →
  lo !! j = Some a → (length above ≤ fuel)%nat →
  ∃ S D,
    collectPath fuel (Some r) (Some a) sibs dirs H
    = (Ok (sibs ++ S, dirs ++ D), H) ∧
    length S = length above ∧ length D = length above ∧
    (hashes_above sha H lo above →
     ∀ n nr, H !! a = Some n → H !! r = Some nr →
             fold_path sha (hash n) S D = hash nr).
Proof.
  induction above as [| hi above IH]; intros H r lo j a sibs dirs fuel Ht Hnd Hj Hfuel.
  - cbn [tower] in Ht. destruct Ht as [-> _].
    apply list_lookup_singleton_Some in Hj as [_ <-].
    exists [], []. rewrite !app_nil_r. split.
    { destruct fuel; cbn [collectPath]; rewrite ptr_eqb_refl; reflexivity. }
    repeat split. intros _ n nr Hn Hr. cbn. congruence.
  - cbn [tower] in Ht. destruct Ht as [Hl Ht].
    destruct fuel as [| fuel]; [cbn in Hfuel; lia |].
    destruct (linked_lookup _ _ _ _ _ Hl Hj)
      as (p & l & r' & np & nl & nr' & Hp & Hlo1 & Hlo2 & Hnp & Hleft & Hright
          & Hnl & Hpl & Hnr & Hpr & Hcase).
    cbn [concat] in Hnd. apply NoDup_app in Hnd as (Hndlo & Hdisj & Hndup).
    assert (a ≠ r) as Hne.
    { intros ->. eapply Hdisj; [eapply list_elem_of_lookup_2, Hj |].
      eapply tower_root_in, Ht. }
    assert (l ≠ r') as Hlr.
    { intros ->. pose proof (NoDup_lookup _ _ _ _ Hndlo Hlo1 Hlo2). lia. }
    destruct (IH H r hi (j / 2)%nat p
                (sibs ++ [hash (if decide (a = l) then nr' else nl)])
                (dirs ++ [bool_decide (a ≠ l)]) fuel Ht Hndup Hp)
      as (S & D & Hwalk & HS & HD & Hfold); [cbn in Hfuel; lia |].
    exists (hash (if decide (a = l) then nr' else nl) :: S),
           (bool_decide (a ≠ l) :: D).
    split; [| split; [cbn; lia | split; [cbn; lia |]]].
    + cbn [collectPath]. rewrite ptr_eqb_ne by congruence.
      destruct Hcase as [[-> Hjeq] | [-> Hjeq]].
      * rewrite (bind_ok _ _ _ _ _ (load_some _ _ _ Hnl)). cbv zeta.
        rewrite Hpl, (bind_ok _ _ _ _ _ (load_some _ _ _ Hnp)).
        rewrite Hleft, ptr_eqb_refl, Hright.
        rewrite (bind_ok _ _ _ _ _ (load_some _ _ _ Hnr)).
        rewrite decide_True in Hwalk by reflexivity.
        rewrite bool_decide_false in Hwalk by tauto.
        rewrite Hwalk, <- !app_assoc.
        rewrite decide_True by reflexivity.
        rewrite bool_decide_false by tauto. reflexivity.
      * rewrite (bind_ok _ _ _ _ _ (load_some _ _ _ Hnr)). cbv zeta.
        rewrite Hpr, (bind_ok _ _ _ _ _ (load_some _ _ _ Hnp)).
        rewrite Hleft, ptr_eqb_ne by congruence.
        rewrite (bind_ok _ _ _ _ _ (load_some _ _ _ Hnl)).
        rewrite decide_False in Hwalk by congruence.
        rewrite bool_decide_true in Hwalk by congruence.
        rewrite Hwalk, <- !app_assoc.
        rewrite decide_False by congruence.
        rewrite bool_decide_true by congruence. reflexivity.
    + intros [Hh Hha] n nr Hn Hr. cbn [hashes_above] in *.
      pose proof (hashed_but_None _ _ _ _ _ _ _ _ _ _ Hh Hp Hlo1 Hlo2 Hnp Hnl Hnr)
        as Hhash.
      specialize (Hfold Hha np nr Hnp Hr). rewrite <- Hfold.
      destruct Hcase as [[-> Hjeq] | [-> Hjeq]].
      * rewrite decide_True by reflexivity.
        rewrite bool_decide_false by tauto.
        cbn [fold_path]. rewrite Hhash. congruence.
      * rewrite decide_False by congruence.
        rewrite bool_decide_true by congruence.
        cbn [fold_path]. rewrite Hhash. congruence.
Qed.

Lemma tower_valid H r above : ∀ lo a,
  tower H r lo above → a ∈ concat (lo :: above) → is_Some (H !! a).
Proof.
  induction above as [| hi above IH]; intros lo a Ht Ha; cbn [tower] in Ht.
  - destruct Ht as [-> (n & Hn & _)]. cbn in Ha.
    apply list_elem_of_singleton in Ha as ->. eauto.
  - destruct Ht as [Hl Ht]. cbn [concat] in Ha.
    apply elem_of_app in Ha as [Ha | Ha]; [| eapply IH; eauto].
    apply list_elem_of_lookup in Ha as [j Hj].
    destruct (linked_lookup _ _ _ _ _ Hl Hj)
      as (p & l & r' & np & nl & nr' & _ & _ & _ & _ & _ & _ & Hnl & _ & Hnr
          & _ & [[-> _] | [-> _]]); eauto.
Qed.

Lemma tower_fuel H r lo above :
  tower H r lo above → NoDup (concat (lo :: above)) →
  (length above ≤ length H)%nat.
Proof.
  intros Ht Hnd. pose proof (tower_size _ _ _ _ Ht) as Hsz.
  assert (concat (lo :: above) ⊆+ seq 0 (length H)) as Hsub.
  { apply NoDup_submseteq; [exact Hnd |]. intros a Ha.
    destruct (tower_valid _ _ _ _ _ Ht Ha) as [n Hn].
    apply elem_of_seq. apply lookup_lt_Some in Hn. lia. }
  apply submseteq_length in Hsub. rewrite length_seq in Hsub. lia.
Qed.

Lemma int_of_uint64_le x : 0 ≤ x → int_of_uint64 x ≤ x.
Proof. unfold int_of_uint64, int_wrap. lia. Qed.

Lemma index_in_range {A} (s : list A) (i : Z) H :
  0 ≤ i < len s → ∃ x, s !! Z.to_nat i = Some x ∧ index s i H = (Ok x, H).
Proof.
  intros Hi. unfold len in Hi.
  destruct (lookup_lt_is_Some_2 s (Z.to_nat i)) as [x Hx]; [lia |].
  exists x. split; [exact Hx |].
  rewrite <- (index_some _ _ _ H Hx). f_equal. lia.
Qed.

Section WithInvariant.

Context {els : list string} {H : Heap} {t : MerkleTree} {lo : list nat}
        {above : list (list nat)} {r : nat}.
Hypothesis Hinv : tree_inv sha els H t lo above r.

Lemma inv_leaf (idx : Z) :
  0 ≤ idx < len (leaves t) →
  ∃ a n, leaves t !! Z.to_nat idx = Some (Some a) ∧
         lo !! Z.to_nat idx = Some a ∧ H !! a = Some n.
Proof.
  intros Hi. unfold len in Hi.
  destruct (lookup_lt_is_Some_2 (leaves t) (Z.to_nat idx)) as [p Hp]; [lia |].
  pose proof Hp as Hp'. rewrite (inv_leaves _ _ _ _ _ _ _ Hinv) in Hp'.
  rewrite list_lookup_fmap in Hp'.
  destruct (take (length (leaves t)) lo !! Z.to_nat idx) as [a |] eqn:Ha;
    [| discriminate].
  cbn in Hp'. injection Hp' as <-.
  apply lookup_take_Some in Ha as [Ha _].
  destruct (tower_valid H r above lo a) as [n Hn].
  { apply (inv_tower _ _ _ _ _ _ _ Hinv). }
  { cbn [concat]. apply elem_of_app. left. eapply list_elem_of_lookup_2, Ha. }
  exists a, n. auto.
Qed.

Lemma inv_root_node : ∃ nr, H !! r = Some nr ∧ parent nr = None.
Proof. eapply tower_root_node, (inv_tower _ _ _ _ _ _ _ Hinv). Qed.

Lemma getRoot_inv nr : H !! r = Some nr → getRoot t H = (Ok (hash nr), H).
Proof.
  intros Hr. unfold getRoot. rewrite (inv_root _ _ _ _ _ _ _ Hinv).
  rewrite (bind_ok _ _ _ _ _ (load_some _ _ _ Hr)). reflexivity.
Qed.

(** [GetProof] at a valid index: the proof starts at the leaf's hash and
    its path folds to the root's hash. *)
Lemma GetProof_inv (idx : Z) a n nr :
  0 ≤ idx < len (leaves t) →
  lo !! Z.to_nat idx = Some a → H !! a = Some n → H !! r = Some nr →
  ∃ S D,
    GetProof t idx H
    = (Ok {| hElement := hash n; siblings := S; directions := D |}, H) ∧
    length S = length D ∧
    fold_path sha (hash n) S D = hash nr.
Proof.
  intros Hi Ha Hn Hr.
  destruct (inv_leaf idx Hi) as (a' & n' & Hleaf & Ha' & Hn').
  assert (a' = a) as -> by congruence. clear n' Hn' Ha'.
  destruct (collectPath_tower above H r lo (Z.to_nat idx) a [] [] (length H))
    as (S & D & Hwalk & HS & HD & Hfold).
  { apply (inv_tower _ _ _ _ _ _ _ Hinv). }
  { apply (inv_nodup _ _ _ _ _ _ _ Hinv). }
  { exact Ha. }
  { eapply tower_fuel; [apply (inv_tower _ _ _ _ _ _ _ Hinv)
                       | apply (inv_nodup _ _ _ _ _ _ _ Hinv)]. }
  exists S, D. split; [| split; [congruence |]].
  - unfold GetProof.
    replace (int_of_uint64 idx >=? len (leaves t)) with false.
    2:{ symmetry. rewrite Z.geb_leb. apply Z.leb_gt.
        pose proof (int_of_uint64_le idx). lia. }
    destruct (index_in_range (leaves t) idx H Hi) as (p & Hp & Hidx).
    assert (p = Some a) as -> by congruence.
    rewrite (bind_ok _ _ _ _ _ Hidx).
    unfold walk_fuel at 1. unfold bind at 1.
    rewrite (inv_root _ _ _ _ _ _ _ Hinv).
    rewrite (bind_ok _ _ _ _ _ Hwalk). cbn [app].
    rewrite (bind_ok _ _ _ _ _ Hidx).
    rewrite (bind_ok _ _ _ _ _ (load_some _ _ _ Hn)). reflexivity.
  - apply Hfold; [apply (inv_hashes _ _ _ _ _ _ _ Hinv) | exact Hn | exact Hr].
Qed.

(** The proof [GetProof] returns is accepted against the root hash. *)
Lemma GetProof_verifies (idx : Z) :
  0 ≤ idx < len (leaves t) →
  ∃ proof rootHash,
    GetProof t idx H = (Ok proof, H) ∧
    getRoot t H = (Ok rootHash, H) ∧
    VerifyProof sha rootHash proof = Ok true ∧
    ∃ a n, lo !! Z.to_nat idx = Some a ∧ H !! a = Some n ∧
           hElement proof = hash n.
Proof.
  intros Hi. destruct (inv_leaf idx Hi) as (a & n & Hleaf & Ha & Hn).
  destruct inv_root_node as (nr & Hr & _).
  destruct (GetProof_inv idx a n nr Hi Ha Hn Hr) as (S & D & Hget & Hlen & Hfold).
  eexists _, (hash nr). split; [exact Hget |].
  split; [apply getRoot_inv, Hr |]. split.
  - unfold VerifyProof. cbn [hElement siblings directions].
    pose proof (replay_fold S (hash n) [] D) as Hrep. cbn [length app] in Hrep.
    rewrite Hrep by lia. rewrite Hfold, String.eqb_refl. reflexivity.
  - exists a, n. auto.
Qed.

End WithInvariant.

(** ** Rewriting the hashes on a leaf-to-root path *)

Lemma hashed_but_frame skip H H' lo hi :
  (∀ b, b ∈ lo ∨ b ∈ hi → H' !! b = H !! b) →
  hashed_but sha skip H lo hi → hashed_but sha skip H' lo hi.
Proof.
  intros Hfr Hh i p l r np nl nr Hs Hp Hl Hr Hnp Hnl Hnr.
  rewrite Hfr in Hnp by (right; eapply list_elem_of_lookup_2, Hp).
  rewrite Hfr in Hnl by (left; eapply list_elem_of_lookup_2, Hl).
  rewrite Hfr in Hnr by (left; eapply list_elem_of_lookup_2, Hr).
  eapply Hh; eauto.
Qed.

Lemma hashes_above_frame H H' above : ∀ lo,
  (∀ b, b ∈ concat (lo :: above) → H' !! b = H !! b) →
  hashes_above sha H lo above → hashes_above sha H' lo above.
Proof.
  induction above as [| hi above IH]; intros lo Hfr Hh; cbn [hashes_above] in *;
    [exact I |].
  destruct Hh as [Hh Hha]. split.
  - eapply hashed_but_frame; [| exact Hh]. intros b Hb. apply Hfr.
    cbn [concat]. rewrite !elem_of_app. tauto.
  - apply IH; [| exact Hha]. intros b Hb. apply Hfr.
    cbn [concat] in *. rewrite elem_of_app. tauto.
Qed.

(** After the hash of the parent at position [i] of [hi] is recomputed from
    its children, the level is hashed throughout. *)
Lemma hashed_but_fix H lo hi i p l r np nl nr :
  NoDup (lo ++ hi) →
  hashed_but sha (Some i) H lo hi →
  hi !! i = Some p → lo !! (2 * i)%nat = Some l →
  lo !! (2 * i + 1)%nat = Some r →
  H !! p = Some np → H !! l = Some nl → H !! r = Some nr →
  hashed_but sha None
    (<[p:={| hash := hashNode sha (hash nl) (hash nr); left := left np;
             right := right np; parent := parent np |}]> H) lo hi.
Proof.
  intros Hnd Hh Hp Hl Hr Hnp Hnl Hnr.
  apply NoDup_app in Hnd as (Hndlo & Hdisj & Hndhi).
  assert (∀ b, b ∈ lo → b ≠ p) as Hlo_p.
  { intros b Hb ->. eapply Hdisj; [exact Hb | eapply list_elem_of_lookup_2, Hp]. }
  intros i' p' l' r' np' nl' nr' _ Hp' Hl' Hr' Hnp' Hnl' Hnr'.
  rewrite list_lookup_insert_ne in Hnl'
    by (intros E; apply (Hlo_p l'); [eapply list_elem_of_lookup_2, Hl' | auto]).
  rewrite list_lookup_insert_ne in Hnr'
    by (intros E; apply (Hlo_p r'); [eapply list_elem_of_lookup_2, Hr' | auto]).
  destruct (decide (i' = i)) as [-> | Hne].
  - assert (p' = p) as -> by congruence.
    assert (l' = l) as -> by congruence.
    assert (r' = r) as -> by congruence.
    rewrite list_lookup_insert_eq in Hnp' by (eapply lookup_lt_Some, Hnp).
    injection Hnp' as <-. cbn [hash]. congruence.
  - rewrite list_lookup_insert_ne in Hnp'.
    2:{ intros E. apply Hne. rewrite <- E in Hp'.
        exact (NoDup_lookup _ _ _ _ Hndhi Hp' Hp). }
    eapply Hh; eauto. congruence.
Qed.

(** Changing the hash at position [i] of [lo] spoils at most the parent at
    position [i / 2] of [hi]. *)
Lemma hashed_but_spoil H lo hi i p n' :
  NoDup (lo ++ hi) →
  hashed_but sha None H lo hi → lo !! i = Some p →
  hashed_but sha (Some (i / 2)%nat) (<[p:=n']> H) lo hi.
Proof.
  intros Hnd Hh Hp.
  apply NoDup_app in Hnd as (Hndlo & Hdisj & Hndhi).
  intros i' p' l' r' np' nl' nr' Hs Hp' Hl' Hr' Hnp' Hnl' Hnr'.
  assert (i' ≠ (i / 2)%nat) as Hne by congruence.
  rewrite list_lookup_insert_ne in Hnp'.
  2:{ intros E. apply (Hdisj p); [eapply list_elem_of_lookup_2, Hp |].
      rewrite E. eapply list_elem_of_lookup_2, Hp'. }
  rewrite list_lookup_insert_ne in Hnl'.
  2:{ intros E. rewrite <- E in Hl'.
      pose proof (NoDup_lookup _ _ _ _ Hndlo Hp Hl'). lia. }
  rewrite list_lookup_insert_ne in Hnr'.
  2:{ intros E. rewrite <- E in Hr'.
      pose proof (NoDup_lookup _ _ _ _ Hndlo Hp Hr'). lia. }
  eapply Hh; eauto.
Qed.

Lemma hashes_above_but_spoil H lo above i p n' :
  NoDup (concat (lo :: above)) →
  hashes_above sha H lo above → lo !! i = Some p →
  hashes_above_but sha (Some (i / 2)%nat) (<[p:=n']> H) lo above.
Proof.
  intros Hnd Hh Hp. destruct above as [| hi above]; [exact I |].
  cbn [hashes_above hashes_above_but concat] in *. destruct Hh as [Hh Hha].
  rewrite app_assoc in Hnd. apply NoDup_app in Hnd as (Hnd1 & Hdisj & Hnd2).
  split; [apply hashed_but_spoil; assumption |].
  destruct above as [| hi2 above]; [exact I |].
  cbn [hashes_above] in *. destruct Hha as [Hh2 Hha]. split.
  - eapply hashed_but_frame; [| exact Hh2]. intros b Hb.
    apply list_lookup_insert_ne. intros E. subst b.
    apply list_elem_of_lookup_2 in Hp.
    destruct Hb as [Hb | Hb].
    + apply NoDup_app in Hnd1 as (_ & Hd & _). exact (Hd p Hp Hb).
    + apply (Hdisj p); [apply elem_of_app; left; exact Hp |].
      cbn [concat]. apply elem_of_app. left. exact Hb.
  - eapply hashes_above_frame; [| exact Hha]. intros b Hb.
    apply list_lookup_insert_ne. intros E. subst b.
    apply list_elem_of_lookup_2 in Hp.
    apply (Hdisj p); [apply elem_of_app; left; exact Hp |].
    cbn [concat] in *. exact Hb.
Qed.

(** From position [j] of level [lo], where at most the parent's hash is
    stale, [rehashPath] reaches the root, changes hashes only, touches no
    node of [lo], and leaves every level hashed. *)
Lemma rehashPath_tower above : ∀ H r lo j a fuel,
  tower H r lo above → NoDup (concat (lo :: above)) →
  lo !! j = Some a → (length above ≤ fuel)%nat →
  hashes_above_but sha (Some (j / 2)%nat) H lo above →
  ∃ H',
    rehashPath sha fuel (Some r) (Some a) H = (Ok tt, H') ∧
    same_shape H H' ∧
    hashes_above sha H' lo above ∧
    (∀ b, b ∉ concat above → H' !! b = H !! b).
Proof.
  induction above as [| hi above IH]; intros H r lo j a fuel Ht Hnd Hj Hfuel Hh.
  - cbn [tower] in Ht. destruct Ht as [-> _].
    apply list_lookup_singleton_Some in Hj as [_ <-].
    exists H. split.
    { destruct fuel; cbn [rehashPath]; rewrite ptr_eqb_refl; reflexivity. }
    split; [apply same_shape_refl |]. split; [exact I | reflexivity].
  - cbn [tower] in Ht. destruct Ht as [Hl Ht].
    destruct fuel as [| fuel]; [cbn in Hfuel; lia |].
    destruct (linked_lookup _ _ _ _ _ Hl Hj)
      as (p & l & r' & np & nl & nr' & Hp & Hlo1 & Hlo2 & Hnp & Hleft & Hright
          & Hnl & Hpl & Hnr & Hpr & Hcase).
    pose proof Hnd as Hnd0.
    cbn [concat] in Hnd. apply NoDup_app in Hnd as (Hndlo & Hdisj & Hndup).
    assert (a ≠ r) as Hne.
    { intros ->. eapply Hdisj; [eapply list_elem_of_lookup_2, Hj |].
      eapply tower_root_in, Ht. }
    assert (l ≠ r') as Hlr.
    { intros ->. pose proof (NoDup_lookup _ _ _ _ Hndlo Hlo1 Hlo2). lia. }
    set (np' := {| hash := hashNode sha (hash nl) (hash nr'); left := left np;
                   right := right np; parent := parent np |}).
    set (H1 := <[p:=np']> H).
    assert (same_shape H H1) as Hs1 by (apply same_shape_set_hash, Hnp).
    cbn [hashes_above_but] in Hh. destruct Hh as [Hh Hha].
    assert (NoDup (lo ++ hi)) as Hndlohi.
    { cbn [concat] in Hnd0. rewrite app_assoc in Hnd0.
      apply NoDup_app in Hnd0. tauto. }
    destruct (IH H1 r hi (j / 2)%nat p fuel) as (H' & Hwalk & Hs' & Hh' & Hfr').
    { eapply tower_same_shape; eauto. }
    { exact Hndup. }
    { exact Hp. }
    { cbn in Hfuel; lia. }
    { apply hashes_above_but_spoil; assumption. }
    assert (rehashPath sha (S fuel) (Some r) (Some a) H = (Ok tt, H')) as Hrun.
    { cbn [rehashPath]. rewrite ptr_eqb_ne by congruence.
      destruct Hcase as [[-> Hjeq] | [-> Hjeq]].
      - rewrite (bind_ok _ _ _ _ _ (load_some _ _ _ Hnl)). cbv zeta.
        rewrite Hpl, (bind_ok _ _ _ _ _ (load_some _ _ _ Hnp)).
        rewrite Hleft, ptr_eqb_refl, Hright.
        erewrite bind_ok; [exact Hwalk |].
        rewrite (bind_ok _ _ _ _ _ (load_some _ _ _ Hnr)).
        apply set_hash_some, Hnp.
      - rewrite (bind_ok _ _ _ _ _ (load_some _ _ _ Hnr)). cbv zeta.
        rewrite Hpr, (bind_ok _ _ _ _ _ (load_some _ _ _ Hnp)).
        rewrite Hleft, ptr_eqb_ne by congruence.
        erewrite bind_ok; [exact Hwalk |].
        rewrite (bind_ok _ _ _ _ _ (load_some _ _ _ Hnl)).
        apply set_hash_some, Hnp. }
    exists H'. split; [exact Hrun |].
    split; [eapply same_shape_trans; eauto |]. split.
    + cbn [hashes_above]. split; [| exact Hh'].
      eapply (hashed_but_frame None H1).
      { intros b Hb. apply Hfr'. intros Hin.
        destruct Hb as [Hb | Hb].
        - eapply Hdisj; [exact Hb |]. cbn [concat]. apply elem_of_app. tauto.
        - cbn [concat] in Hndup. apply NoDup_app in Hndup as (_ & Hd & _).
          eapply Hd; eauto. }
      eapply hashed_but_fix; eauto.
    + intros b Hb. cbn [concat] in Hb. rewrite elem_of_app in Hb.
      rewrite Hfr' by tauto. unfold H1. apply list_lookup_insert_ne.
      intros ->. apply Hb. left. eapply list_elem_of_lookup_2, Hp.
Qed.

Lemma same_shape_sym H H' : same_shape H H' → same_shape H' H.
Proof.
  intros Hs a. specialize (Hs a).
  destruct (H !! a), (H' !! a); try tauto.
  destruct Hs as (? & ? & ?). repeat split; congruence.
Qed.

(** ** UpdateElement *)

Lemma UpdateElement_out_of_range t idx element H :
  len (leaves t) ≤ idx →
  UpdateElement sha t idx element H
  = (if int_of_uint64 idx >=? len (leaves t) then Err IndexOutOfBoundsError
     else Panic IndexOutOfRange, H).
Proof.
  intros Hge. unfold UpdateElement.
  destruct (int_of_uint64 idx >=? len (leaves t)); [reflexivity |].
  unfold bind at 1. rewrite index_out_of_range by exact Hge. reflexivity.
Qed.

Lemma UpdateElement_inv els H t lo above r idx element :
  tree_inv sha els H t lo above r →
  0 ≤ idx < len (leaves t) →
  ∃ H',
    UpdateElement sha t idx element H = (Ok tt, H') ∧
    tree_inv sha (<[Z.to_nat idx := element]> els) H' t lo above r ∧
    same_shape H H' ∧
    (∀ b, b ∉ concat above → lo !! Z.to_nat idx ≠ Some b → H' !! b = H !! b).
Proof.
  intros Hinv Hi.
  destruct (inv_leaf Hinv idx Hi) as (a & n & Hleaf & Ha & Hn).
  destruct Hinv as [Hroot Ht Hnd Hcov Hlv Hch Hh Hlen Hel].
  set (n' := {| hash := hashLeaf sha element; left := left n;
                right := right n; parent := parent n |}).
  set (H0 := <[a:=n']> H).
  assert (same_shape H H0) as Hs0 by (apply same_shape_set_hash, Hn).
  destruct (rehashPath_tower above H0 r lo (Z.to_nat idx) a (length H0))
    as (H' & Hwalk & Hs' & Hh' & Hfr').
  { eapply tower_same_shape; eauto. }
  { exact Hnd. }
  { exact Ha. }
  { eapply tower_fuel; [eapply tower_same_shape; eauto | exact Hnd]. }
  { apply hashes_above_but_spoil; assumption. }
  assert (same_shape H H') as Hs by (eapply same_shape_trans; eauto).
  assert (∀ b, b ∈ lo → b ∉ concat above) as Hlo_above.
  { cbn [concat] in Hnd. apply NoDup_app in Hnd as (_ & Hd & _). exact Hd. }
  exists H'. split; [| split; [| split; [exact Hs |]]].
  - unfold UpdateElement.
    replace (int_of_uint64 idx >=? len (leaves t)) with false.
    2:{ symmetry. rewrite Z.geb_leb. apply Z.leb_gt.
        pose proof (int_of_uint64_le idx). lia. }
    destruct (index_in_range (leaves t) idx H Hi) as (p & Hp & Hidx).
    assert (p = Some a) as -> by congruence.
    rewrite (bind_ok _ _ _ _ _ Hidx).
    rewrite (bind_ok _ _ _ _ _ (set_hash_some _ _ _ _ Hn)).
    fold n'. fold H0.
    destruct (index_in_range (leaves t) idx H0 Hi) as (p & Hp' & Hidx').
    assert (p = Some a) as -> by congruence.
    rewrite (bind_ok _ _ _ _ _ Hidx').
    unfold walk_fuel at 1. unfold bind at 1. rewrite Hroot. exact Hwalk.
  - split; try assumption.
    + eapply tower_same_shape; eauto.
    + intros b Hb. apply Hcov. rewrite (same_shape_length _ _ Hs). exact Hb.
    + intros b nb Hb Hnb.
      destruct (same_shape_lookup _ _ _ _ (same_shape_sym _ _ Hs) Hnb)
        as (nb0 & Hnb0 & Hl0 & Hr0 & _).
      destruct (Hch _ _ Hb Hnb0). split; congruence.
    + rewrite length_insert. exact Hlen.
    + intros i e b nb Hei Hbi Hnb.
      rewrite Hfr' in Hnb by (eapply Hlo_above, list_elem_of_lookup_2, Hbi).
      destruct (decide (i = Z.to_nat idx)) as [-> | Hne].
      * assert (b = a) as -> by congruence.
        unfold H0 in Hnb.
        rewrite list_lookup_insert_eq in Hnb by (eapply lookup_lt_Some, Hn).
        rewrite list_lookup_insert_eq in Hei by (unfold len in Hi; lia).
        injection Hnb as <-. injection Hei as <-. reflexivity.
      * rewrite list_lookup_insert_ne in Hei by congruence.
        unfold H0 in Hnb. rewrite list_lookup_insert_ne in Hnb.
        2:{ intros E. subst b. apply Hne.
            cbn [concat] in Hnd. apply NoDup_app in Hnd as (Hndlo & _ & _).
            exact (NoDup_lookup _ _ _ _ Hndlo Hbi Ha). }
        eapply Hel; eauto.
  - intros b Hb1 Hb2. rewrite Hfr' by exact Hb1. unfold H0.
    apply list_lookup_insert_ne. intros E. subst b. apply Hb2. exact Ha.
Qed.

(** ** NewMerkleTree *)

Lemma allocLeaves_spec elements : ∀ H,
  allocLeaves sha elements H
  = (Ok (Some <$> seq (length H) (length elements)),
     H ++ (leafNode sha <$> elements)).
Proof.
  induction elements as [| e elements IH]; intros H.
  - cbn. rewrite app_nil_r. reflexivity.
  - cbn [allocLeaves]. unfold alloc at 1. unfold bind at 1.
    unfold bind at 1. rewrite IH. cbn [ret].
    rewrite length_app. cbn [length fmap list_fmap seq].
    rewrite <- app_assoc. cbn [app]. rewrite Nat.add_1_r. reflexivity.
Qed.

Lemma padLeaves_spec missing : ∀ leaves H,
  padLeaves sha missing leaves H
  = (Ok (leaves ++ (Some <$> seq (length H) missing)),
     H ++ replicate missing (leafNode sha "")).
Proof.
  induction missing as [| k IH]; intros leaves H.
  - cbn. rewrite !app_nil_r. reflexivity.
  - cbn [padLeaves]. unfold alloc at 1. unfold bind at 1.
    rewrite IH. rewrite length_app. cbn [length replicate seq fmap list_fmap].
    rewrite <- !app_assoc. cbn [app]. rewrite Nat.add_1_r. reflexivity.
Qed.

(** Induction over a list two elements at a time. *)
Lemma pair_ind {A} (P : list A → Prop) :
  P [] → (∀ x, P [x]) → (∀ x y l, P l → P (x :: y :: l)) → ∀ l, P l.
Proof.
  intros H0 H1 H2 l. enough (P l ∧ ∀ x, P (x :: l)) as [Hl _] by exact Hl.
  induction l as [| y l [IH1 IH2]]; split; auto.
Qed.

Lemma level_built_nil H : level_built sha H H [] [].
Proof.
  unfold level_built. cbn [length seq]. rewrite Nat.add_0_r.
  split; [reflexivity |]. split; [reflexivity |].
  split; [split; [reflexivity |] |].
  { intros i p Hp. rewrite lookup_nil in Hp. discriminate. }
  split.
  { intros i p l r np nl nr _ Hp. rewrite lookup_nil in Hp. discriminate. }
  split; [reflexivity |]. split.
  - intros b n Hb. apply elem_of_nil in Hb. contradiction.
  - intros b Hb. apply elem_of_nil in Hb. contradiction.
Qed.

(** One pair of the inner loop of [buildLevel], on top of the rest. *)
Lemma level_built_cons H H3 H' x y nx ny lo hi :
  H !! x = Some nx → H !! y = Some ny → x ≠ y →
  x ∉ lo → y ∉ lo → (∀ a, a ∈ lo → (a < length H)%nat) →
  H3 = <[y:={| hash := hash ny; left := left ny; right := right ny;
               parent := Some (length H) |}]>
         (<[x:={| hash := hash nx; left := left nx; right := right nx;
                  parent := Some (length H) |}]>
            (H ++ [{| hash := hashNode sha (hash nx) (hash ny);
                      left := Some x; right := Some y; parent := None |}])) →
  level_built sha H3 H' lo hi →
  level_built sha H H' (x :: y :: lo) (length H :: hi).
Proof.
  intros Hx Hy Hxy Hxlo Hylo Hbound HH3 (Hhi & Hlen & Hlk & Hhs & Hfr & Hpar & Hnew).
  pose proof (lookup_lt_Some _ _ _ Hx) as Hxlt.
  pose proof (lookup_lt_Some _ _ _ Hy) as Hylt.
  assert (length H3 = S (length H)) as Hlen3.
  { rewrite HH3, !length_insert, length_app. cbn. lia. }
  set (p := length H) in *.
  assert (p ∉ lo) as Hplo by (intros Hin; apply Hbound in Hin; lia).
  assert (H3 !! x = Some {| hash := hash nx; left := left nx; right := right nx;
                            parent := Some p |}) as H3x.
  { rewrite HH3, list_lookup_insert_ne by congruence.
    apply list_lookup_insert_eq. rewrite length_app. cbn. lia. }
  assert (H3 !! y = Some {| hash := hash ny; left := left ny; right := right ny;
                            parent := Some p |}) as H3y.
  { rewrite HH3. apply list_lookup_insert_eq.
    rewrite length_insert, length_app. cbn. lia. }
  assert (H3 !! p = Some {| hash := hashNode sha (hash nx) (hash ny);
                            left := Some x; right := Some y; parent := None |})
    as H3p.
  { rewrite HH3, !list_lookup_insert_ne by (unfold p; lia).
    rewrite lookup_app_r by (unfold p; lia).
    unfold p. rewrite Nat.sub_diag. reflexivity. }
  assert (H' !! x = H3 !! x) as H'x by (apply Hfr; [lia | exact Hxlo]).
  assert (H' !! y = H3 !! y) as H'y by (apply Hfr; [lia | exact Hylo]).
  assert (H' !! p = H3 !! p) as H'p by (apply Hfr; [lia | exact Hplo]).
  unfold level_built. split; [| split; [| split; [| split; [| split; [| split]]]]].
  - cbn [length seq]. f_equal. rewrite Hlen3 in Hhi. exact Hhi.
  - cbn [length]. lia.
  - destruct Hlk as [Hl1 Hl2]. split; [cbn [length]; lia |].
    intros [| i] q Hq.
    + cbn in Hq. injection Hq as <-.
      eexists x, y, _, _, _. cbn [lookup list_lookup Nat.mul Nat.add].
      rewrite H'x, H'y, H'p, H3x, H3y, H3p. cbn.
      repeat split; reflexivity.
    + cbn in Hq. destruct (Hl2 _ _ Hq)
        as (l & r & np & nl & nr & G1 & G2 & G3 & G4 & G5 & G6 & G7 & G8 & G9).
      exists l, r, np, nl, nr.
      replace (2 * S i)%nat with (S (S (2 * i))) by lia.
      replace (S (S (2 * i)) + 1)%nat with (S (S (2 * i + 1))) by lia.
      cbn [lookup list_lookup]. repeat split; assumption.
  - intros [| i] q l r np nl nr _ Hq Hl Hr Hnp Hnl Hnr.
    + cbn in Hq, Hl, Hr. injection Hq as <-. injection Hl as <-.
      injection Hr as <-.
      rewrite H'x, H3x in Hnl. rewrite H'y, H3y in Hnr.
      rewrite H'p, H3p in Hnp.
      injection Hnl as <-. injection Hnr as <-. injection Hnp as <-.
      reflexivity.
    + replace (2 * S i)%nat with (S (S (2 * i))) in Hl by lia.
      replace (2 * S i + 1)%nat with (S (S (2 * i + 1))) in Hr by lia.
      cbn in Hq, Hl, Hr. eapply (Hhs i); eauto.
  - intros b Hb Hnin. rewrite !not_elem_of_cons in Hnin.
    destruct Hnin as (Hbx & Hby & Hblo).
    rewrite Hfr by (try lia; exact Hblo).
    rewrite HH3, !list_lookup_insert_ne by congruence.
    apply lookup_app_l. exact Hb.
  - intros b n Hb Hn. rewrite !elem_of_cons in Hb.
    destruct Hb as [-> | [-> | Hb]].
    + exists (Some p). rewrite H'x, H3x. congruence.
    + exists (Some p). rewrite H'y, H3y. congruence.
    + apply (Hpar b n Hb). rewrite HH3.
      rewrite !list_lookup_insert_ne by (intros ->; contradiction).
      rewrite lookup_app_l by (eapply lookup_lt_Some, Hn). exact Hn.
  - intros b Hb. apply elem_of_cons in Hb as [-> | Hb]; [| apply Hnew, Hb].
    eexists. rewrite H'p, H3p. split; reflexivity.
Qed.

(** One pass over a level: an even level gets its parents, an odd one
    panics at [leaves[i+1]]. *)
Lemma buildLevel_spec lo : ∀ H,
  (∀ a, a ∈ lo → (a < length H)%nat) → NoDup lo →
  ∃ H',
    if Nat.even (length lo) then
      buildLevel sha (Some <$> lo) H
      = (Ok (Some <$> seq (length H) (length lo / 2)), H') ∧
      level_built sha H H' lo (seq (length H) (length lo / 2))
    else buildLevel sha (Some <$> lo) H = (Panic IndexOutOfRange, H').
Proof.
  induction lo as [| x | x y lo IH] using pair_ind; intros H Hbound Hnd.
  - exists H. cbn. split; [reflexivity | apply level_built_nil].
  - exists H. reflexivity.
  - apply NoDup_cons in Hnd as [Hx Hnd]. apply NoDup_cons in Hnd as [Hylo Hnd].
    apply not_elem_of_cons in Hx as [Hxy Hxlo].
    destruct (lookup_lt_is_Some_2 H x) as [nx Hnx].
    { apply Hbound. apply list_elem_of_here. }
    destruct (lookup_lt_is_Some_2 H y) as [ny Hny].
    { apply Hbound. apply list_elem_of_further, list_elem_of_here. }
    set (np := {| hash := hashNode sha (hash nx) (hash ny);
                  left := Some x; right := Some y; parent := None |}).
    set (H1 := H ++ [np]).
    set (H2 := <[x:={| hash := hash nx; left := left nx; right := right nx;
                       parent := Some (length H) |}]> H1).
    set (H3 := <[y:={| hash := hash ny; left := left ny; right := right ny;
                       parent := Some (length H) |}]> H2).
    assert (length H3 = S (length H)) as Hlen3.
    { unfold H3, H2, H1. rewrite !length_insert, length_app. cbn. lia. }
    destruct (IH H3) as [H' HIH].
    { intros a Ha. rewrite Hlen3. specialize (Hbound a).
      rewrite !elem_of_cons in Hbound. assert (a < length H)%nat by tauto. lia. }
    { exact Hnd. }
    exists H'.
    assert (∀ (k : list ptr → M (list ptr)),
              bind (buildLevel sha (Some <$> x :: y :: lo)) k H
              = bind (let* nextLevel := buildLevel sha (Some <$> lo) in
                      ret (Some (length H) :: nextLevel)) k H3) as Hstep.
    { intros k. cbn [fmap list_fmap buildLevel]. unfold bind at 1.
      rewrite (bind_ok _ _ _ _ _ (load_some _ _ _ Hnx)).
      rewrite (bind_ok _ _ _ _ _ (load_some _ _ _ Hny)).
      unfold alloc at 1. unfold bind at 1. fold np. fold H1.
      assert (H1 !! x = Some nx) as H1x
          by (unfold H1; rewrite lookup_app_l by (eapply lookup_lt_Some, Hnx);
              exact Hnx).
      rewrite (bind_ok _ _ _ _ _ (set_parent_some _ _ _ _ H1x)). fold H2.
      assert (H2 !! y = Some ny) as H2y.
      { unfold H2, H1. rewrite list_lookup_insert_ne by exact Hxy.
        rewrite lookup_app_l by (eapply lookup_lt_Some, Hny). exact Hny. }
      rewrite (bind_ok _ _ _ _ _ (set_parent_some _ _ _ _ H2y)). fold H3.
      reflexivity. }
    specialize (Hstep ret).
    assert (∀ (m : M (list ptr)) G, bind m ret G = m G) as Hbr.
    { intros m G. unfold bind, ret. destruct (m G) as [[] ?]; reflexivity. }
    rewrite !Hbr in Hstep. rewrite Hstep. clear Hstep Hbr.
    cbn [length]. change (Nat.even (S (S (length lo)))) with (Nat.even (length lo)).
    replace (S (S (length lo)) / 2)%nat with (S (length lo / 2)) by lia.
    destruct (Nat.even (length lo)).
    + destruct HIH as [Hrun Hbuilt]. split.
      * rewrite (bind_ok _ _ _ _ _ Hrun). rewrite Hlen3. reflexivity.
      * cbn [seq]. rewrite Hlen3 in Hbuilt.
        apply (level_built_cons H H3 H' x y nx ny _ _ Hnx Hny Hxy Hxlo Hylo).
        -- intros a Ha. apply Hbound. rewrite !elem_of_cons. auto.
        -- reflexivity.
        -- exact Hbuilt.
    + unfold bind. rewrite HIH. reflexivity.
Qed.

Lemma buildLevels_single H (allNodes : list ptr) r :
  NoDup [r] → (∃ n, H !! r = Some n ∧ parent n = None) →
  Some <$> [r] = [Some r] ∧
  allNodes = allNodes ++ (Some <$> concat []) ∧
  tower H r [r] [] ∧ hashes_above sha H [r] [] ∧
  NoDup (concat ([r] :: [])) ∧
  concat (@nil (list nat)) = seq (length H) (length (concat (@nil (list nat)))) ∧
  length H = (length H + length (concat (@nil (list nat))))%nat ∧
  (∀ b, (b < length H)%nat → b ∉ [r] → H !! b = H !! b) ∧
  (∀ b n, b ∈ [r] → H !! b = Some n →
     ∃ q, H !! b = Some {| hash := hash n; left := left n;
                           right := right n; parent := q |}).
Proof.
  intros Hnd Hpar. split; [reflexivity |].
  split; [cbn; rewrite app_nil_r; reflexivity |].
  split; [cbn; split; [reflexivity | exact Hpar] |].
  split; [exact I |]. split; [exact Hnd |].
  split; [reflexivity |].
  split; [cbn; lia |]. split; [reflexivity |].
  intros b n _ Hn. exists (parent n). rewrite Hn. destruct n. reflexivity.
Qed.

(** The outer loop: whenever it ends with a result, the levels it built
    form a tower over the level it started from. *)
Lemma buildLevels_inv fuel : ∀ lo H allNodes top all H',
  (∀ a, a ∈ lo → (a < length H)%nat) → NoDup lo → lo ≠ [] →
  (∀ a, a ∈ lo → ∃ n, H !! a = Some n ∧ parent n = None) →
  buildLevels sha fuel (Some <$> lo) allNodes H = (Ok (top, all), H') →
  ∃ above r,
    top = [Some r] ∧ all = allNodes ++ (Some <$> concat above) ∧
    tower H' r lo above ∧ hashes_above sha H' lo above ∧
    NoDup (concat (lo :: above)) ∧
    concat above = seq (length H) (length (concat above)) ∧
    length H' = (length H + length (concat above))%nat ∧
    (∀ b, (b < length H)%nat → b ∉ lo → H' !! b = H !! b) ∧
    (∀ b n, b ∈ lo → H !! b = Some n →
       ∃ q, H' !! b = Some {| hash := hash n; left := left n;
                              right := right n; parent := q |}).
Proof.
  induction fuel as [| fuel IH]; intros lo H allNodes top all H' Hbound Hnd Hne Hpar Hrun.
  all: cbn [buildLevels] in Hrun; unfold len in Hrun; rewrite length_fmap in Hrun.
  all: destruct (1 <? Z.of_nat (length lo)) eqn:Hlen;
    [apply Z.ltb_lt in Hlen | apply Z.ltb_ge in Hlen].
  1: discriminate.
  2: destruct (buildLevel_spec lo H Hbound Hnd) as [H1 Hlvl];
     destruct (Nat.even (length lo)) eqn:Heven;
     [| unfold bind in Hrun; rewrite Hlvl in Hrun; discriminate].
  1,3: (destruct lo as [| r [| ? ?]]; [contradiction | | cbn in Hlen; lia];
        injection Hrun as <- <- <-; exists [], r;
        apply buildLevels_single; [exact Hnd | apply Hpar, list_elem_of_here]).
  destruct Hlvl as [Hlvl Hbuilt]. rewrite (bind_ok _ _ _ _ _ Hlvl) in Hrun.
  set (hi := seq (length H) (length lo / 2)) in *.
  assert (∀ a, a ∈ hi ↔ (length H ≤ a < length H + length lo / 2)%nat) as Hhi_in.
  { intros a. unfold hi. apply elem_of_seq. }
  pose proof Hbuilt as (_ & HlenH1 & Hlk & Hhs & Hfr & Hparent & Hnew).
  assert (length hi = (length lo / 2)%nat) as Hlenhi by apply length_seq.
  rewrite Hlenhi in HlenH1.
  destruct (IH hi H1 (allNodes ++ (Some <$> hi)) top all H')
    as (above' & r & Htop & Hall & Htw & Hha & Hnd' & Hbd' & Hlen' & Hfr' & Hpar').
  { intros a Ha. apply Hhi_in in Ha. lia. }
  { apply NoDup_seq. }
  { intros E. apply (f_equal length) in E. rewrite Hlenhi in E.
    cbn [length] in E. lia. }
  { exact Hnew. }
  { exact Hrun. }
  assert (∀ b, b ∈ lo → H' !! b = H1 !! b) as Hlo_same.
  { intros b Hb. apply Hfr'; [apply Hbound in Hb; lia |].
    intros Hin. apply Hhi_in in Hin. apply Hbound in Hb. lia. }
  exists (hi :: above'), r.
  split; [exact Htop |].
  split; [rewrite Hall; cbn [concat]; rewrite fmap_app, app_assoc; reflexivity |].
  split; [| split; [| split; [| split; [| split; [| split]]]]].
  - cbn [tower]. split; [| exact Htw].
    destruct Hlk as [Hl1 Hl2]. split; [exact Hl1 |]. intros i p Hp.
    destruct (Hl2 _ _ Hp)
      as (l & r' & np & nl & nr & G1 & G2 & G3 & G4 & G5 & G6 & G7 & G8 & G9).
    destruct (Hpar' p np) as [q Hq]; [eapply list_elem_of_lookup_2, Hp | exact G3 |].
    eexists l, r', _, nl, nr. rewrite Hq.
    rewrite !Hlo_same by (eapply list_elem_of_lookup_2; eauto).
    cbn. repeat split; assumption.
  - cbn [hashes_above]. split; [| exact Hha].
    intros i p l r' np nl nr _ Hp Hl Hr Hnp Hnl Hnr.
    rewrite Hlo_same in Hnl by (eapply list_elem_of_lookup_2, Hl).
    rewrite Hlo_same in Hnr by (eapply list_elem_of_lookup_2, Hr).
    destruct (Hnew p) as (n1 & Hn1 & _); [eapply list_elem_of_lookup_2, Hp |].
    destruct (Hpar' p n1) as [q Hq]; [eapply list_elem_of_lookup_2, Hp | exact Hn1 |].
    rewrite Hq in Hnp. injection Hnp as <-. cbn [hash].
    eapply (Hhs i); eauto.
  - cbn [concat] in *. apply NoDup_app. split; [exact Hnd |]. split; [| exact Hnd'].
    intros a Ha Hin. apply Hbound in Ha. apply elem_of_app in Hin as [Hin | Hin].
    + apply Hhi_in in Hin. lia.
    + rewrite Hbd' in Hin. apply elem_of_seq in Hin. lia.
  - cbn [concat]. rewrite length_app, seq_app, Hlenhi. fold hi.
    rewrite <- HlenH1, <- Hbd'. reflexivity.
  - cbn [concat]. rewrite length_app. lia.
  - intros b Hb Hnin. rewrite Hfr'.
    + apply Hfr; assumption.
    + lia.
    + intros Hin. apply Hhi_in in Hin. lia.
  - intros b n Hb Hn. rewrite Hlo_same by exact Hb. eapply Hparent; eauto.
Qed.

Lemma lookup_padded {A} (l : list A) (x e : A) k1 k2 i :
  (l ++ replicate k1 x) !! i = Some e → (i < length l + k2)%nat →
  (l ++ replicate k2 x) !! i = Some e.
Proof.
  intros Hi Hlt. destruct (decide (i < length l)%nat) as [Hl | Hl].
  - rewrite lookup_app_l in * by exact Hl. exact Hi.
  - rewrite lookup_app_r in * by lia.
    apply lookup_replicate in Hi as [-> _].
    apply lookup_replicate. split; [reflexivity | lia].
Qed.

(** A tree returned by [NewMerkleTree] satisfies the invariant, with the
    leaves at the addresses [0 .. length lo - 1] and one leaf per element
    and per padding slot. *)
Lemma NewMerkleTree_inv elements t H :
  NewMerkleTree sha elements [] = (Ok t, H) →
  ∃ lo above r,
    tree_inv sha (padded elements t) H t lo above r ∧
    lo = seq 0 (length lo) ∧
    (length elements ≤ length lo)%nat ∧
    length (leaves t) = Z.to_nat (getNextPowerOfTwo (len elements)) ∧
    (length (leaves t) ≤ length lo)%nat ∧
    elements ≠ [].
Proof.
  unfold NewMerkleTree. intros Hrun.
  destruct (len elements =? 0) eqn:Hempty; [discriminate |].
  apply Z.eqb_neq in Hempty.
  rewrite (bind_ok _ _ _ _ _ (allocLeaves_spec elements [])) in Hrun.
  cbn [length app] in Hrun.
  set (n := length elements) in *.
  set (required := getNextPowerOfTwo (len elements)) in *.
  rewrite (bind_ok _ _ _ _ _ (padLeaves_spec _ _ _)) in Hrun.
  assert (len (Some <$> seq 0 n) = Z.of_nat n) as Hl0
    by (unfold len; rewrite length_fmap, length_seq; reflexivity).
  rewrite Hl0 in Hrun. clear Hl0.
  set (k := Z.to_nat (required - Z.of_nat n)) in *.
  rewrite length_fmap in Hrun. fold n in Hrun.
  change (seq n k) with (seq (0 + n) k) in Hrun.
  rewrite <- fmap_app, <- seq_app in Hrun.
  set (lo := seq 0 (n + k)) in *.
  assert (length lo = (n + k)%nat) as Hlenlo by apply length_seq.
  set (H1 := (leafNode sha <$> elements) ++ replicate k (leafNode sha "")) in *.
  assert (H1 = leafNode sha <$> (elements ++ replicate k ""%string)) as HH1.
  { unfold H1. rewrite fmap_app, fmap_replicate. reflexivity. }
  assert (length H1 = (n + k)%nat) as HlenH1.
  { rewrite HH1, length_fmap, length_app, length_replicate. reflexivity. }
  destruct (int_wrap (len (Some <$> lo) * 2) <? 0); [discriminate |].
  apply bind_inv_ok in Hrun as ([top all] & H' & Hbuild & Hrun).
  rewrite length_fmap in Hbuild.
  assert (∀ a, a ∈ lo ↔ (a < n + k)%nat) as Hlo_in.
  { intros a. unfold lo. rewrite elem_of_seq. lia. }
  assert (n ≠ 0)%nat as Hn0 by (unfold len in Hempty; fold n in Hempty; lia).
  destruct (buildLevels_inv (length lo) lo H1 (Some <$> lo) top all H')
    as (above & r & -> & -> & Htw & Hha & Hnd & Habove & HlenH' & Hfr & Hpar).
  { intros a Ha. apply Hlo_in in Ha. lia. }
  { apply NoDup_seq. }
  { intros E. apply (f_equal length) in E. rewrite Hlenlo in E. cbn in E. lia. }
  { intros a Ha. apply Hlo_in in Ha.
    destruct (lookup_lt_is_Some_2 H1 a) as [na Hna]; [lia |].
    exists na. split; [exact Hna |]. rewrite HH1, list_lookup_fmap in Hna.
    destruct ((elements ++ replicate k ""%string) !! a); [| discriminate].
    cbn in Hna. injection Hna as <-. reflexivity. }
  { exact Hbuild. }
  rewrite (bind_ok _ _ _ _ _ (index_some [Some r] 0 (Some r) H' eq_refl)) in Hrun.
  destruct (required <? 0) eqn:Hreq; [discriminate |].
  apply Z.ltb_ge in Hreq. injection Hrun as <- <-.
  assert (Z.to_nat required ≤ n + k)%nat as Hreq_le by lia.
  assert (take (Z.to_nat required) ((Some <$> lo) ++ (Some <$> concat above))
          = Some <$> take (Z.to_nat required) lo) as Htake.
  { rewrite take_app_le by (rewrite length_fmap; lia). symmetry. apply fmap_take. }
  exists lo, above, r. cbn [leaves]. rewrite Htake.
  rewrite length_fmap, length_take, Hlenlo.
  replace (Z.to_nat required `min` (n + k))%nat with (Z.to_nat required) by lia.
  split; [| split; [reflexivity |
                    split; [lia | split; [reflexivity | split; [lia |]]]]].
  2:{ intros ->. apply Hn0. reflexivity. }
  split; cbn [root leaves]; try assumption.
  - reflexivity.
  - intros a Ha. cbn [concat]. apply elem_of_app.
    destruct (decide (a < n + k)%nat) as [Hlt | Hge].
    + left. apply Hlo_in. exact Hlt.
    + right. rewrite Habove. apply elem_of_seq. lia.
  - rewrite length_fmap, length_take, Hlenlo.
    replace (Z.to_nat required `min` (n + k))%nat with (Z.to_nat required) by lia.
    reflexivity.
  - intros a na Ha Hna. pose proof Ha as Hlt. apply Hlo_in in Hlt.
    destruct (lookup_lt_is_Some_2 H1 a) as [n1 Hn1]; [lia |].
    destruct (Hpar a n1 Ha Hn1) as [q Hq]. rewrite Hq in Hna.
    injection Hna as <-. cbn [left right].
    rewrite HH1, list_lookup_fmap in Hn1.
    destruct ((elements ++ replicate k ""%string) !! a); [| discriminate].
    cbn in Hn1. injection Hn1 as <-. split; reflexivity.
  - unfold padded. cbn [leaves]. rewrite length_app, length_replicate.
    rewrite length_fmap, length_take. lia.
  - intros i e a na He Ha Hna. unfold padded in He. cbn [leaves] in He.
    unfold lo in Ha. apply lookup_seq in Ha as [-> Hi]. cbn [Nat.add] in *.
    apply (lookup_padded _ _ _ _ k) in He; [| fold n; lia].
    destruct (lookup_lt_is_Some_2 H1 i) as [n1 Hn1]; [lia |].
    destruct (Hpar i n1) as [q Hq]; [apply Hlo_in; lia | exact Hn1 |].
    rewrite Hq in Hna. injection Hna as <-. cbn [hash].
    rewrite HH1, list_lookup_fmap, He in Hn1. cbn in Hn1.
    injection Hn1 as <-. reflexivity.
Qed.

(** ** Reachable states *)

Lemma reachable_inv els H t :
  reachable sha els H t → ∃ lo above r, tree_inv sha els H t lo above r.
Proof.
  induction 1 as [elements H t Hnew
                 | els H t idx element H' Hreach IH Hidx Hupd
                 | els H t idx element H' res Hreach IH Hidx Hupd Hres].
  - destruct (NewMerkleTree_inv _ _ _ Hnew) as (lo & above & r & Hinv & _).
    eauto.
  - destruct IH as (lo & above & r & Hinv). exists lo, above, r.
    destruct (Z_lt_le_dec idx (len (leaves t))) as [Hlt | Hge].
    + destruct (UpdateElement_inv _ _ _ _ _ _ idx element Hinv)
        as (H2 & Hrun & Hinv' & _); [unfold is_uint64 in Hidx; lia |].
      rewrite Hrun in Hupd. injection Hupd as <-. exact Hinv'.
    + rewrite UpdateElement_out_of_range in Hupd by exact Hge.
      destruct (int_of_uint64 idx >=? len (leaves t)); discriminate.
  - destruct IH as (lo & above & r & Hinv). exists lo, above, r.
    destruct (Z_lt_le_dec idx (len (leaves t))) as [Hlt | Hge].
    + destruct (UpdateElement_inv _ _ _ _ _ _ idx element Hinv)
        as (H2 & Hrun & Hinv' & _); [unfold is_uint64 in Hidx; lia |].
      rewrite Hrun in Hupd. injection Hupd as <- <-. contradiction.
    + rewrite UpdateElement_out_of_range in Hupd by exact Hge.
      injection Hupd as _ <-. exact Hinv.
Qed.

(** ** Internal nodes *)

Lemma tower_levels H r above : ∀ lo a,
  tower H r lo above → a ∈ concat above →
  ∃ lo' hi i, linked H lo' hi ∧ hi !! i = Some a ∧
              (hashes_above sha H lo above → hashed_but sha None H lo' hi).
Proof.
  induction above as [| hi above IH]; intros lo a Ht Ha.
  - cbn in Ha. apply elem_of_nil in Ha. contradiction.
  - cbn [tower concat] in *. destruct Ht as [Hl Ht].
    apply elem_of_app in Ha as [Ha | Ha].
    + apply list_elem_of_lookup in Ha as [i Hi].
      exists lo, hi, i. split; [exact Hl |]. split; [exact Hi |].
      intros [Hh _]. exact Hh.
    + destruct (IH hi a Ht Ha) as (lo' & hi' & i & G1 & G2 & G3).
      exists lo', hi', i. split; [exact G1 |]. split; [exact G2 |].
      intros [_ Hh]. apply G3, Hh.
Qed.

Lemma tree_inv_internal els H t lo above r :
  tree_inv sha els H t lo above r → internal_nodes_hashed sha H.
Proof.
  intros Hinv a n Ha Hchild.
  pose proof (inv_cover _ _ _ _ _ _ _ Hinv a (lookup_lt_Some _ _ _ Ha)) as Hin.
  cbn [concat] in Hin. apply elem_of_app in Hin as [Hin | Hin].
  - destruct (inv_childless _ _ _ _ _ _ _ Hinv a n Hin Ha) as [Hl Hr].
    destruct Hchild; contradiction.
  - destruct (tower_levels H r above lo a (inv_tower _ _ _ _ _ _ _ Hinv) Hin)
      as (lo' & hi & i & [_ Hlk] & Hi & Hh).
    destruct (Hlk _ _ Hi)
      as (l & r' & np & nl & nr & G1 & G2 & G3 & G4 & G5 & G6 & _ & G8 & _).
    assert (np = n) as -> by congruence.
    exists nl, nr. rewrite G4, G5.
    split; [apply load_some, G6 |]. split; [apply load_some, G8 |].
    eapply (Hh (inv_hashes _ _ _ _ _ _ _ Hinv) i); eauto.
Qed.

(** ** getNextPowerOfTwo *)

Lemma smeared_start m : smeared m 1 m.
Proof.
  intros i Hi. split.
  - intros Hb. exists i. split; [lia | exact Hb].
  - intros (j & Hj & Hb). replace i with j by lia. exact Hb.
Qed.

Lemma smeared_step m w x :
  0 < w → smeared m w x → smeared m (2 * w) (Z.lor x (Z.shiftr x w)).
Proof.
  intros Hw Hx i Hi. rewrite Z.lor_spec, Z.shiftr_spec by exact Hi.
  rewrite orb_true_iff, (Hx i Hi), (Hx (i + w)) by lia. split.
  - intros [(j & Hj & Hb) | (j & Hj & Hb)]; exists j; split; (lia || exact Hb).
  - intros (j & Hj & Hb). destruct (Z_lt_le_dec j (i + w)).
    + left. exists j. split; [lia | exact Hb].
    + right. exists j. split; [lia | exact Hb].
Qed.

Lemma smeared_ones m x :
  0 < m < 2 ^ 32 → smeared m 32 x → 0 ≤ x → x = Z.ones (Z.log2 m + 1).
Proof.
  intros Hm Hx Hx0.
  assert (0 ≤ Z.log2 m < 32) as Hlog.
  { split; [apply Z.log2_nonneg |]. apply Z.log2_lt_pow2; lia. }
  apply Z.bits_inj'. intros i Hi.
  destruct (Z_lt_le_dec i (Z.log2 m + 1)) as [Hlt | Hge].
  - rewrite Z.ones_spec_low by lia. apply Hx; [exact Hi |].
    exists (Z.log2 m). split; [lia |]. apply Z.bit_log2. lia.
  - rewrite Z.ones_spec_high by lia.
    destruct (Z.testbit x i) eqn:Hb; [| reflexivity].
    apply Hx in Hb as (j & Hj & Hb); [| exact Hi].
    rewrite Z.bits_above_log2 in Hb by lia. discriminate.
Qed.

Lemma getNextPowerOfTwo_nonpositive n : n ≤ 0 → getNextPowerOfTwo n = 1.
Proof.
  intros Hn. unfold getNextPowerOfTwo.
  replace (n <=? 0) with true by (symmetry; apply Z.leb_le; exact Hn).
  reflexivity.
Qed.

Lemma getNextPowerOfTwo_one : getNextPowerOfTwo 1 = 1.
Proof. reflexivity. Qed.

Lemma getNextPowerOfTwo_log2 n :
  1 < n ≤ 2 ^ 32 → getNextPowerOfTwo n = 2 ^ (Z.log2 (n - 1) + 1).
Proof.
  intros Hn. unfold getNextPowerOfTwo.
  replace (n <=? 0) with false by (symmetry; apply Z.leb_gt; lia).
  rewrite (int_wrap_small (n - 1)) by lia.
  set (m := n - 1).
  set (x1 := Z.lor m (Z.shiftr m 1)).
  set (x2 := Z.lor x1 (Z.shiftr x1 2)).
  set (x3 := Z.lor x2 (Z.shiftr x2 4)).
  set (x4 := Z.lor x3 (Z.shiftr x3 8)).
  set (x5 := Z.lor x4 (Z.shiftr x4 16)).
  assert (smeared m 32 x5) as Hs.
  { pose proof (smeared_start m) as S0.
    apply (smeared_step m 1) in S0; [| lia].
    apply (smeared_step m 2) in S0; [| lia].
    apply (smeared_step m 4) in S0; [| lia].
    apply (smeared_step m 8) in S0; [| lia].
    apply (smeared_step m 16) in S0; [| lia].
    exact S0. }
  assert (0 ≤ x5) as Hx5.
  { unfold x5, x4, x3, x2, x1.
    repeat (apply Z.lor_nonneg; split; [| apply Z.shiftr_nonneg]).
    all: unfold m; lia. }
  rewrite (smeared_ones m x5) by (unfold m; lia || assumption).
  rewrite Z.ones_equiv.
  assert (0 ≤ Z.log2 m < 32) as Hlog.
  { split; [apply Z.log2_nonneg |]. apply Z.log2_lt_pow2; unfold m; lia. }
  assert (2 ^ (Z.log2 m + 1) ≤ 2 ^ 32) by (apply Z.pow_le_mono_r; lia).
  assert (0 < 2 ^ (Z.log2 m + 1)) by (apply Z.pow_pos_nonneg; lia).
  rewrite int_wrap_small by lia. lia.
Qed.

(** On lengths up to [2 ^ 32] the function is what its name says. *)
Lemma getNextPowerOfTwo_small n :
  0 < n ≤ 2 ^ 32 →
  is_power_of_two (getNextPowerOfTwo n) ∧
  n ≤ getNextPowerOfTwo n ∧
  ∀ z, is_power_of_two z → n ≤ z → getNextPowerOfTwo n ≤ z.
Proof.
  intros Hn. destruct (Z.eq_dec n 1) as [-> | Hne].
  { rewrite getNextPowerOfTwo_one. split; [exists 0%nat; reflexivity |].
    split; [lia |]. intros z [k ->] _.
    pose proof (Z.pow_pos_nonneg 2 (Z.of_nat k)). lia. }
  rewrite getNextPowerOfTwo_log2 by lia.
  pose proof (Z.log2_nonneg (n - 1)) as Hlog.
  destruct (Z.log2_spec (n - 1)) as [Hlo Hhi]; [lia |].
  rewrite <- Z.add_1_r in Hhi.
  split; [| split].
  - exists (Z.to_nat (Z.log2 (n - 1) + 1)). f_equal. lia.
  - lia.
  - intros z [k ->] Hz.
    apply Z.pow_le_mono_r; [lia |].
    assert (Z.log2 (n - 1) < Z.of_nat k); [| lia].
    apply (Z.pow_lt_mono_r_iff 2); lia.
Qed.

(** ** Sensitivity of the root to a leaf *)

Lemma length_append (a s : string) :
  String.length (a +:+ s) = (String.length a + String.length s)%nat.
Proof.
  induction a as [| c a IH]; [reflexivity |].
  change (String c a +:+ s) with (String c (a +:+ s)).
  cbn [String.length Nat.add]. f_equal. exact IH.
Qed.

Lemma append_inv_tail (a b s : string) : a +:+ s = b +:+ s → a = b.
Proof.
  intros E.
  assert (String.length a = String.length b) as Hlen.
  { apply (f_equal String.length) in E. rewrite !length_append in E. lia. }
  revert b E Hlen.
  induction a as [| c a IH]; intros [| d b] E Hlen; try discriminate.
  - reflexivity.
  - change (String c a +:+ s) with (String c (a +:+ s)) in E.
    change (String d b +:+ s) with (String d (b +:+ s)) in E.
    cbn in Hlen. injection E as -> E. f_equal. apply IH; [exact E | lia].
Qed.

Lemma hashNode_left_differs a b s :
  a ≠ b → hashNode sha a s = hashNode sha b s → collision sha.
Proof.
  intros Hne Heq. exists (a +:+ s), (b +:+ s). split; [| exact Heq].
  intros E. apply Hne. eapply append_inv_tail, E.
Qed.

Lemma hashNode_right_differs a b s :
  a ≠ b → hashNode sha s a = hashNode sha s b → collision sha.
Proof.
  intros Hne Heq. exists (s +:+ a), (s +:+ b). split; [| exact Heq].
  intros E. apply Hne. eapply String.app_inj, E.
Qed.

(** Two hashed heaps over the same tower that agree on the hashes of level
    [lo] except at [a]: equal root hashes force equal hashes at [a], or
    exhibit a collision. *)
Lemma root_sensitive above : ∀ H H' r lo j a,
  tower H r lo above → tower H' r lo above →
  NoDup (concat (lo :: above)) →
  hashes_above sha H lo above → hashes_above sha H' lo above →
  lo !! j = Some a →
  (∀ b, b ∈ lo → b ≠ a → hash <$> H' !! b = hash <$> H !! b) →
  hash <$> H' !! r = hash <$> H !! r →
  hash <$> H' !! a = hash <$> H !! a ∨ collision sha.
Proof.
  induction above as [| hi above IH];
    intros H H' r lo j a Ht Ht' Hnd Hh Hh' Hj Hsame Hroot.
  - cbn [tower] in Ht. destruct Ht as [-> _].
    apply list_lookup_singleton_Some in Hj as [_ <-]. left. exact Hroot.
  - cbn [tower hashes_above] in *.
    destruct Ht as [Hl Ht], Ht' as [Hl' Ht'], Hh as [Hh Hha], Hh' as [Hh' Hha'].
    cbn [concat] in Hnd. apply NoDup_app in Hnd as (Hndlo & Hdisj & Hndup).
    destruct (linked_lookup _ _ _ _ _ Hl Hj)
      as (p & l & r' & np & nl & nr & Hp & Hlo1 & Hlo2 & Hnp & _ & _
          & Hnl & _ & Hnr & _ & Hcase).
    destruct (IH H H' r hi (j / 2)%nat p Ht Ht' Hndup Hha Hha' Hp)
      as [Hpeq | Hcol]; [| exact Hroot | | right; exact Hcol].
    { intros q Hq Hqp. apply list_elem_of_lookup in Hq as [i Hi].
      destruct Hl as [_ Hl2]. destruct Hl' as [_ Hl2'].
      destruct (Hl2 _ _ Hi)
        as (l1 & r1 & nq & nl1 & nr1 & G1 & G2 & G3 & _ & _ & G6 & _ & G8 & _).
      destruct (Hl2' _ _ Hi)
        as (l2 & r2 & nq' & nl1' & nr1' & G1' & G2' & G3' & _ & _ & G6' & _ & G8' & _).
      assert (l2 = l1) as -> by congruence.
      assert (r2 = r1) as -> by congruence.
      assert (i ≠ (j / 2)%nat) as Hij by congruence.
      assert (l1 ≠ a) as Hl1a.
      { intros ->. pose proof (NoDup_lookup _ _ _ _ Hndlo G1 Hj). lia. }
      assert (r1 ≠ a) as Hr1a.
      { intros ->. pose proof (NoDup_lookup _ _ _ _ Hndlo G2 Hj). lia. }
      pose proof (Hsame l1 (list_elem_of_lookup_2 _ _ _ G1) Hl1a) as El.
      pose proof (Hsame r1 (list_elem_of_lookup_2 _ _ _ G2) Hr1a) as Er.
      rewrite G6, G6' in El. rewrite G8, G8' in Er. cbn in El, Er.
      injection El as El. injection Er as Er.
      rewrite G3, G3'. cbn. f_equal.
      rewrite (hashed_but_None _ _ _ _ _ _ _ _ _ _ Hh Hi G1 G2 G3 G6 G8).
      rewrite (hashed_but_None _ _ _ _ _ _ _ _ _ _ Hh' Hi G1' G2' G3' G6' G8').
      congruence. }
    destruct Hl' as [_ Hl2'].
    destruct (Hl2' _ _ Hp)
      as (l2 & r2 & np' & nl' & nr' & G1' & G2' & G3' & _ & _ & G6' & _ & G8' & _).
    assert (l2 = l) as -> by congruence.
    assert (r2 = r') as -> by congruence.
    rewrite Hnp, G3' in Hpeq. cbn in Hpeq. injection Hpeq as Hpeq.
    rewrite (hashed_but_None _ _ _ _ _ _ _ _ _ _ Hh Hp Hlo1 Hlo2 Hnp Hnl Hnr) in Hpeq.
    rewrite (hashed_but_None _ _ _ _ _ _ _ _ _ _ Hh' Hp G1' G2' G3' G6' G8') in Hpeq.
    assert (l ≠ r') as Hlr.
    { intros ->. pose proof (NoDup_lookup _ _ _ _ Hndlo Hlo1 Hlo2). lia. }
    destruct Hcase as [[-> _] | [-> _]].
    + pose proof (Hsame r' (list_elem_of_lookup_2 _ _ _ Hlo2) (not_eq_sym Hlr)) as Er.
      rewrite Hnr, G8' in Er. cbn in Er. injection Er as Er.
      rewrite Hnl, G6'. cbn.
      destruct (decide (hash nl' = hash nl)) as [E | E]; [left; congruence |].
      right. rewrite Er in Hpeq. eapply hashNode_left_differs; eauto.
    + pose proof (Hsame l (list_elem_of_lookup_2 _ _ _ Hlo1) Hlr) as El.
      rewrite Hnl, G6' in El. cbn in El. injection El as El.
      rewrite Hnr, G8'. cbn.
      destruct (decide (hash nr' = hash nr)) as [E | E]; [left; congruence |].
      right. rewrite El in Hpeq. eapply hashNode_right_differs; eauto.
Qed.

Lemma getNextPowerOfTwo_range n : - 2 ^ 63 ≤ getNextPowerOfTwo n < 2 ^ 63.
Proof.
  unfold getNextPowerOfTwo. destruct (n <=? 0); [lia | apply int_wrap_range].
Qed.

Lemma reachable_leaves_bound els H t :
  reachable sha els H t → len (leaves t) < 2 ^ 63.
Proof.
  induction 1 as [elements H t Hnew | | ]; try assumption.
  destruct (NewMerkleTree_inv _ _ _ Hnew) as (lo & above & r & _ & _ & _ & Hlen & _).
  unfold len. rewrite Hlen.
  pose proof (getNextPowerOfTwo_range (len elements)). lia.
Qed.

(** ** Main results *)

(** C1. For a tree built by [NewMerkleTree] from a (necessarily non-empty)
    sequence of elements and every index [0 <= idx < len(leaves)],
    [GetProof] returns a proof that [VerifyProof] accepts against the
    tree's root hash. *)
Theorem GetProof_verifies_on_built_tree elements t H idx :
  NewMerkleTree sha elements [] = (Ok t, H) →
  0 ≤ idx < len (leaves t) →
  elements ≠ [] ∧
  ∃ proof rootHash,
    GetProof t idx H = (Ok proof, H) ∧
    getRoot t H = (Ok rootHash, H) ∧
    VerifyProof sha rootHash proof = Ok true.
Proof.
  intros Hnew Hidx.
  destruct (NewMerkleTree_inv _ _ _ Hnew)
    as (lo & above & r & Hinv & _ & _ & _ & _ & Hne).
  split; [exact Hne |].
  destruct (GetProof_verifies Hinv idx Hidx)
    as (proof & rootHash & Hget & Hroot & Hver & _).
  exists proof, rootHash. auto.
Qed.

(** C6. In every reachable state, that is after [NewMerkleTree] and after
    any sequence of [UpdateElement] calls, successful or failed, every node
    with a child carries the node hash of its two children's hashes. *)
Theorem internal_nodes_hashed_in_reachable_states els H t :
  reachable sha els H t → internal_nodes_hashed sha H.
Proof.
  intros Hreach. destruct (reachable_inv _ _ _ Hreach) as (lo & above & r & Hinv).
  eapply tree_inv_internal, Hinv.
Qed.

(** C8. In a reachable state, [UpdateElement] at an in-bounds index
    succeeds; afterwards [GetProof] at that index returns a proof whose
    [hElement] is the leaf hash of the new element and which [VerifyProof]
    accepts against the new root; and if the new element differs from the
    one previously at the index, the root hash changes unless the digest
    has a collision. *)
Theorem UpdateElement_then_GetProof els H t idx x :
  reachable sha els H t →
  0 ≤ idx < len (leaves t) →
  ∃ H' proof newRoot,
    UpdateElement sha t idx x H = (Ok tt, H') ∧
    GetProof t idx H' = (Ok proof, H') ∧
    hElement proof = hashLeaf sha x ∧
    getRoot t H' = (Ok newRoot, H') ∧
    VerifyProof sha newRoot proof = Ok true ∧
    ∀ old oldRoot,
      els !! Z.to_nat idx = Some old → x ≠ old →
      getRoot t H = (Ok oldRoot, H) →
      newRoot ≠ oldRoot ∨ collision sha.
Proof.
  intros Hreach Hidx.
  destruct (reachable_inv _ _ _ Hreach) as (lo & above & r & Hinv).
  destruct (UpdateElement_inv _ _ _ _ _ _ idx x Hinv Hidx)
    as (H' & Hrun & Hinv' & Hshape & Hfr).
  destruct (GetProof_verifies Hinv' idx Hidx)
    as (proof & newRoot & Hget & Hroot & Hver & a & n & Ha & Hn & Hel).
  exists H', proof, newRoot.
  assert (Z.to_nat idx < length els)%nat as Hlt.
  { pose proof (inv_length _ _ _ _ _ _ _ Hinv). unfold len in Hidx. lia. }
  assert (hash n = hashLeaf sha x) as Hnx.
  { eapply (inv_elements _ _ _ _ _ _ _ Hinv' (Z.to_nat idx)); eauto.
    apply list_lookup_insert_eq. exact Hlt. }
  repeat (split; [assumption || congruence |]).
  intros old oldRoot Hold Hxold HoldRoot.
  destruct (decide (newRoot = oldRoot)) as [-> | Hne]; [right | left; exact Hne].
  destruct (inv_root_node Hinv) as (nr & Hnr & _).
  destruct (inv_root_node Hinv') as (nr' & Hnr' & _).
  rewrite (getRoot_inv Hinv _ Hnr) in HoldRoot.
  rewrite (getRoot_inv Hinv' _ Hnr') in Hroot.
  injection HoldRoot as HoldRoot. injection Hroot as Hroot.
  destruct (tower_valid H r above lo a (inv_tower _ _ _ _ _ _ _ Hinv))
    as [n0 Hn0].
  { cbn [concat]. apply elem_of_app. left. eapply list_elem_of_lookup_2, Ha. }
  pose proof (inv_nodup _ _ _ _ _ _ _ Hinv) as Hnd.
  destruct (root_sensitive above H H' r lo (Z.to_nat idx) a) as [Heq | Hcol].
  { apply (inv_tower _ _ _ _ _ _ _ Hinv). }
  { apply (inv_tower _ _ _ _ _ _ _ Hinv'). }
  { exact Hnd. }
  { apply (inv_hashes _ _ _ _ _ _ _ Hinv). }
  { apply (inv_hashes _ _ _ _ _ _ _ Hinv'). }
  { exact Ha. }
  { intros b Hb Hba. rewrite Hfr; [reflexivity | | congruence].
    cbn [concat] in Hnd. apply NoDup_app in Hnd as (_ & Hd & _). apply Hd, Hb. }
  { rewrite Hnr, Hnr'. cbn. congruence. }
  - rewrite Hn, Hn0 in Heq. cbn in Heq. injection Heq as Heq.
    rewrite (inv_elements _ _ _ _ _ _ _ Hinv _ _ _ _ Hold Ha Hn0) in Heq.
    exists x, old. split; [exact Hxold |]. unfold hashLeaf in *. congruence.
  - exact Hcol.
Qed.

(** C10. In a tree built from [k] elements, every padding index
    [k <= idx < len(leaves)] is accepted by [GetProof]; the proof's
    [hElement] is the leaf hash of the empty string and [VerifyProof]
    accepts it against the root.  (Such indices exist exactly when [k] is
    not a power of two.) *)
Theorem GetProof_at_padding_index elements t H idx :
  NewMerkleTree sha elements [] = (Ok t, H) →
  len elements ≤ idx < len (leaves t) →
  ∃ proof rootHash,
    GetProof t idx H = (Ok proof, H) ∧
    hElement proof = hashLeaf sha "" ∧
    getRoot t H = (Ok rootHash, H) ∧
    VerifyProof sha rootHash proof = Ok true.
Proof.
  intros Hnew Hidx.
  destruct (NewMerkleTree_inv _ _ _ Hnew) as (lo & above & r & Hinv & _).
  assert (0 ≤ idx < len (leaves t)) as Hidx'.
  { pose proof (len_nonneg elements). lia. }
  destruct (GetProof_verifies Hinv idx Hidx')
    as (proof & rootHash & Hget & Hroot & Hver & a & n & Ha & Hn & Hel).
  exists proof, rootHash. split; [exact Hget |].
  split; [| split; [exact Hroot | exact Hver]].
  rewrite Hel. eapply (inv_elements _ _ _ _ _ _ _ Hinv (Z.to_nat idx)); eauto.
  unfold padded, len in *. rewrite lookup_app_r by lia.
  apply lookup_replicate. split; [reflexivity | lia].
Qed.

(** C9. For a reachable tree, two aggregated proofs that differ only in
    their [end] field, each with [start < end <= len(leaves)], get the same
    verdict from [VerifyAggregatedProof]: [end] only takes part in the
    range check. *)
Theorem VerifyAggregatedProof_ignores_end els H t rootHash p1 p2 :
  reachable sha els H t →
  start p1 = start p2 →
  aggSiblings p1 = aggSiblings p2 →
  aggDirections p1 = aggDirections p2 →
  start p1 < end_ p1 ≤ len (leaves t) →
  start p2 < end_ p2 ≤ len (leaves t) →
  VerifyAggregatedProof sha rootHash p1 t H
  = VerifyAggregatedProof sha rootHash p2 t H.
Proof.
  intros Hreach Hs Hsib Hdir H1 H2.
  pose proof (reachable_leaves_bound _ _ _ Hreach) as Hb.
  pose proof (len_nonneg (leaves t)) as Hl.
  assert (uint64_of_int (len (leaves t)) = len (leaves t)) as Hu
    by (unfold uint64_of_int; lia).
  unfold VerifyAggregatedProof. rewrite Hu, <- Hs, <- Hsib, <- Hdir.
  replace (start p1 >=? end_ p1) with false by (symmetry; lia).
  replace (start p1 >=? end_ p2) with false by (symmetry; lia).
  replace (end_ p1 >? len (leaves t)) with false by (symmetry; lia).
  replace (end_ p2 >? len (leaves t)) with false by (symmetry; lia).
  reflexivity.
Qed.

(** C2, amended.  [VerifyAggregatedProof] returns [false] whenever
    [start >= end] or [end > len(leaves)], for every root, proof, tree and
    heap, whatever the siblings and directions.  When a proof has at least
    as many directions as siblings, verification returns a boolean:
    [VerifyProof], for any root and proof, returns whether the replayed
    hash equals the root; [VerifyAggregatedProof], for a range
    [start < end <= len(leaves)] of a reachable tree, returns whether the
    hash replayed from the start leaf equals the root. *)
Theorem verification_returns_boolean_when_aligned t H rootHash proof agg :
  len (leaves t) < 2 ^ 63 →
  ((length (siblings proof) ≤ length (directions proof))%nat →
   VerifyProof sha rootHash proof
   = Ok (String.eqb (fold_path sha (hElement proof) (siblings proof)
                       (directions proof)) rootHash)) ∧
  (end_ agg ≤ start agg ∨ len (leaves t) < end_ agg →
   VerifyAggregatedProof sha rootHash agg t H = (Ok false, H)) ∧
  (∀ els,
     reachable sha els H t →
     is_uint64 (start agg) → start agg < end_ agg ≤ len (leaves t) →
     (length (aggSiblings agg) ≤ length (aggDirections agg))%nat →
     ∃ a n, leaves t !! Z.to_nat (start agg) = Some (Some a) ∧
            H !! a = Some n ∧
            VerifyAggregatedProof sha rootHash agg t H
            = (Ok (String.eqb (fold_path sha (hash n) (aggSiblings agg)
                                 (aggDirections agg)) rootHash), H)).
Proof.
  intros Hb.
  pose proof (len_nonneg (leaves t)) as Hl.
  assert (uint64_of_int (len (leaves t)) = len (leaves t)) as Hu
    by (unfold uint64_of_int; lia).
  split; [| split].
  - intros Hlen. unfold VerifyProof.
    pose proof (replay_fold (siblings proof) (hElement proof) []
                  (directions proof) Hlen) as Hrep.
    cbn [length app] in Hrep. rewrite Hrep. reflexivity.
  - intros Hout. unfold VerifyAggregatedProof. rewrite Hu.
    replace ((start agg >=? end_ agg) || (end_ agg >? len (leaves t)))
      with true by (symmetry; apply orb_true_iff; lia).
    reflexivity.
  - intros els Hreach Hs Hin Hlen. unfold is_uint64 in Hs.
    destruct (reachable_inv _ _ _ Hreach) as (lo & above & r & Hinv).
    unfold VerifyAggregatedProof. rewrite Hu.
    replace ((start agg >=? end_ agg) || (end_ agg >? len (leaves t)))
      with false by (symmetry; apply orb_false_iff; lia).
    assert (0 ≤ start agg < len (leaves t)) as Hin' by lia.
    destruct (inv_leaf Hinv (start agg) Hin') as (a & n & Hleaf & _ & Hn).
    destruct (index_in_range (leaves t) (start agg) H Hin') as (p & Hp & Hidx).
    assert (p = Some a) as -> by congruence.
    rewrite (bind_ok _ _ _ _ _ Hidx).
    rewrite (bind_ok _ _ _ _ _ (load_some _ _ _ Hn)).
    pose proof (replay_fold (aggSiblings agg) (hash n) []
                  (aggDirections agg) Hlen) as Hrep.
    cbn [length app] in Hrep. rewrite Hrep.
    exists a, n. auto.
Qed.

(** C7. Building from ["some"; "test"; "elements"] pads to four leaves, and
    the root hash is the node hash of the two pair hashes, the fourth leaf
    being the hash of the empty string. *)
Theorem NewMerkleTree_three_elements :
  ∃ t H,
    NewMerkleTree sha ["some"; "test"; "elements"]%string [] = (Ok t, H) ∧
    length (leaves t) = 4%nat ∧
    getRoot t H
    = (Ok (hashNode sha
             (hashNode sha (hashLeaf sha "some") (hashLeaf sha "test"))
             (hashNode sha (hashLeaf sha "elements") (hashLeaf sha ""))), H).
Proof.
  eexists _, _. split; [vm_compute; reflexivity |].
  split; reflexivity.
Qed.

(** ** Termination and totality of the build *)

Lemma buildLevels_total d : ∀ lo H allNodes fuel,
  length lo = (2 ^ d)%nat → (d ≤ fuel)%nat →
  (∀ a, a ∈ lo → (a < length H)%nat) → NoDup lo →
  ∃ res H', buildLevels sha fuel (Some <$> lo) allNodes H = (Ok res, H').
Proof.
  induction d as [| d IH]; intros lo H allNodes fuel Hlen Hfuel Hbound Hnd.
  - assert ((1 <? len (Some <$> lo)) = false) as Hcond.
    { apply Z.ltb_ge. unfold len. rewrite length_fmap, Hlen. cbn. lia. }
    destruct fuel; cbn [buildLevels]; rewrite Hcond; eauto.
  - assert ((1 <? len (Some <$> lo)) = true) as Hcond.
    { apply Z.ltb_lt. unfold len. rewrite length_fmap, Hlen.
      pose proof (Nat.pow_nonzero 2 d). cbn [Nat.pow]. lia. }
    destruct fuel as [| fuel]; [lia |]. cbn [buildLevels]. rewrite Hcond.
    destruct (buildLevel_spec lo H Hbound Hnd) as [H1 Hlvl].
    assert (Nat.even (length lo) = true) as Heven.
    { rewrite Hlen. apply Nat.even_spec. exists (2 ^ d)%nat. reflexivity. }
    rewrite Heven in Hlvl. destruct Hlvl as [Hrun (_ & HlenH1 & _)].
    rewrite length_seq in HlenH1.
    rewrite (bind_ok _ _ _ _ _ Hrun). apply IH.
    + rewrite length_seq, Hlen. cbn [Nat.pow]. lia.
    + lia.
    + intros a Ha. apply elem_of_seq in Ha. lia.
    + apply NoDup_seq.
Qed.

(** [NewMerkleTree] returns a tree for every input of [1] to [2 ^ 32]
    elements. *)
Lemma NewMerkleTree_total elements :
  0 < len elements ≤ 2 ^ 32 →
  ∃ t H, NewMerkleTree sha elements [] = (Ok t, H).
Proof.
  intros Hn.
  destruct (getNextPowerOfTwo_small (len elements) Hn) as ([k Hk] & Hge & Hmin).
  assert (Z.of_nat k ≤ 32) as Hk32.
  { destruct (Z_le_gt_dec (Z.of_nat k) 32) as [| Hgt]; [assumption |].
    assert (2 ^ Z.of_nat k ≤ 2 ^ 32) as Hc.
    { rewrite <- Hk. apply Hmin; [exists 32%nat; reflexivity | lia]. }
    assert (2 ^ 32 < 2 ^ Z.of_nat k) by (apply Z.pow_lt_mono_r; lia). lia. }
  assert (getNextPowerOfTwo (len elements) ≤ 2 ^ 32) as Hle.
  { rewrite Hk. apply Z.pow_le_mono_r; lia. }
  unfold NewMerkleTree.
  replace (len elements =? 0) with false by (symmetry; apply Z.eqb_neq; lia).
  rewrite (bind_ok _ _ _ _ _ (allocLeaves_spec elements [])).
  rewrite (bind_ok _ _ _ _ _ (padLeaves_spec _ _ _)).
  set (n := length elements) in *.
  set (required := getNextPowerOfTwo (len elements)) in *.
  assert (len (Some <$> seq (length (@nil Node)) n) = Z.of_nat n) as Hl0
    by (unfold len; rewrite length_fmap, length_seq; reflexivity).
  rewrite Hl0. clear Hl0.
  set (pad := Z.to_nat (required - Z.of_nat n)).
  rewrite length_app, length_fmap. fold n. cbn [length Nat.add].
  change (seq n pad) with (seq (0 + n) pad).
  rewrite <- fmap_app, <- seq_app.
  unfold len in Hge, Hn |- *. fold n in Hge, Hn.
  assert (n + pad = 2 ^ k)%nat as Hpow.
  { apply Nat2Z.inj. rewrite Nat2Z.inj_pow. unfold pad. cbn. lia. }
  rewrite length_fmap, length_seq.
  replace (int_wrap (Z.of_nat (n + pad) * 2) <? 0) with false.
  2:{ symmetry. apply Z.ltb_ge. rewrite int_wrap_small; lia. }
  cbn [app].
  set (H1 := (leafNode sha <$> elements) ++ replicate pad (leafNode sha "")).
  assert (length H1 = (n + pad)%nat) as HlenH1.
  { unfold H1. rewrite length_app, length_fmap, length_replicate. reflexivity. }
  assert (∀ a, a ∈ seq 0 (n + pad) → (a < length H1)%nat) as Hbound.
  { intros a Ha. apply elem_of_seq in Ha. lia. }
  destruct (buildLevels_total k (seq 0 (n + pad)) H1
              (Some <$> seq 0 (n + pad)) (n + pad))
    as ([top all] & H' & Hbuild).
  { rewrite length_seq. exact Hpow. }
  { rewrite Hpow. apply Nat.lt_le_incl, Nat.pow_gt_lin_r. lia. }
  { exact Hbound. }
  { apply NoDup_seq. }
  rewrite (bind_ok _ _ _ _ _ Hbuild).
  destruct (buildLevels_inv (n + pad) (seq 0 (n + pad)) H1
              (Some <$> seq 0 (n + pad)) top all H')
    as (above & r & -> & _).
  { exact Hbound. }
  { apply NoDup_seq. }
  { intros E. apply (f_equal length) in E. rewrite length_seq in E.
    cbn in E. pose proof (Nat.pow_nonzero 2 k). lia. }
  { intros a Ha. apply elem_of_seq in Ha.
    destruct (lookup_lt_is_Some_2 H1 a) as [na Hna]; [lia |].
    exists na. split; [exact Hna |].
    unfold H1 in Hna.
    rewrite <- fmap_replicate, <- fmap_app, list_lookup_fmap in Hna.
    destruct ((elements ++ replicate pad ""%string) !! a); [| discriminate].
    cbn in Hna. injection Hna as <-. reflexivity. }
  { exact Hbuild. }
  rewrite (bind_ok _ _ _ _ _ (index_some [Some r] 0 (Some r) H' eq_refl)).
  replace (required <? 0) with false by (symmetry; apply Z.ltb_ge; lia).
  eauto.
Qed.

(** ** Bounds checks on indices *)

Lemma load_no_error p H e H' : load p H ≠ (Err e, H').
Proof.
  unfold load. destruct p as [a |]; [| discriminate].
  destruct (H !! a); discriminate.
Qed.

Lemma index_no_error {A} (s : list A) i H e H' : index s i H ≠ (Err e, H').
Proof.
  unfold index. destruct ((0 <=? i) && (i <? len s)); [| discriminate].
  destruct (s !! Z.to_nat i); discriminate.
Qed.

Lemma bind_no_error {A B} (m : M A) (k : A → M B) H e :
  (∀ H', m H ≠ (Err e, H')) → (∀ a H1 H', k a H1 ≠ (Err e, H')) →
  ∀ H', bind m k H ≠ (Err e, H').
Proof.
  intros Hm Hk H'. unfold bind.
  destruct (m H) as [[a | e' | p |] H1] eqn:E; try discriminate.
  - apply Hk.
  - intros [= -> ->]. eapply Hm. reflexivity.
Qed.

Lemma collectPath_no_error fuel : ∀ troot node sibs dirs H e H',
  collectPath fuel troot node sibs dirs H ≠ (Err e, H').
Proof.
  induction fuel as [| fuel IH]; intros troot node sibs dirs H e H';
    cbn [collectPath]; destruct (ptr_eqb node troot); try discriminate.
  apply bind_no_error; [intros; apply load_no_error |]. intros n H1 H2.
  apply bind_no_error; [intros; apply load_no_error |]. intros pn H3 H4.
  destruct (ptr_eqb (left pn) node);
    (apply bind_no_error; [intros; apply load_no_error |]); intros; apply IH.
Qed.

(** With [uint64] arguments the check [endIndex - startIndex < 1] of
    [GetAggregatedProof] never fires: the call never ends in
    [RangeTooSmallError]. *)
Lemma GetAggregatedProof_never_range_too_small t startIndex endIndex H H' :
  is_uint64 startIndex → is_uint64 endIndex →
  GetAggregatedProof t startIndex endIndex H ≠ (Err RangeTooSmallError, H').
Proof.
  intros Hs He. unfold GetAggregatedProof, is_uint64 in *.
  destruct ((startIndex >=? endIndex)
            || (int_of_uint64 endIndex >? len (leaves t))) eqn:Hguard.
  { discriminate. }
  apply orb_false_iff in Hguard as [Hlt _].
  replace (uint64_sub endIndex startIndex <? 1) with false.
  2:{ symmetry. apply Z.ltb_ge. unfold uint64_sub. lia. }
  apply bind_no_error; [intros; apply index_no_error |]. intros node H1 H2.
  apply bind_no_error; [discriminate |]. intros fuel H3 H4.
  apply bind_no_error; [intros; apply collectPath_no_error |].
  intros [sibs dirs] H5 H6. discriminate.
Qed.

(** With indices below [2 ^ 63] the range check of [GetAggregatedProof] is
    the documented one. *)
Lemma GetAggregatedProof_range_check t startIndex endIndex H :
  0 ≤ startIndex → 0 ≤ endIndex < 2 ^ 63 →
  (endIndex ≤ startIndex ∨ len (leaves t) < endIndex) →
  GetAggregatedProof t startIndex endIndex H = (Err InvalidRangeError, H).
Proof.
  intros Hs He Hbad. unfold GetAggregatedProof, int_of_uint64.
  rewrite int_wrap_small by lia.
  replace ((startIndex >=? endIndex) || (endIndex >? len (leaves t)))
    with true by (symmetry; apply orb_true_iff; lia).
  reflexivity.
Qed.

(** With an index below [2 ^ 63], [GetProof] and [UpdateElement] report an
    index at or past the number of leaves as [IndexOutOfBoundsError]. *)
Lemma GetProof_index_check t idx H :
  len (leaves t) ≤ idx < 2 ^ 63 →
  GetProof t idx H = (Err IndexOutOfBoundsError, H).
Proof.
  intros Hidx. pose proof (len_nonneg (leaves t)).
  unfold GetProof, int_of_uint64. rewrite int_wrap_small by lia.
  replace (idx >=? len (leaves t)) with true by (symmetry; lia).
  reflexivity.
Qed.

Lemma UpdateElement_index_check t idx element H :
  len (leaves t) ≤ idx < 2 ^ 63 →
  UpdateElement sha t idx element H = (Err IndexOutOfBoundsError, H).
Proof.
  intros Hidx. pose proof (len_nonneg (leaves t)).
  unfold UpdateElement, int_of_uint64. rewrite int_wrap_small by lia.
  replace (idx >=? len (leaves t)) with true by (symmetry; lia).
  reflexivity.
Qed.

(** With an index from [2 ^ 63] on, the conversion [int(index)] is negative,
    the check passes, and indexing the leaves panics. *)
Lemma GetProof_large_index t idx H :
  2 ^ 63 ≤ idx < 2 ^ 64 → len (leaves t) < 2 ^ 63 →
  GetProof t idx H = (Panic IndexOutOfRange, H).
Proof.
  intros Hidx Hlen. pose proof (len_nonneg (leaves t)).
  unfold GetProof. rewrite int_of_uint64_high by exact Hidx.
  replace (idx - 2 ^ 64 >=? len (leaves t)) with false by (symmetry; lia).
  unfold bind at 1. rewrite index_out_of_range by lia. reflexivity.
Qed.

Lemma UpdateElement_large_index t idx element H :
  2 ^ 63 ≤ idx < 2 ^ 64 → len (leaves t) < 2 ^ 63 →
  UpdateElement sha t idx element H = (Panic IndexOutOfRange, H).
Proof.
  intros Hidx Hlen. pose proof (len_nonneg (leaves t)).
  rewrite UpdateElement_out_of_range by lia.
  rewrite int_of_uint64_high by exact Hidx.
  replace (idx - 2 ^ 64 >=? len (leaves t)) with false by (symmetry; lia).
  reflexivity.
Qed.

(** ** The fuel of the build loop suffices *)

Lemma buildLevels_fuel fuel : ∀ lo H allNodes H',
  (length lo ≤ fuel)%nat →
  (∀ a, a ∈ lo → (a < length H)%nat) → NoDup lo →
  buildLevels sha fuel (Some <$> lo) allNodes H ≠ (OutOfFuel, H').
Proof.
  induction fuel as [| fuel IH]; intros lo H allNodes H' Hlen Hbound Hnd;
    cbn [buildLevels]; unfold len; rewrite length_fmap.
  - replace (1 <? Z.of_nat (length lo)) with false by (symmetry; lia).
    discriminate.
  - destruct (1 <? Z.of_nat (length lo)) eqn:Hcond; [| discriminate].
    apply Z.ltb_lt in Hcond.
    destruct (buildLevel_spec lo H Hbound Hnd) as [H1 Hlvl].
    destruct (Nat.even (length lo)).
    + destruct Hlvl as [Hrun (_ & HlenH1 & _)]. rewrite length_seq in HlenH1.
      rewrite (bind_ok _ _ _ _ _ Hrun). apply IH.
      * rewrite length_seq. lia.
      * intros a Ha. apply elem_of_seq in Ha. lia.
      * apply NoDup_seq.
    + unfold bind. rewrite Hlvl. discriminate.
Qed.

(** [NewMerkleTree] never runs out of fuel: its outcome is a tree, the
    error for an empty input, or a panic. *)
Lemma NewMerkleTree_fuel elements H' :
  NewMerkleTree sha elements [] ≠ (OutOfFuel, H').
Proof.
  unfold NewMerkleTree. destruct (len elements =? 0); [discriminate |].
  rewrite (bind_ok _ _ _ _ _ (allocLeaves_spec elements [])).
  rewrite (bind_ok _ _ _ _ _ (padLeaves_spec _ _ _)).
  cbn [app length]. rewrite length_fmap.
  set (n := length elements).
  set (pad := Z.to_nat _).
  change (seq n pad) with (seq (0 + n) pad).
  rewrite <- fmap_app, <- seq_app, length_fmap, length_seq.
  destruct (int_wrap _ <? 0); [discriminate |].
  set (H1 := (leafNode sha <$> elements) ++ replicate pad (leafNode sha "")).
  assert (length H1 = (n + pad)%nat) as HlenH1.
  { unfold H1. rewrite length_app, length_fmap, length_replicate. reflexivity. }
  unfold bind at 1.
  destruct (buildLevels sha (n + pad) (Some <$> seq 0 (n + pad))
              (Some <$> seq 0 (n + pad)) H1) as [[[top all] | e | p |] H2] eqn:Hb;
    try discriminate.
  - unfold bind, index.
    destruct ((0 <=? 0) && (0 <? len top)); [| discriminate].
    destruct (top !! Z.to_nat 0); [| discriminate].
    cbn [ret]. destruct (_ <? 0); discriminate.
  - exfalso. eapply (buildLevels_fuel (n + pad) (seq 0 (n + pad))); [| | | exact Hb].
    + rewrite length_seq. lia.
    + intros a Ha. apply elem_of_seq in Ha. lia.
    + apply NoDup_seq.
Qed.

(** ** The build beyond [2 ^ 32] elements *)

(** With [2 ^ 32 + 1] elements [getNextPowerOfTwo] asks for [2 ^ 33 - 1]
    leaves, an odd number, and the first pass over the leaves panics at
    [leaves[i+1]]. *)
Lemma NewMerkleTree_panics_at_2_32_plus_1 elements :
  len elements = 2 ^ 32 + 1 →
  ∃ H', NewMerkleTree sha elements [] = (Panic IndexOutOfRange, H').
Proof.
  intros Hlen. unfold NewMerkleTree. rewrite Hlen.
  replace (getNextPowerOfTwo (2 ^ 32 + 1)) with 8589934591
    by (vm_compute; reflexivity).
  replace (2 ^ 32 + 1 =? 0) with false by reflexivity.
  rewrite (bind_ok _ _ _ _ _ (allocLeaves_spec elements [])).
  rewrite (bind_ok _ _ _ _ _ (padLeaves_spec _ _ _)).
  cbn [app length]. rewrite length_fmap.
  unfold len in *. rewrite length_fmap, length_seq.
  set (n := length elements) in *.
  set (pad := Z.to_nat (8589934591 - Z.of_nat n)).
  change (seq n pad) with (seq (0 + n) pad).
  rewrite <- fmap_app, <- seq_app, length_fmap, length_seq.
  assert (Z.of_nat (n + pad) = 8589934591) as Htotal by (unfold pad; lia).
  rewrite Htotal.
  replace (int_wrap (8589934591 * 2) <? 0) with false by reflexivity.
  set (H1 := (leafNode sha <$> elements) ++ replicate pad (leafNode sha "")).
  assert (length H1 = (n + pad)%nat) as HlenH1.
  { unfold H1. rewrite length_app, length_fmap, length_replicate. reflexivity. }
  set (lo := seq 0 (n + pad)).
  assert (length lo = (n + pad)%nat) as Hlenlo by apply length_seq.
  destruct (buildLevel_spec lo H1) as [H' Hlvl].
  { intros a Ha. apply elem_of_seq in Ha. lia. }
  { apply NoDup_seq. }
  destruct (Nat.even (length lo)) eqn:Heven.
  { apply Nat.even_spec in Heven as [m Hm]. lia. }
  exists H'. unfold bind at 1.
  destruct (n + pad)%nat as [| fuel] eqn:Hfuel; [lia |].
  cbn [buildLevels]. unfold len. rewrite length_fmap, Hlenlo.
  replace (1 <? Z.of_nat (S fuel)) with true
    by (symmetry; apply Z.ltb_lt; clear -Htotal; lia).
  unfold bind at 1. rewrite Hlvl. reflexivity.
Qed.

(** ** getNextPowerOfTwo on every positive [int] *)

Lemma lor_ge a b : 0 ≤ a → 0 ≤ b → a ≤ Z.lor a b.
Proof.
  intros Ha Hb. apply (Z.ldiff_le a (Z.lor a b)).
  - apply Z.lor_nonneg. auto.
  - apply Z.bits_inj'. intros i Hi.
    rewrite Z.ldiff_spec, Z.lor_spec, Z.bits_0.
    destruct (Z.testbit a i), (Z.testbit b i); reflexivity.
Qed.

Lemma lor_below a b k :
  0 ≤ k → 0 ≤ a < 2 ^ k → 0 ≤ b < 2 ^ k → 0 ≤ Z.lor a b < 2 ^ k.
Proof.
  intros Hk Ha Hb. split; [apply Z.lor_nonneg; lia |].
  destruct (Z.eq_dec (Z.lor a b) 0) as [-> | Hne]; [lia |].
  assert (0 ≤ Z.lor a b) as Hnn by (apply Z.lor_nonneg; lia).
  apply Z.log2_lt_pow2; [lia |].
  rewrite Z.log2_lor by lia.
  destruct (Z.eq_dec a 0) as [-> | Ha0], (Z.eq_dec b 0) as [-> | Hb0].
  - exfalso. apply Hne. reflexivity.
  - cbn [Z.log2]. rewrite Z.max_r by apply Z.log2_nonneg.
    apply Z.log2_lt_pow2; lia.
  - cbn [Z.log2]. rewrite Z.max_l by apply Z.log2_nonneg.
    apply Z.log2_lt_pow2; lia.
  - apply Z.max_lub_lt; apply Z.log2_lt_pow2; lia.
Qed.

Lemma shiftr_below a n k :
  0 ≤ n → 0 ≤ a < 2 ^ k → 0 ≤ Z.shiftr a n < 2 ^ k.
Proof.
  intros Hn Ha. split; [apply Z.shiftr_nonneg; lia |].
  rewrite Z.shiftr_div_pow2 by exact Hn.
  assert (0 < 2 ^ n) by (apply Z.pow_pos_nonneg; lia).
  assert (a / 2 ^ n ≤ a) by (apply Z.div_le_upper_bound; nia).
  lia.
Qed.

(** On a positive [int] the result is at least the argument, unless the
    final increment overflows. *)
Lemma getNextPowerOfTwo_ge n :
  0 < n < 2 ^ 63 → getNextPowerOfTwo n < 0 ∨ n ≤ getNextPowerOfTwo n.
Proof.
  intros Hn. unfold getNextPowerOfTwo.
  replace (n <=? 0) with false by (symmetry; apply Z.leb_gt; lia).
  rewrite (int_wrap_small (n - 1)) by lia.
  set (m := n - 1).
  assert (0 ≤ m < 2 ^ 63) as Hm by (unfold m; lia).
  set (x1 := Z.lor m (Z.shiftr m 1)).
  assert (0 ≤ x1 < 2 ^ 63 ∧ m ≤ x1) as [H1 G1].
  { split; [apply lor_below; [lia | lia | apply shiftr_below; lia] |].
    apply lor_ge; [lia | apply Z.shiftr_nonneg; lia]. }
  set (x2 := Z.lor x1 (Z.shiftr x1 2)).
  assert (0 ≤ x2 < 2 ^ 63 ∧ x1 ≤ x2) as [H2 G2].
  { split; [apply lor_below; [lia | lia | apply shiftr_below; lia] |].
    apply lor_ge; [lia | apply Z.shiftr_nonneg; lia]. }
  set (x3 := Z.lor x2 (Z.shiftr x2 4)).
  assert (0 ≤ x3 < 2 ^ 63 ∧ x2 ≤ x3) as [H3 G3].
  { split; [apply lor_below; [lia | lia | apply shiftr_below; lia] |].
    apply lor_ge; [lia | apply Z.shiftr_nonneg; lia]. }
  set (x4 := Z.lor x3 (Z.shiftr x3 8)).
  assert (0 ≤ x4 < 2 ^ 63 ∧ x3 ≤ x4) as [H4 G4].
  { split; [apply lor_below; [lia | lia | apply shiftr_below; lia] |].
    apply lor_ge; [lia | apply Z.shiftr_nonneg; lia]. }
  set (x5 := Z.lor x4 (Z.shiftr x4 16)).
  assert (0 ≤ x5 < 2 ^ 63 ∧ x4 ≤ x5) as [H5 G5].
  { split; [apply lor_below; [lia | lia | apply shiftr_below; lia] |].
    apply lor_ge; [lia | apply Z.shiftr_nonneg; lia]. }
  assert (m = n - 1) as Em by reflexivity.
  clearbody x5 x4 x3 x2 x1 m.
  unfold int_wrap. lia.
Qed.

(** The layout of a tree returned by [NewMerkleTree]: the invariant holds
    with the leaf level at the addresses [0 .. length lo - 1], as many as
    the elements and the padding, and [leaves] the first [requiredLeaves]
    of them. *)
Lemma NewMerkleTree_layout elements t H :
  NewMerkleTree sha elements [] = (Ok t, H) →
  ∃ lo above r,
    tree_inv sha (padded elements t) H t lo above r ∧
    lo = seq 0 (length lo) ∧
    length lo
    = (length elements
       + Z.to_nat (getNextPowerOfTwo (len elements) - len elements))%nat ∧
    0 ≤ getNextPowerOfTwo (len elements) ∧
    length (leaves t) = Z.to_nat (getNextPowerOfTwo (len elements)).
Proof.
  unfold NewMerkleTree. intros Hrun.
  destruct (len elements =? 0) eqn:Hempty; [discriminate |].
  apply Z.eqb_neq in Hempty.
  rewrite (bind_ok _ _ _ _ _ (allocLeaves_spec elements [])) in Hrun.
  cbn [length app] in Hrun.
  set (n := length elements) in *.
  set (required := getNextPowerOfTwo (len elements)) in *.
  rewrite (bind_ok _ _ _ _ _ (padLeaves_spec _ _ _)) in Hrun.
  assert (len (Some <$> seq 0 n) = Z.of_nat n) as Hl0
    by (unfold len; rewrite length_fmap, length_seq; reflexivity).
  rewrite Hl0 in Hrun. clear Hl0.
  set (k := Z.to_nat (required - Z.of_nat n)) in *.
  rewrite length_fmap in Hrun. fold n in Hrun.
  change (seq n k) with (seq (0 + n) k) in Hrun.
  rewrite <- fmap_app, <- seq_app in Hrun.
  set (lo := seq 0 (n + k)) in *.
  assert (length lo = (n + k)%nat) as Hlenlo by apply length_seq.
  set (H1 := (leafNode sha <$> elements) ++ replicate k (leafNode sha "")) in *.
  assert (H1 = leafNode sha <$> (elements ++ replicate k ""%string)) as HH1.
  { unfold H1. rewrite fmap_app, fmap_replicate. reflexivity. }
  assert (length H1 = (n + k)%nat) as HlenH1.
  { rewrite HH1, length_fmap, length_app, length_replicate. reflexivity. }
  destruct (int_wrap (len (Some <$> lo) * 2) <? 0); [discriminate |].
  apply bind_inv_ok in Hrun as ([top all] & H' & Hbuild & Hrun).
  rewrite length_fmap in Hbuild.
  assert (∀ a, a ∈ lo ↔ (a < n + k)%nat) as Hlo_in.
  { intros a. unfold lo. rewrite elem_of_seq. lia. }
  assert (n ≠ 0)%nat as Hn0 by (unfold len in Hempty; fold n in Hempty; lia).
  destruct (buildLevels_inv (length lo) lo H1 (Some <$> lo) top all H')
    as (above & r & -> & -> & Htw & Hha & Hnd & Habove & HlenH' & Hfr & Hpar).
  { intros a Ha. apply Hlo_in in Ha. lia. }
  { apply NoDup_seq. }
  { intros E. apply (f_equal length) in E. rewrite Hlenlo in E. cbn in E. lia. }
  { intros a Ha. apply Hlo_in in Ha.
    destruct (lookup_lt_is_Some_2 H1 a) as [na Hna]; [lia |].
    exists na. split; [exact Hna |]. rewrite HH1, list_lookup_fmap in Hna.
    destruct ((elements ++ replicate k ""%string) !! a); [| discriminate].
    cbn in Hna. injection Hna as <-. reflexivity. }
  { exact Hbuild. }
  rewrite (bind_ok _ _ _ _ _ (index_some [Some r] 0 (Some r) H' eq_refl)) in Hrun.
  destruct (required <? 0) eqn:Hreq; [discriminate |].
  apply Z.ltb_ge in Hreq. injection Hrun as <- <-.
  assert (Z.to_nat required ≤ n + k)%nat as Hreq_le by lia.
  assert (take (Z.to_nat required) ((Some <$> lo) ++ (Some <$> concat above))
          = Some <$> take (Z.to_nat required) lo) as Htake.
  { rewrite take_app_le by (rewrite length_fmap; lia). symmetry. apply fmap_take. }
  exists lo, above, r. cbn [leaves]. rewrite Htake.
  rewrite length_fmap, length_take, Hlenlo.
  replace (Z.to_nat required `min` (n + k))%nat with (Z.to_nat required) by lia.
  split; [| split; [reflexivity |
                    split; [reflexivity | split; [exact Hreq | reflexivity]]]].
  split; cbn [root leaves]; try assumption.
  - reflexivity.
  - intros a Ha. cbn [concat]. apply elem_of_app.
    destruct (decide (a < n + k)%nat) as [Hlt | Hge].
    + left. apply Hlo_in. exact Hlt.
    + right. rewrite Habove. apply elem_of_seq. lia.
  - rewrite length_fmap, length_take, Hlenlo.
    replace (Z.to_nat required `min` (n + k))%nat with (Z.to_nat required) by lia.
    reflexivity.
  - intros a na Ha Hna. pose proof Ha as Hlt. apply Hlo_in in Hlt.
    destruct (lookup_lt_is_Some_2 H1 a) as [n1 Hn1]; [lia |].
    destruct (Hpar a n1 Ha Hn1) as [q Hq]. rewrite Hq in Hna.
    injection Hna as <-. cbn [left right].
    rewrite HH1, list_lookup_fmap in Hn1.
    destruct ((elements ++ replicate k ""%string) !! a); [| discriminate].
    cbn in Hn1. injection Hn1 as <-. split; reflexivity.
  - unfold padded. cbn [leaves]. rewrite length_app, length_replicate.
    rewrite length_fmap, length_take. lia.
  - intros i e a na He Ha Hna. unfold padded in He. cbn [leaves] in He.
    unfold lo in Ha. apply lookup_seq in Ha as [-> Hi]. cbn [Nat.add] in *.
    apply (lookup_padded _ _ _ _ k) in He; [| fold n; lia].
    destruct (lookup_lt_is_Some_2 H1 i) as [n1 Hn1]; [lia |].
    destruct (Hpar i n1) as [q Hq]; [apply Hlo_in; lia | exact Hn1 |].
    rewrite Hq in Hna. injection Hna as <-. cbn [hash].
    rewrite HH1, list_lookup_fmap, He in Hn1. cbn in Hn1.
    injection Hn1 as <-. reflexivity.
Qed.

(** ** Trees of Go size: all leaf-level nodes are leaves of the tree *)

Lemma padded_length_lt elements t :
  len (padded elements t) < 2 ^ 63 → len elements < 2 ^ 63.
Proof. unfold padded, len. rewrite length_app. lia. Qed.

Lemma NewMerkleTree_full elements t H :
  NewMerkleTree sha elements [] = (Ok t, H) → len elements < 2 ^ 63 →
  ∃ lo above r,
    tree_inv sha (padded elements t) H t lo above r ∧
    leaves t = Some <$> lo ∧
    length (padded elements t) = length lo ∧
    lo = seq 0 (length lo) ∧
    (length elements ≤ length lo)%nat ∧
    Z.of_nat (length lo) = getNextPowerOfTwo (len elements).
Proof.
  intros Hnew Hsmall.
  destruct (NewMerkleTree_inv _ _ _ Hnew) as (_ & _ & _ & _ & _ & _ & _ & _ & Hne).
  destruct (NewMerkleTree_layout _ _ _ Hnew)
    as (lo & above & r & Hinv & Hseq & Hlenlo & Hreq & Hleaves).
  assert (0 < len elements) as Hpos.
  { unfold len. destruct elements; [contradiction | cbn; lia]. }
  destruct (getNextPowerOfTwo_ge (len elements)) as [Hneg | Hge]; [lia | lia |].
  assert (length (leaves t) = length lo) as Hfull by (unfold len in *; lia).
  exists lo, above, r. split; [exact Hinv |]. split; [| split; [| split; [| split]]].
  - rewrite (inv_leaves _ _ _ _ _ _ _ Hinv) at 1.
    rewrite Hfull, take_ge by lia. reflexivity.
  - unfold padded. rewrite length_app, length_replicate. unfold len in *. lia.
  - exact Hseq.
  - unfold len in *. lia.
  - unfold len in *. lia.
Qed.

Lemma reachable_full els H t :
  reachable sha els H t → len els < 2 ^ 63 →
  ∃ lo above r,
    tree_inv sha els H t lo above r ∧
    leaves t = Some <$> lo ∧ length els = length lo.
Proof.
  induction 1 as [elements H t Hnew
                 | els H t idx element H' Hreach IH Hidx Hupd
                 | els H t idx element H' res Hreach IH Hidx Hupd Hres];
    intros Hsmall.
  - destruct (NewMerkleTree_full _ _ _ Hnew (padded_length_lt _ _ Hsmall))
      as (lo & above & r & Hinv & Hlv & Hlen & _). eauto 6.
  - unfold len in Hsmall. rewrite length_insert in Hsmall.
    destruct (IH Hsmall) as (lo & above & r & Hinv & Hlv & Hlen).
    exists lo, above, r.
    destruct (Z_lt_le_dec idx (len (leaves t))) as [Hlt | Hge].
    + destruct (UpdateElement_inv _ _ _ _ _ _ idx element Hinv)
        as (H2 & Hrun & Hinv' & _); [unfold is_uint64 in Hidx; lia |].
      rewrite Hrun in Hupd. injection Hupd as <-.
      rewrite length_insert. auto.
    + rewrite UpdateElement_out_of_range in Hupd by exact Hge.
      destruct (int_of_uint64 idx >=? len (leaves t)); discriminate.
  - destruct (IH Hsmall) as (lo & above & r & Hinv & Hlv & Hlen).
    exists lo, above, r.
    destruct (Z_lt_le_dec idx (len (leaves t))) as [Hlt | Hge].
    + destruct (UpdateElement_inv _ _ _ _ _ _ idx element Hinv)
        as (H2 & Hrun & Hinv' & _); [unfold is_uint64 in Hidx; lia |].
      rewrite Hrun in Hupd. injection Hupd as <- <-. contradiction.
    + rewrite UpdateElement_out_of_range in Hupd by exact Hge.
      injection Hupd as _ <-. auto.
Qed.

Lemma tower_pow H r above : ∀ lo,
  tower H r lo above → length lo = (2 ^ length above)%nat.
Proof.
  induction above as [| hi above IH]; intros lo Ht; cbn [tower] in Ht.
  - destruct Ht as [-> _]. reflexivity.
  - destruct Ht as [[Hlen _] Ht]. apply IH in Ht.
    cbn [length Nat.pow]. lia.
Qed.

Lemma tower_node_count H r above : ∀ lo,
  tower H r lo above →
  length (concat (lo :: above)) = (2 * length lo - 1)%nat.
Proof.
  induction above as [| hi above IH]; intros lo Ht; cbn [tower] in Ht.
  - destruct Ht as [-> _]. reflexivity.
  - destruct Ht as [[Hlen _] Ht]. pose proof (tower_length _ _ _ _ Ht).
    pose proof (IH _ Ht) as E. cbn [concat] in E |- *.
    rewrite length_app, E. lia.
Qed.

Lemma tree_inv_heap_size els H t lo above r :
  tree_inv sha els H t lo above r → length H = (2 * length lo - 1)%nat.
Proof.
  intros Hinv. pose proof (inv_tower _ _ _ _ _ _ _ Hinv) as Ht.
  pose proof (inv_nodup _ _ _ _ _ _ _ Hinv) as Hnd.
  rewrite <- (tower_node_count _ _ _ _ Ht).
  apply Nat.le_antisymm.
  - assert (seq 0 (length H) ⊆+ concat (lo :: above)) as Hsub.
    { apply NoDup_submseteq; [apply NoDup_seq |]. intros a Ha.
      apply elem_of_seq in Ha. apply (inv_cover _ _ _ _ _ _ _ Hinv). lia. }
    apply submseteq_length in Hsub. rewrite length_seq in Hsub. exact Hsub.
  - assert (concat (lo :: above) ⊆+ seq 0 (length H)) as Hsub.
    { apply NoDup_submseteq; [exact Hnd |]. intros a Ha.
      destruct (tower_valid _ _ _ _ _ Ht Ha) as [n Hn].
      apply elem_of_seq. apply lookup_lt_Some in Hn. lia. }
    apply submseteq_length in Hsub. rewrite length_seq in Hsub. exact Hsub.
Qed.

(** ** The levels of the heap against the reference levels *)

Lemma pairLevel_length hs : length (pairLevel sha hs) = (length hs / 2)%nat.
Proof.
  induction hs as [| x | x y hs IH] using pair_ind; [reflexivity .. |].
  cbn [pairLevel length]. rewrite IH. lia.
Qed.

Lemma pairLevel_lookup hs : ∀ i a b,
  hs !! (2 * i)%nat = Some a → hs !! (2 * i + 1)%nat = Some b →
  pairLevel sha hs !! i = Some (hashNode sha a b).
Proof.
  induction hs as [| x | x y hs IH] using pair_ind; intros i a b Ha Hb.
  - rewrite lookup_nil in Ha. discriminate.
  - apply lookup_lt_Some in Hb. cbn in Hb. lia.
  - destruct i as [| i].
    + cbn in Ha, Hb. injection Ha as <-. injection Hb as <-. reflexivity.
    + replace (2 * S i)%nat with (S (S (2 * i))) in Ha by lia.
      replace (2 * S i + 1)%nat with (S (S (2 * i + 1))) in Hb by lia.
      cbn in Ha, Hb. cbn [pairLevel lookup list_lookup]. apply IH; assumption.
Qed.

Lemma hashes_lookup H lo i a n :
  lo !! i = Some a → H !! a = Some n → hashes H lo !! i = Some (hash n).
Proof.
  intros Ha Hn. unfold hashes. rewrite list_lookup_fmap, Ha. cbn.
  rewrite Hn. reflexivity.
Qed.

Lemma level_hashes H lo hi :
  linked H lo hi → hashed_but sha None H lo hi →
  hashes H hi = pairLevel sha (hashes H lo).
Proof.
  intros [Hlen Hlk] Hh. apply list_eq. intros i.
  destruct (hi !! i) as [p |] eqn:Hp.
  - destruct (Hlk _ _ Hp)
      as (l & r & np & nl & nr & G1 & G2 & G3 & _ & _ & G6 & _ & G8 & _).
    rewrite (hashes_lookup _ _ _ _ _ Hp G3).
    rewrite (pairLevel_lookup _ i (hash nl) (hash nr))
      by (eapply hashes_lookup; eauto).
    f_equal. eapply (Hh i); eauto.
  - apply lookup_ge_None in Hp.
    rewrite (lookup_ge_None_2 (hashes H hi))
      by (unfold hashes; rewrite length_fmap; exact Hp).
    symmetry. apply lookup_ge_None.
    rewrite pairLevel_length. unfold hashes. rewrite length_fmap. lia.
Qed.

Lemma tower_hashes above : ∀ H r lo,
  tower H r lo above → hashes_above sha H lo above →
  hashes H [r] = Nat.iter (length above) (pairLevel sha) (hashes H lo).
Proof.
  induction above as [| hi above IH]; intros H r lo Ht Hh;
    cbn [tower hashes_above] in *.
  - destruct Ht as [-> _]. reflexivity.
  - destruct Ht as [Hl Ht], Hh as [Hh Hha].
    rewrite (IH _ _ _ Ht Hha), (level_hashes _ _ _ Hl Hh).
    cbn [length]. rewrite Nat.iter_succ_r. reflexivity.
Qed.

Lemma tree_inv_leaf_hashes els H t lo above r :
  tree_inv sha els H t lo above r → length els = length lo →
  hashes H lo = hashLeaf sha <$> els.
Proof.
  intros Hinv Hlen. apply list_eq. intros i.
  destruct (lo !! i) as [a |] eqn:Ha.
  - destruct (tower_valid H r above lo a (inv_tower _ _ _ _ _ _ _ Hinv))
      as [n Hn].
    { cbn [concat]. apply elem_of_app. left. eapply list_elem_of_lookup_2, Ha. }
    destruct (lookup_lt_is_Some_2 els i) as [e He].
    { rewrite Hlen. eapply lookup_lt_Some, Ha. }
    rewrite (hashes_lookup _ _ _ _ _ Ha Hn), list_lookup_fmap, He. cbn.
    f_equal. eapply (inv_elements _ _ _ _ _ _ _ Hinv); eauto.
  - apply lookup_ge_None in Ha.
    rewrite (lookup_ge_None_2 (hashes H lo))
      by (unfold hashes; rewrite length_fmap; exact Ha).
    symmetry. apply lookup_ge_None. rewrite length_fmap. lia.
Qed.

(** ** The walk against the reference path *)

Lemma referencePath_length h : ∀ hs j,
  length (referencePath sha h hs j).1 = h ∧
  length (referencePath sha h hs j).2 = h.
Proof.
  induction h as [| h IH]; intros hs j; [split; reflexivity |].
  cbn [referencePath]. specialize (IH (pairLevel sha hs) (j / 2)%nat).
  destruct (referencePath sha h (pairLevel sha hs) (j / 2)) as [s d].
  cbn [fst snd length] in *. lia.
Qed.

Lemma referencePath_directions h : ∀ hs j k,
  (k < h)%nat →
  (referencePath sha h hs j).2 !! k = Some (Nat.odd (j / 2 ^ k)).
Proof.
  induction h as [| h IH]; intros hs j k Hk; [lia |].
  cbn [referencePath]. specialize (IH (pairLevel sha hs) (j / 2)%nat).
  destruct (referencePath sha h (pairLevel sha hs) (j / 2)) as [s d].
  cbn [fst snd] in *. destruct k as [| k].
  - cbn [lookup list_lookup Nat.pow]. rewrite Nat.div_1_r. reflexivity.
  - cbn [lookup list_lookup]. rewrite IH by lia. f_equal. f_equal.
    cbn [Nat.pow]. rewrite Nat.Div0.div_div. reflexivity.
Qed.

Lemma parity_even j : j = (2 * (j / 2))%nat →
  Nat.odd j = false ∧ sibling_index j = (2 * (j / 2) + 1)%nat.
Proof.
  intros Hj. assert (Nat.even j = true) as He.
  { apply Nat.even_spec. exists (j / 2)%nat. exact Hj. }
  split; [rewrite <- Nat.negb_even, He; reflexivity |].
  unfold sibling_index. rewrite He. lia.
Qed.

Lemma parity_odd j : j = (2 * (j / 2) + 1)%nat →
  Nat.odd j = true ∧ sibling_index j = (2 * (j / 2))%nat.
Proof.
  intros Hj. assert (Nat.odd j = true) as Ho.
  { apply Nat.odd_spec. exists (j / 2)%nat. exact Hj. }
  split; [exact Ho |].
  unfold sibling_index. rewrite <- Nat.negb_odd, Ho. cbn [negb]. lia.
Qed.

(** The walk collects exactly the reference path over the hashes of the
    level it starts from. *)
Lemma collectPath_reference above : ∀ H r lo j a sibs dirs fuel,
  tower H r lo above → NoDup (concat (lo :: above)) →
  hashes_above sha H lo above →
  lo !! j = Some a → (length above ≤ fuel)%nat →
  collectPath fuel (Some r) (Some a) sibs dirs H
  = (Ok (sibs ++ (referencePath sha (length above) (hashes H lo) j).1,
         dirs ++ (referencePath sha (length above) (hashes H lo) j).2), H).
Proof.
  induction above as [| hi above IH];
    intros H r lo j a sibs dirs fuel Ht Hnd Hh Hj Hfuel.
  - cbn [tower] in Ht. destruct Ht as [-> _].
    apply list_lookup_singleton_Some in Hj as [_ <-].
    cbn [length referencePath fst snd]. rewrite !app_nil_r.
    destruct fuel; cbn [collectPath]; rewrite ptr_eqb_refl; reflexivity.
  - cbn [tower hashes_above] in Ht, Hh. destruct Ht as [Hl Ht], Hh as [Hh Hha].
    destruct fuel as [| fuel]; [cbn in Hfuel; lia |].
    destruct (linked_lookup _ _ _ _ _ Hl Hj)
      as (p & l & r' & np & nl & nr' & Hp & Hlo1 & Hlo2 & Hnp & Hleft & Hright
          & Hnl & Hpl & Hnr & Hpr & Hcase).
    cbn [concat] in Hnd. apply NoDup_app in Hnd as (Hndlo & Hdisj & Hndup).
    assert (a ≠ r) as Hne.
    { intros ->. eapply Hdisj; [eapply list_elem_of_lookup_2, Hj |].
      eapply tower_root_in, Ht. }
    assert (l ≠ r') as Hlr.
    { intros ->. pose proof (NoDup_lookup _ _ _ _ Hndlo Hlo1 Hlo2). lia. }
    cbn [length referencePath].
    rewrite <- (level_hashes _ _ _ Hl Hh).
    pose proof (λ s d, IH H r hi (j / 2)%nat p s d fuel Ht Hndup Hha Hp
                         ltac:(cbn in Hfuel; lia)) as Hwalk.
    destruct (referencePath sha (length above) (hashes H hi) (j / 2))
      as [S D]. cbn [fst snd] in *.
    cbn [collectPath]. rewrite ptr_eqb_ne by congruence.
    destruct Hcase as [[-> Hjeq] | [-> Hjeq]].
    + destruct (parity_even j Hjeq) as [-> ->].
      rewrite (hashes_lookup _ _ _ _ _ Hlo2 Hnr). cbn [default].
      rewrite (bind_ok _ _ _ _ _ (load_some _ _ _ Hnl)). cbv zeta.
      rewrite Hpl, (bind_ok _ _ _ _ _ (load_some _ _ _ Hnp)).
      rewrite Hleft, ptr_eqb_refl, Hright.
      rewrite (bind_ok _ _ _ _ _ (load_some _ _ _ Hnr)).
      rewrite Hwalk, <- !app_assoc. reflexivity.
    + destruct (parity_odd j Hjeq) as [-> ->].
      rewrite (hashes_lookup _ _ _ _ _ Hlo1 Hnl). cbn [default].
      rewrite (bind_ok _ _ _ _ _ (load_some _ _ _ Hnr)). cbv zeta.
      rewrite Hpr, (bind_ok _ _ _ _ _ (load_some _ _ _ Hnp)).
      rewrite Hleft, ptr_eqb_ne by congruence.
      rewrite (bind_ok _ _ _ _ _ (load_some _ _ _ Hnl)).
      rewrite Hwalk, <- !app_assoc. reflexivity.
Qed.

(** ** Further properties of the build *)

Lemma store_no_error p n H e H' : store p n H ≠ (Err e, H').
Proof.
  unfold store. destruct p as [a |]; [| discriminate].
  destruct (decide (a < length H)%nat); discriminate.
Qed.

Lemma set_parent_no_error p q H e H' : set_parent p q H ≠ (Err e, H').
Proof.
  unfold set_parent. apply bind_no_error; [intros; apply load_no_error |].
  intros; apply store_no_error.
Qed.

Lemma buildLevel_no_error lv : ∀ H e H', buildLevel sha lv H ≠ (Err e, H').
Proof.
  induction lv as [| x | x y lv IH] using pair_ind; intros H e H';
    cbn [buildLevel]; try discriminate.
  apply bind_no_error; [intros; apply load_no_error |]. intros ln H1 H2.
  apply bind_no_error; [intros; apply load_no_error |]. intros rn H3 H4.
  apply bind_no_error; [discriminate |]. intros p H5 H6.
  apply bind_no_error; [intros; apply set_parent_no_error |]. intros [] H7 H8.
  apply bind_no_error; [intros; apply set_parent_no_error |]. intros [] H9 H10.
  apply bind_no_error; [intros; apply IH |]. discriminate.
Qed.

Lemma buildLevels_no_error fuel : ∀ lv all H e H',
  buildLevels sha fuel lv all H ≠ (Err e, H').
Proof.
  induction fuel as [| fuel IH]; intros lv all H e H'; cbn [buildLevels];
    destruct (1 <? len lv); try discriminate.
  apply bind_no_error; [intros; apply buildLevel_no_error |].
  intros; apply IH.
Qed.

(** X1. [NewMerkleTree] returns an error exactly for the empty input; the
    error is then [EmptyInputError] and nothing has been allocated.  It
    always ends: for a non-empty input the outcome is a tree or a panic. *)
Theorem NewMerkleTree_error_iff_empty elements :
  (∀ e H', NewMerkleTree sha elements [] = (Err e, H') ↔
           elements = [] ∧ e = EmptyInputError ∧ H' = []) ∧
  (elements ≠ [] →
   ∃ H', (∃ t, NewMerkleTree sha elements [] = (Ok t, H')) ∨
         (∃ p, NewMerkleTree sha elements [] = (Panic p, H'))).
Proof.
  assert (∀ e H', NewMerkleTree sha elements [] = (Err e, H') →
                  elements = [] ∧ e = EmptyInputError ∧ H' = []) as Herr.
  { intros e H'. unfold NewMerkleTree. destruct elements as [| x elements].
    { cbn. intros [= <- <-]. auto. }
    replace (len (x :: elements) =? 0) with false
      by (symmetry; apply Z.eqb_neq; unfold len; cbn; lia).
    intros Hrun. exfalso. revert Hrun.
    rewrite (bind_ok _ _ _ _ _ (allocLeaves_spec _ [])).
    rewrite (bind_ok _ _ _ _ _ (padLeaves_spec _ _ _)).
    destruct (int_wrap _ <? 0); [discriminate |].
    apply bind_no_error; [intros; apply buildLevels_no_error |].
    intros [top all] H1 H2.
    apply bind_no_error; [intros; apply index_no_error |]. intros rt H3 H4.
    destruct (_ <? 0); discriminate. }
  split.
  - intros e H'. split; [apply Herr |]. intros (-> & -> & ->). reflexivity.
  - intros Hne.
    destruct (NewMerkleTree sha elements []) as [[t | e | p |] H'] eqn:Hrun.
    + exists H'. left. eauto.
    + destruct (Herr e H' eq_refl) as (-> & _). contradiction.
    + exists H'. right. eauto.
    + exfalso. exact (NewMerkleTree_fuel elements H' Hrun).
Qed.

(** X2. For 1 to [2 ^ 32] elements [NewMerkleTree] returns a tree, and the
    number of its leaves is the smallest power of two that is at least the
    number of elements. *)
Theorem NewMerkleTree_up_to_2_32 elements :
  0 < len elements ≤ 2 ^ 32 →
  ∃ t H,
    NewMerkleTree sha elements [] = (Ok t, H) ∧
    is_power_of_two (len (leaves t)) ∧
    len elements ≤ len (leaves t) ∧
    ∀ z, is_power_of_two z → len elements ≤ z → len (leaves t) ≤ z.
Proof.
  intros Hn. destruct (NewMerkleTree_total elements Hn) as (t & H & Hnew).
  exists t, H. split; [exact Hnew |].
  destruct (NewMerkleTree_full _ _ _ Hnew) as (lo & above & r & _ & Hlv & _ & _ & _ & Hreq);
    [lia |].
  assert (len (leaves t) = getNextPowerOfTwo (len elements)) as ->.
  { unfold len at 1. rewrite Hlv, length_fmap. exact Hreq. }
  apply getNextPowerOfTwo_small, Hn.
Qed.

(** X3. For [0 < n <= 2 ^ 32], [getNextPowerOfTwo n] is the smallest power
    of two that is at least [n]. *)
Theorem getNextPowerOfTwo_correct_up_to_2_32 n :
  0 < n ≤ 2 ^ 32 →
  is_power_of_two (getNextPowerOfTwo n) ∧
  n ≤ getNextPowerOfTwo n ∧
  ∀ z, is_power_of_two z → n ≤ z → getNextPowerOfTwo n ≤ z.
Proof. apply getNextPowerOfTwo_small. Qed.

(** X4. Whenever [NewMerkleTree] returns a tree (for an input of Go size),
    its leaves are [2 ^ h] distinct nodes for some height [h], at least as
    many as the elements, and the heap holds [2 * 2 ^ h - 1] nodes in
    all. *)
Theorem NewMerkleTree_shape elements t H :
  NewMerkleTree sha elements [] = (Ok t, H) → len elements < 2 ^ 63 →
  ∃ h : nat,
    leaves t = Some <$> seq 0 (2 ^ h) ∧
    (length elements ≤ 2 ^ h)%nat ∧
    length H = (2 * 2 ^ h - 1)%nat.
Proof.
  intros Hnew Hsmall.
  destruct (NewMerkleTree_full _ _ _ Hnew Hsmall)
    as (lo & above & r & Hinv & Hlv & _ & Hseq & Hle & _).
  pose proof (tower_pow _ _ _ _ (inv_tower _ _ _ _ _ _ _ Hinv)) as Hpow.
  exists (length above). rewrite <- Hpow.
  split; [rewrite Hlv, Hseq at 1; reflexivity |]. split; [exact Hle |].
  eapply tree_inv_heap_size, Hinv.
Qed.

(** ** Proofs and roots in reachable states *)

(** X5. In every reachable state, after any number of updates, [GetProof]
    at a valid index returns a proof that starts at the leaf hash of the
    element now at that index and that [VerifyProof] accepts against the
    current root. *)
Theorem GetProof_verifies_in_reachable_states els H t idx :
  reachable sha els H t → 0 ≤ idx < len (leaves t) →
  ∃ proof rootHash e,
    GetProof t idx H = (Ok proof, H) ∧
    getRoot t H = (Ok rootHash, H) ∧
    VerifyProof sha rootHash proof = Ok true ∧
    els !! Z.to_nat idx = Some e ∧
    hElement proof = hashLeaf sha e.
Proof.
  intros Hreach Hidx.
  destruct (reachable_inv _ _ _ Hreach) as (lo & above & r & Hinv).
  destruct (GetProof_verifies Hinv idx Hidx)
    as (proof & rootHash & Hget & Hroot & Hver & a & n & Ha & Hn & Hel).
  destruct (lookup_lt_is_Some_2 els (Z.to_nat idx)) as [e He].
  { pose proof (inv_length _ _ _ _ _ _ _ Hinv). unfold len in Hidx. lia. }
  exists proof, rootHash, e. repeat (split; [assumption |]).
  rewrite Hel. eapply (inv_elements _ _ _ _ _ _ _ Hinv); eauto.
Qed.

Lemma log2_leaves H r lo above :
  tower H r lo above → Nat.log2 (length lo) = length above.
Proof.
  intros Ht. rewrite (tower_pow _ _ _ _ Ht). apply Nat.log2_pow2. lia.
Qed.

Lemma getRoot_reference els H t :
  reachable sha els H t → len els < 2 ^ 63 →
  getRoot t H = (Ok (referenceRoot sha (hashLeaf sha <$> els)), H).
Proof.
  intros Hreach Hsmall.
  destruct (reachable_full _ _ _ Hreach Hsmall)
    as (lo & above & r & Hinv & Hlv & Hlen).
  pose proof (inv_tower _ _ _ _ _ _ _ Hinv) as Ht.
  destruct (inv_root_node Hinv) as (nr & Hnr & _).
  rewrite (getRoot_inv Hinv _ Hnr). f_equal. f_equal.
  unfold referenceRoot. rewrite length_fmap, Hlen, (log2_leaves _ _ _ _ Ht).
  rewrite <- (tree_inv_leaf_hashes _ _ _ _ _ _ Hinv Hlen).
  rewrite <- (tower_hashes _ _ _ _ Ht (inv_hashes _ _ _ _ _ _ _ Hinv)).
  unfold hashes. cbn. rewrite Hnr. reflexivity.
Qed.

Lemma GetProof_reference els H t idx :
  reachable sha els H t → len els < 2 ^ 63 →
  0 ≤ idx < len (leaves t) →
  GetProof t idx H
  = (Ok (referenceProof sha (hashLeaf sha <$> els) (Z.to_nat idx)), H).
Proof.
  intros Hreach Hsmall Hidx.
  destruct (reachable_full _ _ _ Hreach Hsmall)
    as (lo & above & r & Hinv & Hlv & Hlen).
  pose proof (inv_tower _ _ _ _ _ _ _ Hinv) as Ht.
  pose proof (inv_nodup _ _ _ _ _ _ _ Hinv) as Hnd.
  destruct (inv_leaf Hinv idx Hidx) as (a & n & Hleaf & Ha & Hn).
  pose proof (collectPath_reference above H r lo (Z.to_nat idx) a [] []
                (length H) Ht Hnd (inv_hashes _ _ _ _ _ _ _ Hinv) Ha
                (tower_fuel _ _ _ _ Ht Hnd)) as Hwalk.
  cbn [app] in Hwalk.
  unfold referenceProof. rewrite length_fmap, Hlen, (log2_leaves _ _ _ _ Ht).
  rewrite <- (tree_inv_leaf_hashes _ _ _ _ _ _ Hinv Hlen).
  rewrite (hashes_lookup _ _ _ _ _ Ha Hn). cbn [default].
  destruct (referencePath sha (length above) (hashes H lo) (Z.to_nat idx))
    as [S D]. cbn [fst snd] in Hwalk.
  unfold GetProof.
  replace (int_of_uint64 idx >=? len (leaves t)) with false.
  2:{ symmetry. rewrite Z.geb_leb. apply Z.leb_gt.
      pose proof (int_of_uint64_le idx). lia. }
  destruct (index_in_range (leaves t) idx H Hidx) as (p & Hp & Hix).
  assert (p = Some a) as -> by congruence.
  rewrite (bind_ok _ _ _ _ _ Hix).
  unfold walk_fuel at 1. unfold bind at 1.
  rewrite (inv_root _ _ _ _ _ _ _ Hinv).
  rewrite (bind_ok _ _ _ _ _ Hwalk).
  rewrite (bind_ok _ _ _ _ _ Hix).
  rewrite (bind_ok _ _ _ _ _ (load_some _ _ _ Hn)). reflexivity.
Qed.

(** X6. In a reachable state [GetProof] returns exactly the reference
    proof over the leaf hashes of the current elements: the leaf's hash,
    the hashes next to the path in the pairwise-hashed levels, and the
    parities of the index as directions. *)
Theorem GetProof_is_reference_proof els H t idx :
  reachable sha els H t → len els < 2 ^ 63 →
  0 ≤ idx < len (leaves t) →
  GetProof t idx H
  = (Ok (referenceProof sha (hashLeaf sha <$> els) (Z.to_nat idx)), H).
Proof. apply GetProof_reference. Qed.

(** X7. A proof returned by [GetProof] has one sibling and one direction
    per level, [log2] of the number of leaves in all, and direction [k]
    tells whether [idx / 2 ^ k] is odd. *)
Theorem GetProof_size_and_directions els H t idx proof :
  reachable sha els H t → len els < 2 ^ 63 →
  0 ≤ idx < len (leaves t) →
  GetProof t idx H = (Ok proof, H) →
  length (siblings proof) = Nat.log2 (length (leaves t)) ∧
  length (directions proof) = Nat.log2 (length (leaves t)) ∧
  (2 ^ length (siblings proof))%nat = length (leaves t) ∧
  ∀ k, (k < length (directions proof))%nat →
       directions proof !! k = Some (Nat.odd (Z.to_nat idx / 2 ^ k)).
Proof.
  intros Hreach Hsmall Hidx Hget.
  rewrite (GetProof_reference _ _ _ _ Hreach Hsmall Hidx) in Hget.
  injection Hget as <-.
  destruct (reachable_full _ _ _ Hreach Hsmall)
    as (lo & above & r & Hinv & Hlv & Hlen).
  pose proof (inv_tower _ _ _ _ _ _ _ Hinv) as Ht.
  unfold referenceProof. rewrite length_fmap, Hlv, length_fmap, Hlen.
  rewrite (log2_leaves _ _ _ _ Ht).
  pose proof (referencePath_length (length above) (hashLeaf sha <$> els)
                (Z.to_nat idx)) as [HS HD].
  pose proof (referencePath_directions (length above) (hashLeaf sha <$> els)
                (Z.to_nat idx)) as Hdir.
  destruct (referencePath sha (length above) (hashLeaf sha <$> els)
              (Z.to_nat idx)) as [S D].
  cbn [fst snd siblings directions] in *.
  rewrite HS, HD. repeat split.
  - symmetry. eapply tower_pow, Ht.
  - exact Hdir.
Qed.

(** X8. In a reachable state the root hash is the reference root over the
    leaf hashes of the current elements: the root that bottom-up pairwise
    hashing computes. *)
Theorem getRoot_is_reference_root els H t :
  reachable sha els H t → len els < 2 ^ 63 →
  getRoot t H = (Ok (referenceRoot sha (hashLeaf sha <$> els)), H).
Proof. apply getRoot_reference. Qed.

(** X9. Updating element [idx] of a built tree gives the root hash that
    building from the list with element [idx] replaced gives. *)
Theorem UpdateElement_agrees_with_rebuild elements idx x :
  0 < len elements ≤ 2 ^ 32 → 0 ≤ idx < len elements →
  ∃ t H H' t2 H2 rootHash,
    NewMerkleTree sha elements [] = (Ok t, H) ∧
    UpdateElement sha t idx x H = (Ok tt, H') ∧
    NewMerkleTree sha (<[Z.to_nat idx := x]> elements) [] = (Ok t2, H2) ∧
    getRoot t H' = (Ok rootHash, H') ∧
    getRoot t2 H2 = (Ok rootHash, H2).
Proof.
  intros Hn Hidx.
  destruct (NewMerkleTree_total elements Hn) as (t & H & Hnew).
  destruct (NewMerkleTree_total (<[Z.to_nat idx := x]> elements))
    as (t2 & H2 & Hnew2).
  { unfold len in *. rewrite length_insert. exact Hn. }
  destruct (NewMerkleTree_full _ _ _ Hnew)
    as (lo & above & r & Hinv & Hlv & Hplen & _ & Hle & Hreq); [lia |].
  destruct (NewMerkleTree_full _ _ _ Hnew2)
    as (lo2 & above2 & r2 & _ & Hlv2 & Hplen2 & _ & _ & Hreq2).
  { unfold len in *. rewrite length_insert. lia. }
  assert (length (leaves t2) = length (leaves t)) as Hsame.
  { rewrite Hlv, Hlv2, !length_fmap. unfold len in Hreq2.
    rewrite length_insert in Hreq2. fold (len elements) in Hreq2. lia. }
  assert (0 ≤ idx < len (leaves t)) as Hidx'.
  { unfold len in *. rewrite Hlv, length_fmap. lia. }
  destruct (UpdateElement_inv _ _ _ _ _ _ idx x Hinv Hidx')
    as (H' & Hupd & _).
  pose proof (reach_new sha _ _ _ Hnew) as Hreach.
  pose proof (reach_update sha _ _ _ idx x _ Hreach
                ltac:(unfold is_uint64, len in *; lia) Hupd) as Hreach'.
  pose proof (reach_new sha _ _ _ Hnew2) as Hreach2.
  assert (len (padded elements t) < 2 ^ 63) as Hsmall.
  { unfold len in *. rewrite Hplen.
    pose proof (getNextPowerOfTwo_range (Z.of_nat (length elements))). lia. }
  exists t, H, H', t2, H2,
    (referenceRoot sha
       (hashLeaf sha <$> <[Z.to_nat idx := x]> (padded elements t))).
  split; [exact Hnew |]. split; [exact Hupd |]. split; [exact Hnew2 |]. split.
  - apply getRoot_reference; [exact Hreach' |].
    unfold len in *. rewrite length_insert. exact Hsmall.
  - replace (<[Z.to_nat idx := x]> (padded elements t))
      with (padded (<[Z.to_nat idx := x]> elements) t2).
    + apply getRoot_reference; [exact Hreach2 |].
      unfold len in *. rewrite Hplen2.
      pose proof (getNextPowerOfTwo_range
                    (Z.of_nat (length (<[Z.to_nat idx := x]> elements)))). lia.
    + unfold padded. rewrite Hsame, length_insert.
      symmetry. apply insert_app_l. unfold len in Hidx. lia.
Qed.

(** ** What an update touches *)

(** X10. A successful [UpdateElement] allocates nothing and changes no
    [left], [right] or [parent] pointer, and the proofs of all other
    indices keep their [hElement]. *)
Theorem UpdateElement_frame els H t idx x H' :
  reachable sha els H t → 0 ≤ idx < len (leaves t) →
  UpdateElement sha t idx x H = (Ok tt, H') →
  length H' = length H ∧
  same_shape H H' ∧
  ∀ j p p', 0 ≤ j < len (leaves t) → j ≠ idx →
            GetProof t j H = (Ok p, H) → GetProof t j H' = (Ok p', H') →
            hElement p' = hElement p.
Proof.
  intros Hreach Hidx Hupd.
  destruct (reachable_inv _ _ _ Hreach) as (lo & above & r & Hinv).
  destruct (UpdateElement_inv _ _ _ _ _ _ idx x Hinv Hidx)
    as (H2 & Hrun & Hinv' & Hshape & Hfr).
  rewrite Hrun in Hupd. injection Hupd as <-.
  split; [symmetry; apply same_shape_length, Hshape |].
  split; [exact Hshape |].
  intros j p p' Hj Hne Hp Hp'.
  destruct (inv_leaf Hinv idx Hidx) as (ai & ni & _ & Hai & _).
  destruct (inv_leaf Hinv j Hj) as (a & n & _ & Ha & Hn).
  destruct (inv_root_node Hinv) as (nr & Hnr & _).
  destruct (inv_root_node Hinv') as (nr' & Hnr' & _).
  pose proof (inv_nodup _ _ _ _ _ _ _ Hinv) as Hnd.
  cbn [concat] in Hnd. apply NoDup_app in Hnd as (Hndlo & Hdisj & _).
  assert (H2 !! a = Some n) as Hn'.
  { rewrite Hfr; [exact Hn | apply Hdisj; eapply list_elem_of_lookup_2, Ha |].
    rewrite Hai. intros [= ->].
    pose proof (NoDup_lookup _ _ _ _ Hndlo Ha Hai). lia. }
  destruct (GetProof_inv Hinv j a n nr Hj Ha Hn Hnr) as (S & D & Hg & _).
  destruct (GetProof_inv Hinv' j a n nr' Hj Ha Hn' Hnr') as (S' & D' & Hg' & _).
  rewrite Hg in Hp. rewrite Hg' in Hp'.
  injection Hp as <-. injection Hp' as <-. reflexivity.
Qed.

(** Two hashed heaps over the same tower with the same pointers and the
    same leaf hashes are the same heap. *)
Lemma tower_hashes_agree above : ∀ H H' r lo,
  tower H r lo above → tower H' r lo above →
  hashes_above sha H lo above → hashes_above sha H' lo above →
  (∀ a, a ∈ lo → hash <$> H !! a = hash <$> H' !! a) →
  ∀ a, a ∈ concat (lo :: above) → hash <$> H !! a = hash <$> H' !! a.
Proof.
  induction above as [| hi above IH];
    intros H H' r lo Ht Ht' Hh Hh' Hlo a Ha.
  - cbn in Ha. rewrite app_nil_r in Ha. apply Hlo, Ha.
  - cbn [tower hashes_above concat] in *.
    destruct Ht as [Hl Ht], Ht' as [Hl' Ht'], Hh as [Hh Hha], Hh' as [Hh' Hha'].
    apply elem_of_app in Ha as [Ha | Ha]; [apply Hlo, Ha |].
    apply (IH H H' r hi Ht Ht' Hha Hha'); [| exact Ha].
    intros p Hp. apply list_elem_of_lookup in Hp as [i Hi].
    destruct Hl as [_ Hl2]. destruct Hl' as [_ Hl2'].
    destruct (Hl2 _ _ Hi)
      as (l1 & r1 & np & nl & nr & G1 & G2 & G3 & _ & _ & G6 & _ & G8 & _).
    destruct (Hl2' _ _ Hi)
      as (l2 & r2 & np' & nl' & nr' & G1' & G2' & G3' & _ & _ & G6' & _ & G8' & _).
    assert (l2 = l1) as -> by congruence.
    assert (r2 = r1) as -> by congruence.
    pose proof (Hlo l1 (list_elem_of_lookup_2 _ _ _ G1)) as El.
    pose proof (Hlo r1 (list_elem_of_lookup_2 _ _ _ G2)) as Er.
    rewrite G6, G6' in El. rewrite G8, G8' in Er. cbn in El, Er.
    injection El as El. injection Er as Er.
    rewrite G3, G3'. cbn. f_equal.
    rewrite (hashed_but_None _ _ _ _ _ _ _ _ _ _ Hh Hi G1 G2 G3 G6 G8).
    rewrite (hashed_but_None _ _ _ _ _ _ _ _ _ _ Hh' Hi G1' G2' G3' G6' G8').
    congruence.
Qed.

Lemma heap_determined els H H' t lo above r :
  tree_inv sha els H t lo above r → tree_inv sha els H' t lo above r →
  same_shape H H' → length els = length lo → H = H'.
Proof.
  intros Hinv Hinv' Hshape Hlen. apply list_eq. intros a.
  destruct (H !! a) as [n |] eqn:Hn.
  - destruct (same_shape_lookup _ _ _ _ Hshape Hn) as (n' & Hn' & El & Er & Ep).
    assert (hash <$> H !! a = hash <$> H' !! a) as Eh.
    { eapply (tower_hashes_agree above H H' r lo).
      - apply (inv_tower _ _ _ _ _ _ _ Hinv).
      - apply (inv_tower _ _ _ _ _ _ _ Hinv').
      - apply (inv_hashes _ _ _ _ _ _ _ Hinv).
      - apply (inv_hashes _ _ _ _ _ _ _ Hinv').
      - intros b Hb.
        apply list_elem_of_lookup in Hb as [i Hi].
        pose proof (tree_inv_leaf_hashes _ _ _ _ _ _ Hinv Hlen) as E1.
        pose proof (tree_inv_leaf_hashes _ _ _ _ _ _ Hinv' Hlen) as E2.
        apply (f_equal (λ l : list string, l !! i)) in E1, E2. cbn beta in E1, E2.
        rewrite <- E2 in E1. unfold hashes in E1.
        rewrite !list_lookup_fmap, Hi in E1. cbn in E1.
        injection E1 as E1.
        destruct (tower_valid H r above lo b (inv_tower _ _ _ _ _ _ _ Hinv))
          as [nb Hnb].
        { cbn [concat]. apply elem_of_app. left.
          eapply list_elem_of_lookup_2, Hi. }
        destruct (tower_valid H' r above lo b (inv_tower _ _ _ _ _ _ _ Hinv'))
          as [nb' Hnb'].
        { cbn [concat]. apply elem_of_app. left.
          eapply list_elem_of_lookup_2, Hi. }
        rewrite Hnb, Hnb' in *. cbn in *. f_equal. exact E1.
      - apply (inv_cover _ _ _ _ _ _ _ Hinv). eapply lookup_lt_Some, Hn. }
    rewrite Hn, Hn' in Eh. cbn in Eh. injection Eh as Eh.
    rewrite Hn'. f_equal. destruct n, n'. cbn in *. congruence.
  - specialize (Hshape a). rewrite Hn in Hshape.
    destruct (H' !! a); [contradiction | reflexivity].
Qed.

(** X11. Updating an index with the element it already holds leaves the
    whole heap as it was. *)
Theorem UpdateElement_same_element els H t idx e :
  reachable sha els H t → len els < 2 ^ 63 →
  0 ≤ idx < len (leaves t) →
  els !! Z.to_nat idx = Some e →
  UpdateElement sha t idx e H = (Ok tt, H).
Proof.
  intros Hreach Hsmall Hidx He.
  destruct (reachable_full _ _ _ Hreach Hsmall)
    as (lo & above & r & Hinv & Hlv & Hlen).
  destruct (UpdateElement_inv _ _ _ _ _ _ idx e Hinv Hidx)
    as (H' & Hrun & Hinv' & Hshape & _).
  rewrite list_insert_id in Hinv' by exact He.
  rewrite Hrun. f_equal. symmetry.
  eapply heap_determined; eauto.
Qed.

(** X12. Updates at two different indices commute: either order ends in
    the same heap. *)
Theorem UpdateElement_commutes els H t i x j y :
  reachable sha els H t → len els < 2 ^ 63 →
  0 ≤ i < len (leaves t) → 0 ≤ j < len (leaves t) → i ≠ j →
  ∃ H',
    (UpdateElement sha t i x;; UpdateElement sha t j y) H = (Ok tt, H') ∧
    (UpdateElement sha t j y;; UpdateElement sha t i x) H = (Ok tt, H').
Proof.
  intros Hreach Hsmall Hi Hj Hne.
  destruct (reachable_full _ _ _ Hreach Hsmall)
    as (lo & above & r & Hinv & Hlv & Hlen).
  destruct (UpdateElement_inv _ _ _ _ _ _ i x Hinv Hi)
    as (H1 & Hrun1 & Hinv1 & Hs1 & _).
  destruct (UpdateElement_inv _ _ _ _ _ _ j y Hinv1 Hj)
    as (H12 & Hrun12 & Hinv12 & Hs12 & _).
  destruct (UpdateElement_inv _ _ _ _ _ _ j y Hinv Hj)
    as (H2 & Hrun2 & Hinv2 & Hs2 & _).
  destruct (UpdateElement_inv _ _ _ _ _ _ i x Hinv2 Hi)
    as (H21 & Hrun21 & Hinv21 & Hs21 & _).
  exists H12. split.
  - rewrite (bind_ok _ _ _ _ _ Hrun1). exact Hrun12.
  - rewrite (bind_ok _ _ _ _ _ Hrun2). rewrite Hrun21. f_equal.
    rewrite list_insert_insert_ne in Hinv21 by lia.
    eapply heap_determined; [exact Hinv21 | exact Hinv12 | |].
    + eapply same_shape_trans; [apply same_shape_sym, Hs21 |].
      eapply same_shape_trans; [apply same_shape_sym, Hs2 |].
      eapply same_shape_trans; [exact Hs1 | exact Hs12].
    + rewrite !length_insert. exact Hlen.
Qed.

(** ** Index and range checks below [2 ^ 63] *)

(** X13. For an index below [2 ^ 63], [GetProof] on a reachable tree
    returns [IndexOutOfBoundsError] exactly when the index is at or past
    the number of leaves, returns a proof otherwise, and never changes the
    heap. *)
Theorem GetProof_bounds_below_2_63 els H t idx :
  reachable sha els H t → 0 ≤ idx < 2 ^ 63 →
  (GetProof t idx H).2 = H ∧
  ((GetProof t idx H).1 = Err IndexOutOfBoundsError ↔ len (leaves t) ≤ idx) ∧
  (idx < len (leaves t) → ∃ proof, (GetProof t idx H).1 = Ok proof).
Proof.
  intros Hreach Hidx.
  destruct (reachable_inv _ _ _ Hreach) as (lo & above & r & Hinv).
  destruct (Z_lt_le_dec idx (len (leaves t))) as [Hlt | Hge].
  - destruct (GetProof_verifies Hinv idx) as (proof & rootHash & Hget & _);
      [lia |].
    rewrite Hget. cbn [fst snd]. split; [reflexivity |]. split.
    + split; [discriminate | lia].
    + intros _. eauto.
  - rewrite GetProof_index_check by lia. cbn [fst snd].
    split; [reflexivity |]. split; [tauto | lia].
Qed.

(** X14. [UpdateElement] on a reachable tree: an index at or past the number
    of leaves makes the call fail and leaves the heap untouched; below
    [2 ^ 63] the failure is [IndexOutOfBoundsError], and only then; an index
    below the number of leaves succeeds. *)
Theorem UpdateElement_bounds els H t idx x :
  reachable sha els H t → is_uint64 idx →
  (len (leaves t) ≤ idx →
   (UpdateElement sha t idx x H).2 = H ∧
   (UpdateElement sha t idx x H).1 ≠ Ok tt) ∧
  (idx < 2 ^ 63 →
   ((UpdateElement sha t idx x H).1 = Err IndexOutOfBoundsError
    ↔ len (leaves t) ≤ idx)) ∧
  (idx < len (leaves t) → (UpdateElement sha t idx x H).1 = Ok tt).
Proof.
  intros Hreach Hidx. unfold is_uint64 in Hidx.
  destruct (reachable_inv _ _ _ Hreach) as (lo & above & r & Hinv).
  assert (idx < len (leaves t) → (UpdateElement sha t idx x H).1 = Ok tt) as Hok.
  { intros Hlt.
    destruct (UpdateElement_inv _ _ _ _ _ _ idx x Hinv) as (H' & Hrun & _);
      [lia |].
    rewrite Hrun. reflexivity. }
  split; [| split; [| exact Hok]].
  - intros Hge. rewrite UpdateElement_out_of_range by exact Hge.
    cbn [fst snd]. split; [reflexivity |].
    destruct (int_of_uint64 idx >=? len (leaves t)); discriminate.
  - intros Hsmall. split.
    + intros Herr. destruct (Z_lt_le_dec idx (len (leaves t))) as [Hlt | Hge];
        [| exact Hge].
      rewrite (Hok Hlt) in Herr. discriminate.
    + intros Hge. rewrite UpdateElement_index_check by lia. reflexivity.
Qed.

Lemma GetAggregatedProof_walk els H t lo above r s e a n nr :
  tree_inv sha els H t lo above r →
  0 ≤ s < e → e ≤ len (leaves t) → e < 2 ^ 63 →
  lo !! Z.to_nat s = Some a → H !! a = Some n → H !! r = Some nr →
  ∃ S D,
    GetAggregatedProof t s e H
    = (Ok {| start := s; end_ := e; aggSiblings := S; aggDirections := D |},
       H) ∧
    GetProof t s H
    = (Ok {| hElement := hash n; siblings := S; directions := D |}, H) ∧
    length S = length D ∧
    fold_path sha (hash n) S D = hash nr.
Proof.
  intros Hinv Hse Hel Hesmall Ha Hn Hr.
  assert (0 ≤ s < len (leaves t)) as Hs by lia.
  destruct (inv_leaf Hinv s Hs) as (a' & n' & Hleaf & Ha' & Hn').
  assert (a' = a) as -> by congruence. clear n' Hn' Ha'.
  pose proof (inv_tower _ _ _ _ _ _ _ Hinv) as Ht.
  pose proof (inv_nodup _ _ _ _ _ _ _ Hinv) as Hnd.
  destruct (collectPath_tower above H r lo (Z.to_nat s) a [] [] (length H)
              Ht Hnd Ha (tower_fuel _ _ _ _ Ht Hnd))
    as (S & D & Hwalk & HS & HD & Hfold).
  cbn [app] in Hwalk.
  destruct (index_in_range (leaves t) s H Hs) as (p & Hp & Hix).
  assert (p = Some a) as -> by congruence.
  exists S, D. split; [| split; [| split; [congruence |]]].
  - unfold GetAggregatedProof, int_of_uint64, uint64_sub.
    rewrite int_wrap_small by lia.
    replace ((s >=? e) || (e >? len (leaves t))) with false
      by (symmetry; apply orb_false_iff; lia).
    replace ((e - s) `mod` 2 ^ 64 <? 1) with false by (symmetry; lia).
    rewrite (bind_ok _ _ _ _ _ Hix).
    unfold walk_fuel at 1. unfold bind at 1.
    rewrite (inv_root _ _ _ _ _ _ _ Hinv).
    rewrite (bind_ok _ _ _ _ _ Hwalk). reflexivity.
  - unfold GetProof.
    replace (int_of_uint64 s >=? len (leaves t)) with false.
    2:{ symmetry. rewrite Z.geb_leb. apply Z.leb_gt.
        pose proof (int_of_uint64_le s). lia. }
    rewrite (bind_ok _ _ _ _ _ Hix).
    unfold walk_fuel at 1. unfold bind at 1.
    rewrite (inv_root _ _ _ _ _ _ _ Hinv).
    rewrite (bind_ok _ _ _ _ _ Hwalk).
    rewrite (bind_ok _ _ _ _ _ Hix).
    rewrite (bind_ok _ _ _ _ _ (load_some _ _ _ Hn)). reflexivity.
  - apply Hfold; [apply (inv_hashes _ _ _ _ _ _ _ Hinv) | exact Hn | exact Hr].
Qed.

(** X15. For [uint64] bounds with [endIndex < 2 ^ 63], [GetAggregatedProof]
    on a reachable tree returns [InvalidRangeError] exactly when
    [startIndex >= endIndex] or [endIndex > len(leaves)], returns a proof
    carrying the two bounds otherwise, never returns [RangeTooSmallError],
    and never changes the heap. *)
Theorem GetAggregatedProof_range_below_2_63 els H t s e :
  reachable sha els H t → is_uint64 s → 0 ≤ e < 2 ^ 63 →
  (GetAggregatedProof t s e H).2 = H ∧
  ((GetAggregatedProof t s e H).1 = Err InvalidRangeError
   ↔ e ≤ s ∨ len (leaves t) < e) ∧
  (GetAggregatedProof t s e H).1 ≠ Err RangeTooSmallError ∧
  (s < e ≤ len (leaves t) →
   ∃ p, (GetAggregatedProof t s e H).1 = Ok p ∧ start p = s ∧ end_ p = e).
Proof.
  intros Hreach Hs He. unfold is_uint64 in Hs.
  destruct (reachable_inv _ _ _ Hreach) as (lo & above & r & Hinv).
  destruct (Z_le_gt_dec e s) as [Hbad | Hlt];
    [| destruct (Z_lt_le_dec (len (leaves t)) e) as [Hbad | Hle]].
  1,2: rewrite GetAggregatedProof_range_check by lia; cbn [fst snd];
       (split; [reflexivity |]); (split; [split; [lia | reflexivity] |]);
       (split; [discriminate | lia]).
  assert (0 ≤ s < len (leaves t)) as Hin by lia.
  destruct (inv_leaf Hinv s Hin) as (a & n & _ & Ha & Hn).
  destruct (inv_root_node Hinv) as (nr & Hnr & _).
  destruct (GetAggregatedProof_walk _ _ _ _ _ _ s e a n nr Hinv)
    as (S & D & Hagg & _); try assumption; try lia.
  rewrite Hagg. cbn [fst snd]. split; [reflexivity |].
  split; [split; [discriminate | lia] |]. split; [discriminate |].
  intros _. eexists. split; [reflexivity |]. split; reflexivity.
Qed.

(** ** Aggregated proofs *)

(** X16. For a range [start < end <= len(leaves)] of a reachable tree,
    [GetAggregatedProof] returns the siblings and directions that
    [GetProof] returns for [start], and [VerifyAggregatedProof] accepts the
    result against the root. *)
Theorem GetAggregatedProof_round_trip els H t s e :
  reachable sha els H t → 0 ≤ s < e → e ≤ len (leaves t) →
  ∃ agg proof rootHash,
    GetAggregatedProof t s e H = (Ok agg, H) ∧
    GetProof t s H = (Ok proof, H) ∧
    start agg = s ∧ end_ agg = e ∧
    aggSiblings agg = siblings proof ∧
    aggDirections agg = directions proof ∧
    getRoot t H = (Ok rootHash, H) ∧
    VerifyAggregatedProof sha rootHash agg t H = (Ok true, H).
Proof.
  intros Hreach Hse Hel.
  pose proof (reachable_leaves_bound _ _ _ Hreach) as Hb.
  destruct (reachable_inv _ _ _ Hreach) as (lo & above & r & Hinv).
  assert (0 ≤ s < len (leaves t)) as Hin by lia.
  destruct (inv_leaf Hinv s Hin) as (a & n & Hleaf & Ha & Hn).
  destruct (inv_root_node Hinv) as (nr & Hnr & _).
  destruct (GetAggregatedProof_walk _ _ _ _ _ _ s e a n nr Hinv)
    as (S & D & Hagg & Hget & Hlen & Hfold); try assumption; try lia.
  eexists _, _, (hash nr). split; [exact Hagg |]. split; [exact Hget |].
  cbn [start end_ aggSiblings aggDirections siblings directions].
  repeat (split; [reflexivity |]).
  split; [apply (getRoot_inv Hinv), Hnr |].
  unfold VerifyAggregatedProof, uint64_of_int.
  cbn [start end_ aggSiblings aggDirections].
  pose proof (len_nonneg (leaves t)).
  replace ((s >=? e) || (e >? len (leaves t) `mod` 2 ^ 64)) with false
    by (symmetry; apply orb_false_iff; lia).
  destruct (index_in_range (leaves t) s H Hin) as (p & Hp & Hix).
  assert (p = Some a) as -> by congruence.
  rewrite (bind_ok _ _ _ _ _ Hix).
  rewrite (bind_ok _ _ _ _ _ (load_some _ _ _ Hn)).
  pose proof (replay_fold S (hash n) [] D) as Hrep. cbn [length app] in Hrep.
  rewrite Hrep by lia. rewrite Hfold, String.eqb_refl. reflexivity.
Qed.

(** X17. On a reachable tree and for [start < end <= len(leaves)],
    [VerifyAggregatedProof] is [VerifyProof] of the proof made of the hash
    stored at [leaves[start]] and the aggregated proof's siblings and
    directions; the heap is not changed. *)
Theorem VerifyAggregatedProof_is_VerifyProof_at_start els H t rootHash agg :
  reachable sha els H t →
  0 ≤ start agg < end_ agg → end_ agg ≤ len (leaves t) →
  ∃ a n,
    leaves t !! Z.to_nat (start agg) = Some (Some a) ∧ H !! a = Some n ∧
    VerifyAggregatedProof sha rootHash agg t H
    = (VerifyProof sha rootHash
         {| hElement := hash n; siblings := aggSiblings agg;
            directions := aggDirections agg |}, H).
Proof.
  intros Hreach Hse Hel.
  pose proof (reachable_leaves_bound _ _ _ Hreach) as Hb.
  destruct (reachable_inv _ _ _ Hreach) as (lo & above & r & Hinv).
  assert (0 ≤ start agg < len (leaves t)) as Hin by lia.
  destruct (inv_leaf Hinv (start agg) Hin) as (a & n & Hleaf & Ha & Hn).
  exists a, n. split; [exact Hleaf |]. split; [exact Hn |].
  unfold VerifyAggregatedProof, VerifyProof, uint64_of_int.
  cbn [hElement siblings directions].
  pose proof (len_nonneg (leaves t)).
  replace ((start agg >=? end_ agg)
           || (end_ agg >? len (leaves t) `mod` 2 ^ 64)) with false
    by (symmetry; apply orb_false_iff; lia).
  destruct (index_in_range (leaves t) (start agg) H Hin) as (p & Hp & Hix).
  assert (p = Some a) as -> by congruence.
  rewrite (bind_ok _ _ _ _ _ Hix).
  rewrite (bind_ok _ _ _ _ _ (load_some _ _ _ Hn)).
  destruct (replay sha (hash n) 0 (aggSiblings agg) (aggDirections agg));
    reflexivity.
Qed.

(** ** Malformed and tampered proofs *)

(** X18. [VerifyProof] on a proof with fewer directions than siblings
    panics with an index out of range, whatever the hashes and the root. *)
Theorem VerifyProof_panics_when_directions_short rootHash proof :
  (length (directions proof) < length (siblings proof))%nat →
  VerifyProof sha rootHash proof = Panic IndexOutOfRange.
Proof.
  intros Hshort. unfold VerifyProof.
  rewrite replay_short by (cbn; lia). reflexivity.
Qed.

Lemma fold_path_differs sibs : ∀ dirs c1 c2,
  c1 ≠ c2 → fold_path sha c1 sibs dirs = fold_path sha c2 sibs dirs →
  collision sha.
Proof.
  induction sibs as [| s sibs IH]; intros [| d dirs] c1 c2 Hne Heq;
    cbn [fold_path] in Heq; try contradiction.
  destruct d.
  - destruct (decide (hashNode sha s c1 = hashNode sha s c2)) as [E | E].
    + eapply hashNode_right_differs; eauto.
    + eapply IH; eauto.
  - destruct (decide (hashNode sha c1 s = hashNode sha c2 s)) as [E | E].
    + eapply hashNode_left_differs; eauto.
    + eapply IH; eauto.
Qed.

Lemma fold_path_tampered sibs : ∀ dirs c k x,
  (length sibs ≤ length dirs)%nat → (k < length sibs)%nat →
  sibs !! k ≠ Some x →
  fold_path sha c (<[k:=x]> sibs) dirs = fold_path sha c sibs dirs →
  collision sha.
Proof.
  induction sibs as [| s sibs IH]; intros [| d dirs] c k x Hlen Hk Hne Heq;
    cbn [length] in *; try lia.
  destruct k as [| k].
  - cbn [insert list_insert fold_path] in Heq.
    assert (x ≠ s) as Hxs by (intros ->; apply Hne; reflexivity).
    destruct d.
    + destruct (decide (hashNode sha x c = hashNode sha s c)) as [E | E].
      * eapply hashNode_left_differs; eauto.
      * eapply fold_path_differs; eauto.
    + destruct (decide (hashNode sha c x = hashNode sha c s)) as [E | E].
      * eapply hashNode_right_differs; eauto.
      * eapply fold_path_differs; eauto.
  - cbn [insert list_insert fold_path lookup list_lookup] in Heq, Hne.
    destruct d; eapply (IH dirs _ k x); eauto; lia.
Qed.

(** X19. If [VerifyProof] accepts a proof (with a direction for every
    sibling), then replacing any one sibling hash by a different string
    makes it reject, unless the digest has a collision. *)
Theorem VerifyProof_rejects_tampered_sibling rootHash h sibs dirs k x :
  (length sibs ≤ length dirs)%nat → (k < length sibs)%nat →
  sibs !! k ≠ Some x →
  VerifyProof sha rootHash
    {| hElement := h; siblings := sibs; directions := dirs |} = Ok true →
  VerifyProof sha rootHash
    {| hElement := h; siblings := <[k:=x]> sibs; directions := dirs |}
  = Ok false ∨ collision sha.
Proof.
  intros Hlen Hk Hne Hok. unfold VerifyProof in *.
  cbn [hElement siblings directions] in *.
  pose proof (replay_fold sibs h [] dirs Hlen) as R1.
  pose proof (replay_fold (<[k:=x]> sibs) h [] dirs) as R2.
  rewrite length_insert in R2. specialize (R2 Hlen).
  cbn [length app] in R1, R2. rewrite R1 in Hok. rewrite R2.
  injection Hok as Hok. apply String.eqb_eq in Hok.
  destruct (String.eqb_spec
              (fold_path sha h (<[k:=x]> sibs) dirs) rootHash) as [E | E].
  - right. apply (fold_path_tampered sibs dirs h k x Hlen Hk Hne). congruence.
  - left. reflexivity.
Qed.

(** ** getSibling and isLeftChild *)

(** X20. On the leaves of a reachable tree: the only leaf of a one-leaf
    tree is the root, with no sibling and not a left child; otherwise leaf
    [i] is a left child exactly when [i] is even, and its sibling is the
    leaf next to it in its pair. *)
Theorem getSibling_isLeftChild_of_leaf els H t i p :
  reachable sha els H t → len els < 2 ^ 63 →
  leaves t !! i = Some p →
  if decide (length (leaves t) = 1%nat) then
    getSibling p H = (Ok None, H) ∧ isLeftChild p H = (Ok false, H)
  else
    ∃ q, leaves t !! sibling_index i = Some q ∧
         getSibling p H = (Ok q, H) ∧
         isLeftChild p H = (Ok (Nat.even i), H).
Proof.
  intros Hreach Hsmall Hp.
  destruct (reachable_full _ _ _ Hreach Hsmall)
    as (lo & above & r & Hinv & Hlv & Hlen).
  pose proof (inv_tower _ _ _ _ _ _ _ Hinv) as Ht.
  pose proof (inv_nodup _ _ _ _ _ _ _ Hinv) as Hnd.
  rewrite Hlv in Hp |- *. rewrite list_lookup_fmap in Hp.
  destruct (lo !! i) as [a |] eqn:Ha; [| discriminate].
  cbn in Hp. injection Hp as <-.
  rewrite length_fmap. destruct above as [| hi above]; cbn [tower] in Ht.
  - destruct Ht as [-> (nr & Hnr & Hpar)].
    apply list_lookup_singleton_Some in Ha as [-> <-].
    rewrite decide_True by reflexivity.
    unfold getSibling, isLeftChild.
    rewrite !(bind_ok _ _ _ _ _ (load_some _ _ _ Hnr)), Hpar. auto.
  - destruct Ht as [Hl Ht].
    pose proof (tower_length _ _ _ _ Ht) as Hhi.
    rewrite decide_False by (destruct Hl as [Hl _]; lia).
    destruct (linked_lookup _ _ _ _ _ Hl Ha)
      as (pp & l & r' & np & nl & nr' & Hpp & Hlo1 & Hlo2 & Hnp & Hleft & Hright
          & Hnl & Hpl & Hnr & Hpr & Hcase).
    cbn [concat] in Hnd. apply NoDup_app in Hnd as (Hndlo & _ & _).
    assert (l ≠ r') as Hlr.
    { intros ->. pose proof (NoDup_lookup _ _ _ _ Hndlo Hlo1 Hlo2). lia. }
    unfold getSibling, isLeftChild.
    destruct Hcase as [[-> Hjeq] | [-> Hjeq]].
    + destruct (parity_even i Hjeq) as [Hodd ->].
      exists (Some r'). rewrite list_lookup_fmap, Hlo2.
      rewrite !(bind_ok _ _ _ _ _ (load_some _ _ _ Hnl)), Hpl.
      rewrite !(bind_ok _ _ _ _ _ (load_some _ _ _ Hnp)).
      rewrite Hleft, ptr_eqb_refl, Hright.
      rewrite <- (Nat.negb_odd i), Hodd. auto.
    + destruct (parity_odd i Hjeq) as [Hodd ->].
      exists (Some l). rewrite list_lookup_fmap, Hlo1.
      rewrite !(bind_ok _ _ _ _ _ (load_some _ _ _ Hnr)), Hpr.
      rewrite !(bind_ok _ _ _ _ _ (load_some _ _ _ Hnp)).
      rewrite Hleft, ptr_eqb_ne by congruence.
      rewrite <- (Nat.negb_odd i), Hodd. auto.
Qed.

End Verification.

(** ** The results on concrete inputs *)

Lemma demo_build :
  NewMerkleTree toy_digest demo_elements [] = (Ok demo_tree, demo_heap).
Proof. vm_compute. reflexivity. Qed.

Lemma GetProof_verifies_on_built_tree_witness :
  demo_elements ≠ [] ∧
  ∃ proof rootHash,
    GetProof demo_tree 1 demo_heap = (Ok proof, demo_heap) ∧
    getRoot demo_tree demo_heap = (Ok rootHash, demo_heap) ∧
    VerifyProof toy_digest rootHash proof = Ok true.
Proof.
  apply (GetProof_verifies_on_built_tree toy_digest demo_elements demo_tree
           demo_heap 1).
  - vm_compute. reflexivity.
  - vm_compute. split; [discriminate | reflexivity].
Defined.

Lemma internal_nodes_hashed_in_reachable_states_witness :
  internal_nodes_hashed toy_digest demo_heap_updated.
Proof.
  apply (internal_nodes_hashed_in_reachable_states toy_digest
           (<[Z.to_nat 1 := "delta"%string]> demo_padded)
           demo_heap_updated demo_tree).
  apply (reach_update_failed toy_digest _ demo_heap_updated demo_tree 7
           "x"%string demo_heap_updated (Err IndexOutOfBoundsError)).
  - apply (reach_update toy_digest demo_padded demo_heap demo_tree 1
             "delta"%string demo_heap_updated).
    + apply (reach_new toy_digest demo_elements demo_heap demo_tree).
      vm_compute. reflexivity.
    + unfold is_uint64. lia.
    + vm_compute. reflexivity.
  - unfold is_uint64. lia.
  - vm_compute. reflexivity.
  - discriminate.
Defined.

Lemma UpdateElement_then_GetProof_witness :
  ∃ H' proof newRoot,
    UpdateElement toy_digest demo_tree 1 "delta" demo_heap = (Ok tt, H') ∧
    GetProof demo_tree 1 H' = (Ok proof, H') ∧
    hElement proof = hashLeaf toy_digest "delta" ∧
    getRoot demo_tree H' = (Ok newRoot, H') ∧
    VerifyProof toy_digest newRoot proof = Ok true ∧
    ∀ old oldRoot,
      demo_padded !! Z.to_nat 1 = Some old → "delta"%string ≠ old →
      getRoot demo_tree demo_heap = (Ok oldRoot, demo_heap) →
      newRoot ≠ oldRoot ∨ collision toy_digest.
Proof.
  apply (UpdateElement_then_GetProof toy_digest demo_padded demo_heap
           demo_tree 1 "delta"%string).
  - apply (reach_new toy_digest demo_elements demo_heap demo_tree).
    vm_compute. reflexivity.
  - vm_compute. split; [discriminate | reflexivity].
Defined.

Lemma GetProof_at_padding_index_witness :
  ∃ proof rootHash,
    GetProof demo_tree 3 demo_heap = (Ok proof, demo_heap) ∧
    hElement proof = hashLeaf toy_digest "" ∧
    getRoot demo_tree demo_heap = (Ok rootHash, demo_heap) ∧
    VerifyProof toy_digest rootHash proof = Ok true.
Proof.
  apply (GetProof_at_padding_index toy_digest demo_elements demo_tree
           demo_heap 3).
  - vm_compute. reflexivity.
  - vm_compute. split; discriminate || reflexivity.
Defined.

Lemma VerifyAggregatedProof_ignores_end_witness :
  VerifyAggregatedProof toy_digest "r" (demo_agg 2) demo_tree demo_heap
  = VerifyAggregatedProof toy_digest "r" (demo_agg 4) demo_tree demo_heap.
Proof.
  apply (VerifyAggregatedProof_ignores_end toy_digest demo_padded demo_heap
           demo_tree "r"%string (demo_agg 2) (demo_agg 4)).
  - apply (reach_new toy_digest demo_elements demo_heap demo_tree).
    vm_compute. reflexivity.
  - reflexivity.
  - reflexivity.
  - reflexivity.
  - vm_compute. split; [reflexivity | discriminate].
  - vm_compute. split; [reflexivity | discriminate].
Defined.

(** C2, as stated, fails: with a sibling and no direction both functions
    panic on [directions[0]] and return no boolean. *)
Lemma verification_panics_on_short_directions :
  VerifyProof toy_digest "r" short_proof = Panic IndexOutOfRange ∧
  VerifyAggregatedProof toy_digest "r" short_agg demo_tree demo_heap
  = (Panic IndexOutOfRange, demo_heap) ∧
  ¬ (∃ b : bool, VerifyProof toy_digest "r" short_proof = Ok b).
Proof.
  split; [reflexivity |]. split; [reflexivity |].
  intros [b Hb]. discriminate Hb.
Qed.

Lemma verification_returns_boolean_when_aligned_witness :
  VerifyProof toy_digest "<<<some><test>><<elements><>>>"
    {| hElement := "<test>"; siblings := ["<some>"; "<<elements><>>"];
       directions := [true; false] |}
  = Ok true ∧
  VerifyAggregatedProof toy_digest "r" short_agg
    {| root := None; leaves := [] |} []
  = (Ok false, []) ∧
  VerifyAggregatedProof toy_digest "<<<some><test>><<elements><>>>"
    (demo_agg 9) demo_tree demo_heap
  = (Ok false, demo_heap) ∧
  VerifyAggregatedProof toy_digest "<<<some><test>><<elements><>>>"
    (demo_agg 2) demo_tree demo_heap
  = (Ok true, demo_heap) ∧
  VerifyAggregatedProof toy_digest "r" (demo_agg 2) demo_tree demo_heap
  = (Ok false, demo_heap).
Proof.
  split; [| split; [| split; [| split]]].
  - apply (verification_returns_boolean_when_aligned toy_digest demo_tree
             demo_heap "<<<some><test>><<elements><>>>"%string
             {| hElement := "<test>";
                siblings := ["<some>"; "<<elements><>>"]%string;
                directions := [true; false] |} (demo_agg 2)).
    + vm_compute. reflexivity.
    + cbn. lia.
  - apply (verification_returns_boolean_when_aligned toy_digest
             {| root := None; leaves := [] |} [] "r"%string short_proof
             short_agg).
    + vm_compute. reflexivity.
    + right. vm_compute. reflexivity.
  - apply (verification_returns_boolean_when_aligned toy_digest demo_tree
             demo_heap "<<<some><test>><<elements><>>>"%string short_proof
             (demo_agg 9)).
    + vm_compute. reflexivity.
    + right. vm_compute. reflexivity.
  - destruct (verification_returns_boolean_when_aligned toy_digest demo_tree
                demo_heap "<<<some><test>><<elements><>>>"%string short_proof
                (demo_agg 2))
      as (_ & _ & Hin).
    + vm_compute. reflexivity.
    + destruct (Hin demo_padded) as (a & n & Hleaf & Hn & Hrun).
      * apply (reach_new toy_digest demo_elements demo_heap demo_tree).
        vm_compute. reflexivity.
      * unfold is_uint64. cbn. lia.
      * vm_compute. split; [reflexivity | discriminate].
      * cbn. lia.
      * vm_compute in Hleaf. injection Hleaf as <-.
        vm_compute in Hn. injection Hn as <-. exact Hrun.
  - destruct (verification_returns_boolean_when_aligned toy_digest demo_tree
                demo_heap "r"%string short_proof (demo_agg 2))
      as (_ & _ & Hin).
    + vm_compute. reflexivity.
    + destruct (Hin demo_padded) as (a & n & Hleaf & Hn & Hrun).
      * apply (reach_new toy_digest demo_elements demo_heap demo_tree).
        vm_compute. reflexivity.
      * unfold is_uint64. cbn. lia.
      * vm_compute. split; [reflexivity | discriminate].
      * cbn. lia.
      * vm_compute in Hleaf. injection Hleaf as <-.
        vm_compute in Hn. injection Hn as <-. exact Hrun.
Defined.

(** ** Where the code departs from its documentation *)

(** C3.  The index [2 ^ 63] is a [uint64] at or past the four leaves of
    [demo_tree], yet [GetProof] and [UpdateElement] do not return
    [IndexOutOfBoundsError]: [int(index)] is negative, the check passes and
    [t.leaves[index]] panics. *)
Theorem GetProof_UpdateElement_panic_at_2_63 :
  is_uint64 (2 ^ 63) ∧ len (leaves demo_tree) ≤ 2 ^ 63 ∧
  GetProof demo_tree (2 ^ 63) demo_heap = (Panic IndexOutOfRange, demo_heap) ∧
  UpdateElement toy_digest demo_tree (2 ^ 63) "x" demo_heap
  = (Panic IndexOutOfRange, demo_heap).
Proof.
  split; [unfold is_uint64; lia |]. split; [vm_compute; discriminate |].
  split; reflexivity.
Qed.

(** C4.  With [endIndex = 2 ^ 63], past the four leaves of [demo_tree],
    [GetAggregatedProof] returns a proof and no [InvalidRangeError]:
    [int(endIndex)] is negative and the check passes. *)
Theorem GetAggregatedProof_accepts_end_2_63 :
  is_uint64 (2 ^ 63) ∧ len (leaves demo_tree) < 2 ^ 63 ∧
  GetAggregatedProof demo_tree 0 (2 ^ 63) demo_heap
  = (Ok {| start := 0; end_ := 2 ^ 63;
           aggSiblings := ["<test>"; "<<elements><>>"]%string;
           aggDirections := [false; false] |}, demo_heap).
Proof.
  split; [unfold is_uint64; lia |]. split; [vm_compute; reflexivity |].
  reflexivity.
Qed.

(** C5.  For [n = 2 ^ 32 + 1] the smearing stops at the shift by 16 and the
    result [2 ^ 33 - 1] is not a power of two. *)
Theorem getNextPowerOfTwo_above_2_32 :
  getNextPowerOfTwo 4294967297 = 8589934591 ∧
  ¬ is_power_of_two (getNextPowerOfTwo 4294967297).
Proof.
  split; [reflexivity |].
  change (getNextPowerOfTwo 4294967297) with 8589934591.
  intros [[| k] Hk]; [discriminate |].
  rewrite Nat2Z.inj_succ, Z.pow_succ_r in Hk by lia. lia.
Qed.

(** ** The tests of the repository, run on the embedding *)

Example TestAggregatedProof :
  (aggregated_round_trip toy_digest seven_elements 1 3 []).1 = Ok true.
Proof. vm_compute. reflexivity. Qed.

Example TestEntireMerkleTreeUsingAggregatedProof :
  (aggregated_round_trip toy_digest seven_elements 0 (7 - 1) []).1 = Ok true.
Proof. vm_compute. reflexivity. Qed.

Example TestSmallestAggregatedProof :
  (aggregated_round_trip toy_digest ["one"; "two"]%string 0 1 []).1 = Ok true.
Proof. vm_compute. reflexivity. Qed.

Example TestInvalidlySmallSetOfElementsAggregatedProof :
  (aggregated_round_trip toy_digest ["one"]%string 0 0 []).1
  = Err InvalidRangeError.
Proof. vm_compute. reflexivity. Qed.

Example TestInvalidAggregatedProofIndexes :
  (aggregated_round_trip toy_digest seven_elements 3 1 []).1
  = Err InvalidRangeError.
Proof. vm_compute. reflexivity. Qed.

Example TestInvalidAggregatedProofEndIndex :
  (aggregated_round_trip toy_digest seven_elements 1 10 []).1
  = Err InvalidRangeError.
Proof. vm_compute. reflexivity. Qed.

Example TestProof :
  (proof_round_trip toy_digest demo_elements 0 "some" []).1
  = Ok (Ok true, true) ∧
  (proof_round_trip toy_digest demo_elements 1 "test" []).1
  = Ok (Ok true, true) ∧
  (proof_round_trip toy_digest demo_elements 2 "elements" []).1
  = Ok (Ok true, true).
Proof. vm_compute. repeat split; reflexivity. Qed.

Example TestProofOnSingleElement :
  (proof_round_trip toy_digest ["one"]%string 0 "one" []).1
  = Ok (Ok true, true).
Proof. vm_compute. reflexivity. Qed.

Example TestInvalidProof :
  (GetProof demo_tree 100 demo_heap).1 = Err IndexOutOfBoundsError.
Proof. vm_compute. reflexivity. Qed.

Example TestUpdateElement :
  ((let* mt := NewMerkleTree toy_digest ["alpha"; "beta"; "gamma"]%string in
    UpdateElement toy_digest mt 1 "delta";;
    let* updatedProof := GetProof mt 1 in
    ret (String.eqb (hElement updatedProof) (hashLeaf toy_digest "delta")))
     []).1
  = Ok true.
Proof. vm_compute. reflexivity. Qed.

(** ** The further results on concrete inputs *)

Lemma NewMerkleTree_error_iff_empty_witness :
  NewMerkleTree toy_digest [] [] = (Err EmptyInputError, []) ∧
  ∃ H', (∃ t, NewMerkleTree toy_digest demo_elements [] = (Ok t, H')) ∨
        (∃ p, NewMerkleTree toy_digest demo_elements [] = (Panic p, H')).
Proof.
  split.
  - apply (proj1 (NewMerkleTree_error_iff_empty toy_digest [])).
    split; [reflexivity | split; reflexivity].
  - apply (proj2 (NewMerkleTree_error_iff_empty toy_digest demo_elements)).
    discriminate.
Defined.

Lemma NewMerkleTree_up_to_2_32_witness :
  ∃ t H,
    NewMerkleTree toy_digest demo_elements [] = (Ok t, H) ∧
    is_power_of_two (len (leaves t)) ∧
    len demo_elements ≤ len (leaves t) ∧
    ∀ z, is_power_of_two z → len demo_elements ≤ z → len (leaves t) ≤ z.
Proof.
  apply (NewMerkleTree_up_to_2_32 toy_digest demo_elements).
  vm_compute. split; [reflexivity | discriminate].
Defined.

Lemma getNextPowerOfTwo_correct_up_to_2_32_witness :
  is_power_of_two (getNextPowerOfTwo 3) ∧
  3 ≤ getNextPowerOfTwo 3 ∧
  ∀ z, is_power_of_two z → 3 ≤ z → getNextPowerOfTwo 3 ≤ z.
Proof.
  apply (getNextPowerOfTwo_correct_up_to_2_32 3).
  vm_compute. split; [reflexivity | discriminate].
Defined.

Lemma NewMerkleTree_shape_witness :
  ∃ h : nat,
    leaves demo_tree = Some <$> seq 0 (2 ^ h) ∧
    (length demo_elements ≤ 2 ^ h)%nat ∧
    length demo_heap = (2 * 2 ^ h - 1)%nat.
Proof.
  apply (NewMerkleTree_shape toy_digest demo_elements demo_tree demo_heap).
  - vm_compute. reflexivity.
  - vm_compute. reflexivity.
Defined.

Lemma GetProof_verifies_in_reachable_states_witness :
  ∃ proof rootHash e,
    GetProof demo_tree 1 demo_heap_updated = (Ok proof, demo_heap_updated) ∧
    getRoot demo_tree demo_heap_updated = (Ok rootHash, demo_heap_updated) ∧
    VerifyProof toy_digest rootHash proof = Ok true ∧
    <[Z.to_nat 1 := "delta"%string]> demo_padded !! Z.to_nat 1 = Some e ∧
    hElement proof = hashLeaf toy_digest e.
Proof.
  apply (GetProof_verifies_in_reachable_states toy_digest
           (<[Z.to_nat 1 := "delta"%string]> demo_padded)
           demo_heap_updated demo_tree 1).
  - apply (reach_update toy_digest demo_padded demo_heap demo_tree 1
             "delta"%string demo_heap_updated).
    + apply (reach_new toy_digest demo_elements demo_heap demo_tree).
      vm_compute. reflexivity.
    + unfold is_uint64. lia.
    + vm_compute. reflexivity.
  - vm_compute. split; [discriminate | reflexivity].
Defined.

Lemma GetProof_is_reference_proof_witness :
  GetProof demo_tree 2 demo_heap
  = (Ok (referenceProof toy_digest (hashLeaf toy_digest <$> demo_padded)
           (Z.to_nat 2)), demo_heap).
Proof.
  apply (GetProof_is_reference_proof toy_digest demo_padded demo_heap
           demo_tree 2).
  - apply (reach_new toy_digest demo_elements demo_heap demo_tree).
    vm_compute. reflexivity.
  - vm_compute. reflexivity.
  - vm_compute. split; [discriminate | reflexivity].
Defined.

Lemma GetProof_size_and_directions_witness :
  length ["<>"; "<<some><test>>"]%string = Nat.log2 (length (leaves demo_tree)) ∧
  length [false; true] = Nat.log2 (length (leaves demo_tree)) ∧
  (2 ^ length ["<>"; "<<some><test>>"]%string)%nat
  = length (leaves demo_tree) ∧
  ∀ k, (k < length [false; true])%nat →
       [false; true] !! k = Some (Nat.odd (Z.to_nat 2 / 2 ^ k)).
Proof.
  apply (GetProof_size_and_directions toy_digest demo_padded demo_heap
           demo_tree 2
           {| hElement := "<elements>";
              siblings := ["<>"; "<<some><test>>"]%string;
              directions := [false; true] |}).
  - apply (reach_new toy_digest demo_elements demo_heap demo_tree).
    vm_compute. reflexivity.
  - vm_compute. reflexivity.
  - vm_compute. split; [discriminate | reflexivity].
  - vm_compute. reflexivity.
Defined.

Lemma getRoot_is_reference_root_witness :
  getRoot demo_tree demo_heap_updated
  = (Ok (referenceRoot toy_digest
           (hashLeaf toy_digest
              <$> <[Z.to_nat 1 := "delta"%string]> demo_padded)),
     demo_heap_updated).
Proof.
  apply (getRoot_is_reference_root toy_digest
           (<[Z.to_nat 1 := "delta"%string]> demo_padded)
           demo_heap_updated demo_tree).
  - apply (reach_update toy_digest demo_padded demo_heap demo_tree 1
             "delta"%string demo_heap_updated).
    + apply (reach_new toy_digest demo_elements demo_heap demo_tree).
      vm_compute. reflexivity.
    + unfold is_uint64. lia.
    + vm_compute. reflexivity.
  - vm_compute. reflexivity.
Defined.

Lemma UpdateElement_agrees_with_rebuild_witness :
  ∃ t H H' t2 H2 rootHash,
    NewMerkleTree toy_digest demo_elements [] = (Ok t, H) ∧
    UpdateElement toy_digest t 1 "delta" H = (Ok tt, H') ∧
    NewMerkleTree toy_digest (<[Z.to_nat 1 := "delta"%string]> demo_elements) []
    = (Ok t2, H2) ∧
    getRoot t H' = (Ok rootHash, H') ∧
    getRoot t2 H2 = (Ok rootHash, H2).
Proof.
  apply (UpdateElement_agrees_with_rebuild toy_digest demo_elements 1
           "delta"%string).
  - vm_compute. split; [reflexivity | discriminate].
  - vm_compute. split; [discriminate | reflexivity].
Defined.

Lemma UpdateElement_frame_witness :
  length demo_heap_updated = length demo_heap ∧
  same_shape demo_heap demo_heap_updated ∧
  ∀ j p p', 0 ≤ j < len (leaves demo_tree) → j ≠ 1 →
            GetProof demo_tree j demo_heap = (Ok p, demo_heap) →
            GetProof demo_tree j demo_heap_updated
            = (Ok p', demo_heap_updated) →
            hElement p' = hElement p.
Proof.
  apply (UpdateElement_frame toy_digest demo_padded demo_heap demo_tree 1
           "delta"%string demo_heap_updated).
  - apply (reach_new toy_digest demo_elements demo_heap demo_tree).
    vm_compute. reflexivity.
  - vm_compute. split; [discriminate | reflexivity].
  - vm_compute. reflexivity.
Defined.

Lemma UpdateElement_same_element_witness :
  UpdateElement toy_digest demo_tree 1 "test" demo_heap = (Ok tt, demo_heap).
Proof.
  apply (UpdateElement_same_element toy_digest demo_padded demo_heap
           demo_tree 1 "test"%string).
  - apply (reach_new toy_digest demo_elements demo_heap demo_tree).
    vm_compute. reflexivity.
  - vm_compute. reflexivity.
  - vm_compute. split; [discriminate | reflexivity].
  - vm_compute. reflexivity.
Defined.

Lemma UpdateElement_commutes_witness :
  ∃ H',
    (UpdateElement toy_digest demo_tree 1 "delta";;
     UpdateElement toy_digest demo_tree 3 "omega") demo_heap = (Ok tt, H') ∧
    (UpdateElement toy_digest demo_tree 3 "omega";;
     UpdateElement toy_digest demo_tree 1 "delta") demo_heap = (Ok tt, H').
Proof.
  apply (UpdateElement_commutes toy_digest demo_padded demo_heap demo_tree
           1 "delta"%string 3 "omega"%string).
  - apply (reach_new toy_digest demo_elements demo_heap demo_tree).
    vm_compute. reflexivity.
  - vm_compute. reflexivity.
  - vm_compute. split; [discriminate | reflexivity].
  - vm_compute. split; [discriminate | reflexivity].
  - discriminate.
Defined.

Lemma GetProof_bounds_below_2_63_witness :
  (GetProof demo_tree 4 demo_heap).2 = demo_heap ∧
  ((GetProof demo_tree 4 demo_heap).1 = Err IndexOutOfBoundsError
   ↔ len (leaves demo_tree) ≤ 4) ∧
  (4 < len (leaves demo_tree) →
   ∃ proof, (GetProof demo_tree 4 demo_heap).1 = Ok proof).
Proof.
  apply (GetProof_bounds_below_2_63 toy_digest demo_padded demo_heap
           demo_tree 4).
  - apply (reach_new toy_digest demo_elements demo_heap demo_tree).
    vm_compute. reflexivity.
  - vm_compute. split; [discriminate | reflexivity].
Defined.

Lemma UpdateElement_bounds_witness :
  (len (leaves demo_tree) ≤ 4 →
   (UpdateElement toy_digest demo_tree 4 "x" demo_heap).2 = demo_heap ∧
   (UpdateElement toy_digest demo_tree 4 "x" demo_heap).1 ≠ Ok tt) ∧
  (4 < 2 ^ 63 →
   ((UpdateElement toy_digest demo_tree 4 "x" demo_heap).1
    = Err IndexOutOfBoundsError ↔ len (leaves demo_tree) ≤ 4)) ∧
  (4 < len (leaves demo_tree) →
   (UpdateElement toy_digest demo_tree 4 "x" demo_heap).1 = Ok tt).
Proof.
  apply (UpdateElement_bounds toy_digest demo_padded demo_heap demo_tree 4
           "x"%string).
  - apply (reach_new toy_digest demo_elements demo_heap demo_tree).
    vm_compute. reflexivity.
  - unfold is_uint64. lia.
Defined.

Lemma GetAggregatedProof_range_below_2_63_witness :
  (GetAggregatedProof demo_tree 1 3 demo_heap).2 = demo_heap ∧
  ((GetAggregatedProof demo_tree 1 3 demo_heap).1 = Err InvalidRangeError
   ↔ 3 ≤ 1 ∨ len (leaves demo_tree) < 3) ∧
  (GetAggregatedProof demo_tree 1 3 demo_heap).1 ≠ Err RangeTooSmallError ∧
  (1 < 3 ≤ len (leaves demo_tree) →
   ∃ p, (GetAggregatedProof demo_tree 1 3 demo_heap).1 = Ok p ∧
        start p = 1 ∧ end_ p = 3).
Proof.
  apply (GetAggregatedProof_range_below_2_63 toy_digest demo_padded
           demo_heap demo_tree 1 3).
  - apply (reach_new toy_digest demo_elements demo_heap demo_tree).
    vm_compute. reflexivity.
  - unfold is_uint64. lia.
  - lia.
Defined.

Lemma GetAggregatedProof_round_trip_witness :
  ∃ agg proof rootHash,
    GetAggregatedProof demo_tree 1 3 demo_heap = (Ok agg, demo_heap) ∧
    GetProof demo_tree 1 demo_heap = (Ok proof, demo_heap) ∧
    start agg = 1 ∧ end_ agg = 3 ∧
    aggSiblings agg = siblings proof ∧
    aggDirections agg = directions proof ∧
    getRoot demo_tree demo_heap = (Ok rootHash, demo_heap) ∧
    VerifyAggregatedProof toy_digest rootHash agg demo_tree demo_heap
    = (Ok true, demo_heap).
Proof.
  apply (GetAggregatedProof_round_trip toy_digest demo_padded demo_heap
           demo_tree 1 3).
  - apply (reach_new toy_digest demo_elements demo_heap demo_tree).
    vm_compute. reflexivity.
  - lia.
  - vm_compute. discriminate.
Defined.

Lemma VerifyAggregatedProof_is_VerifyProof_at_start_witness :
  ∃ a n,
    leaves demo_tree !! Z.to_nat (start (demo_agg 2)) = Some (Some a) ∧
    demo_heap !! a = Some n ∧
    VerifyAggregatedProof toy_digest "r" (demo_agg 2) demo_tree demo_heap
    = (VerifyProof toy_digest "r"
         {| hElement := hash n; siblings := aggSiblings (demo_agg 2);
            directions := aggDirections (demo_agg 2) |}, demo_heap).
Proof.
  apply (VerifyAggregatedProof_is_VerifyProof_at_start toy_digest demo_padded
           demo_heap demo_tree "r"%string (demo_agg 2)).
  - apply (reach_new toy_digest demo_elements demo_heap demo_tree).
    vm_compute. reflexivity.
  - cbn. lia.
  - vm_compute. discriminate.
Defined.

Lemma VerifyProof_panics_when_directions_short_witness :
  VerifyProof toy_digest "r" short_proof = Panic IndexOutOfRange.
Proof.
  apply (VerifyProof_panics_when_directions_short toy_digest "r"%string
           short_proof).
  cbn. lia.
Defined.

Lemma VerifyProof_rejects_tampered_sibling_witness :
  VerifyProof toy_digest "<<<some><test>><<elements><>>>"
    {| hElement := "<test>";
       siblings := <[0%nat := "bad"%string]>
                     ["<some>"; "<<elements><>>"]%string;
       directions := [true; false] |}
  = Ok false ∨ collision toy_digest.
Proof.
  apply (VerifyProof_rejects_tampered_sibling toy_digest
           "<<<some><test>><<elements><>>>"%string "<test>"%string
           ["<some>"; "<<elements><>>"]%string [true; false] 0 "bad"%string).
  - cbn. lia.
  - cbn. lia.
  - discriminate.
  - vm_compute. reflexivity.
Defined.

Lemma getSibling_isLeftChild_of_leaf_witness :
  if decide (length (leaves demo_tree) = 1%nat) then
    getSibling (Some 2%nat) demo_heap = (Ok None, demo_heap) ∧
    isLeftChild (Some 2%nat) demo_heap = (Ok false, demo_heap)
  else
    ∃ q, leaves demo_tree !! sibling_index 2 = Some q ∧
         getSibling (Some 2%nat) demo_heap = (Ok q, demo_heap) ∧
         isLeftChild (Some 2%nat) demo_heap = (Ok (Nat.even 2), demo_heap).
Proof.
  apply (getSibling_isLeftChild_of_leaf toy_digest demo_padded demo_heap
           demo_tree 2 (Some 2%nat)).
  - apply (reach_new toy_digest demo_elements demo_heap demo_tree).
    vm_compute. reflexivity.
  - vm_compute. reflexivity.
  - reflexivity.
Defined.
